(** * The MPTT tree manager of Studio's content curation back end

    A shallow embedding of
    [contentcuration/contentcuration/db/models/manager.py]
    ([CustomContentNodeTreeManager]): the tree lock manager, the node
    cloner, the nested-set layout pass, the dependent-record copiers and
    the copy orchestrator, with the properties of each. *)

From Stdlib Require Import ZArith String Ascii List Lia.
From stdpp Require Import gmap strings list sorting pretty.

Local Open Scope Z_scope.
Set Warnings "-register-all".

(** * Python values and exceptions *)

Module Py.

(** The values the manager stores in node attributes and dicts: [None],
    booleans, integers and strings.  A reference to a model instance is
    the instance's primary key. *)
Inductive pyval :=
| VNone
| VBool (b : bool)
| VInt (z : Z)
| VStr (s : string).

#[global] Instance pyval_eq_dec : EqDecision pyval.
Proof. solve_decision. Defined.

#[global] Instance pyval_countable : Countable pyval.
Proof.
  refine (inj_countable'
    (λ v, match v with
          | VNone => inl (inl ())
          | VBool b => inl (inr b)
          | VInt z => inr (inl z)
          | VStr s => inr (inr s)
          end)
    (λ x, match x with
          | inl (inl _) => VNone
          | inl (inr b) => VBool b
          | inr (inl z) => VInt z
          | inr (inr s) => VStr s
          end) _).
  by intros [].
Defined.

(** Python's truth value of an object. *)
Definition truthy (v : pyval) : bool :=
  match v with
  | VNone => false
  | VBool b => b
  | VInt z => negb (z =? 0)
  | VStr s => negb (bool_decide (s = EmptyString))
  end.

(** The exceptions the manager raises, catches or lets through.
    [OperationalError] carries its [args] tuple, as [except ... as e:
    e.args[0]] reads it. *)
Inductive exn :=
| OperationalError (args : list pyval)
| IndexError
| TypeError
| KeyError (key : pyval)
| AttributeError (attr : string)
| ValueError (msg : string)
| RuntimeError (msg : string)
| IntegrityError
| PyException (msg : string).

#[global] Instance exn_eq_dec : EqDecision exn.
Proof. solve_decision. Defined.

(** [needle in hay] on Python strings. *)
Fixpoint contains (needle hay : string) : bool :=
  String.prefix needle hay
  || match hay with
     | EmptyString => false
     | String _ rest => contains needle rest
     end.

End Py.

Import Py.

(** * The tree lock manager: [_attempt_lock] and [lock_mptt] *)

Module Lock.

(** What an observer of the data base connection and of the log sees. *)
Inductive event :=
| EAtomicEnter                                  (* transaction.atomic().__enter__ *)
| EAtomicCommit                                 (* a clean exit of the atomic block *)
| EAtomicRollback                               (* an exit of the atomic block by an exception *)
| ESelectForUpdate (tree_id : Z) (values : list string)
| ELogError (msg : string)
| ELogLockTime
| EBody (tag : nat)                             (* a step of the caller's with-block *)
| ECall (fn : string)                           (* a call into mptt or the model *)
| ESignal (name : string).                      (* a Django signal sent *)

#[global] Instance event_eq_dec : EqDecision event.
Proof. solve_decision. Defined.

(** Generator code, as resumptions.  [Yield k] is a generator suspended at
    a [yield]: [k None] resumes it with [next()], [k (Some e)] with
    [throw(e)].  [Stmt] is a statement sent to the data base, whose failure
    is decided by the environment. *)
Inductive gen :=
| Return
| Raise (e : exn)
| Emit (ev : event) (k : gen)
| Stmt (ev : event) (k : option exn → gen)
| Yield (k : option exn → gen).

(** A bare [yield] statement: [throw(e)] raises [e] at the yield. *)
Definition yield_ : gen :=
  Yield (λ r, match r with None => Return | Some e => Raise e end).

(** [g1; g2]. *)
Fixpoint seq (g1 g2 : gen) : gen :=
  match g1 with
  | Return => g2
  | Raise e => Raise e
  | Emit ev k => Emit ev (seq k g2)
  | Stmt ev k => Stmt ev (λ r, seq (k r) g2)
  | Yield k => Yield (λ r, seq (k r) g2)
  end.

(** [try: g  except <any> as e: h e]; a handler that does not catch [e]
    re-raises it. *)
Fixpoint try_except (g : gen) (h : exn → gen) : gen :=
  match g with
  | Return => Return
  | Raise e => h e
  | Emit ev k => Emit ev (try_except k h)
  | Stmt ev k => Stmt ev (λ r, try_except (k r) h)
  | Yield k => Yield (λ r, try_except (k r) h)
  end.

(** [contextlib]'s [_GeneratorContextManager.__exit__] after a clean
    with-block: [next(gen)] must stop. *)
Fixpoint exit_clean (g : gen) : gen :=
  match g with
  | Return => Return
  | Raise e => Raise e
  | Emit ev k => Emit ev (exit_clean k)
  | Stmt ev k => Stmt ev (λ r, exit_clean (k r))
  | Yield _ => Raise (RuntimeError "generator didn't stop")
  end.

(** [__exit__] after the with-block raised: [gen.throw(e)] was called, and
    [g] is what the generator does from there.  A generator that returns
    swallows the exception; one that yields again is an error. *)
Fixpoint exit_throw (g : gen) : gen :=
  match g with
  | Return => Return
  | Raise e => Raise e
  | Emit ev k => Emit ev (exit_throw k)
  | Stmt ev k => Stmt ev (λ r, exit_throw (k r))
  | Yield _ => Raise (RuntimeError "generator didn't stop after throw()")
  end.

(** The with-block [body] run under a context manager suspended at its
    yield with resumption [k].  The block runs once; how it ends decides
    how the generator is resumed. *)
Fixpoint run_block (k : option exn → gen) (body : gen) : gen :=
  match body with
  | Return => exit_clean (k None)
  | Raise e => exit_throw (k (Some e))
  | Emit ev b => Emit ev (run_block k b)
  | Stmt ev b => Stmt ev (λ r, run_block k (b r))
  | Yield b => Yield (λ r, run_block k (b r))
  end.

(** [with cm: body] for a [@contextlib.contextmanager] generator [cm]. *)
Fixpoint with_ (cm : gen) (body : gen) : gen :=
  match cm with
  | Return => Raise (RuntimeError "generator didn't yield")
  | Raise e => Raise e
  | Emit ev k => Emit ev (with_ k body)
  | Stmt ev k => Stmt ev (λ r, with_ (k r) body)
  | Yield k => run_block k body
  end.

(** [transaction.atomic()]: commit on a clean exit, roll back and re-raise
    on an exception. *)
Definition atomic : gen :=
  Emit EAtomicEnter
    (Yield (λ r, match r with
                 | None => Emit EAtomicCommit Return
                 | Some e => Emit EAtomicRollback (Raise e)
                 end)).

(** [execute_queryset_without_results(self.select_for_update().order_by()
    .filter(tree_id=tree_id).values( *values))]. *)
Definition select_for_update (tree_id : Z) (values : list string) : gen :=
  Stmt (ESelectForUpdate tree_id values)
       (λ r, match r with None => Return | Some e => Raise e end).

(** The [for tree_id in tree_ids] loop of [_attempt_lock]. *)
Fixpoint lock_each (tree_ids : list Z) (values : list string) : gen :=
  match tree_ids with
  | [] => Return
  | t :: rest => seq (select_for_update t values) (lock_each rest values)
  end.

Definition _attempt_lock (tree_ids : list Z) (values : list string) : gen :=
  with_ atomic
        (seq (lock_each tree_ids values)
             (seq yield_ (Emit ELogLockTime Return))).

(** The class-level state [lock_mptt] reads: mptt's tracking and update
    flags, and the names of the mptt columns ([_mptt_meta]). *)
Record model := {
  _mptt_is_tracking : bool;
  _mptt_updates_enabled : bool;
  tree_id_attr : string;
  left_attr : string;
  right_attr : string;
  level_attr : string;
  parent_attr : string
}.

(** [sorted((t for t in set(tree_ids) if t is not None))]. *)
Definition normalize (tree_ids : list (option Z)) : list Z :=
  merge_sort Z.le (omap id (elements (list_to_set tree_ids : gset (option Z)))).

Definition deadlock_msg : string :=
  "Deadlock detected while trying to lock ContentNode trees for mptt operations, retrying".

(** The [except OperationalError as e] clause of [lock_mptt]. *)
Definition on_error (retry : gen) (e : exn) : gen :=
  match e with
  | OperationalError args =>
      match args with
      | [] => Raise IndexError
      | VStr msg :: _ =>
          if contains "deadlock detected" msg
          then Emit (ELogError deadlock_msg) retry
          else Raise e
      | _ :: _ => Raise TypeError
      end
  | _ => Raise e
  end.

Definition lock_values (m : model) : list string :=
  [tree_id_attr m; left_attr m; right_attr m; level_attr m; parent_attr m].

Definition locking (m : model) (tree_ids : list Z) : bool :=
  negb (_mptt_is_tracking m) && _mptt_updates_enabled m
  && negb (bool_decide (tree_ids = [])).

Definition lock_mptt (m : model) (tree_ids : list (option Z)) : gen :=
  let tree_ids := normalize tree_ids in
  if locking m tree_ids then
    let values := lock_values m in
    try_except (with_ (_attempt_lock tree_ids values) yield_)
               (on_error (with_ (_attempt_lock tree_ids values) yield_))
  else yield_.

(** How a run ends: the code completed, an exception reached the caller,
    or a generator was left suspended at a yield. *)
Inductive outcome :=
| Done
| Failed (e : exn)
| Suspended.

(** Runs a program against a script of data base outcomes: the n-th
    statement sent fails with the n-th entry when that is [Some e], and
    succeeds when it is [None] or the script is exhausted.  The result is
    the trace, how the run ended, and what is left of the script. *)
Record result := Result {
  trace : list event;
  ending : outcome;
  rest : list (option exn)
}.

Definition after (ev : event) (r : result) : result :=
  Result (ev :: trace r) (ending r) (rest r).

Fixpoint run (g : gen) (script : list (option exn)) : result :=
  match g with
  | Return => Result [] Done script
  | Raise e => Result [] (Failed e) script
  | Emit ev k => after ev (run k script)
  | Stmt ev k => after ev (run (k (hd None script)) (tl script))
  | Yield _ => Result [] Suspended script
  end.

End Lock.
(** * Nodes and the node cloner: [get_source_attributes], [_clone_node] *)

Module Clone.

(** A [ContentNode] instance: its mptt columns, and every other attribute
    by name.  An attribute that was never set reads as [None]. *)
Record node := Node {
  attrs : gmap string pyval;
  tree_id : Z;
  level : Z;
  lft : Z;
  rght : Z
}.

#[global] Instance node_eq_dec : EqDecision node.
Proof. solve_decision. Defined.

Definition attr (n : node) (k : string) : pyval := default VNone (attrs n !! k).

(** The primary key, [node.id]. *)
Definition pk (n : node) : pyval := attr n "id".

(** The methods of [ContentNode] and [Channel] that the manager calls and
    that live in [contentcuration/models.py]: the original node of a
    copy, the id of the channel a node belongs to ([None] when
    [get_channel()] returns no channel), and [get_channel_id()]. *)
Record methods := {
  get_original_node : node → node;
  get_channel : node → option pyval;
  get_channel_id : node → pyval
}.

(** [uuid.uuid4().hex]: the n-th identifier drawn is [uuid n]. *)
Definition uuids := nat → string.

Definition get_source_attributes (source : node) : gmap string pyval :=
  list_to_map
    [("content_id", attr source "content_id");
     ("kind_id", attr source "kind_id");
     ("title", attr source "title");
     ("description", attr source "description");
     ("language_id", attr source "language_id");
     ("license_id", attr source "license_id");
     ("license_description", attr source "license_description");
     ("thumbnail_encoding", attr source "thumbnail_encoding");
     ("extra_fields", attr source "extra_fields");
     ("copyright_holder", attr source "copyright_holder");
     ("author", attr source "author");
     ("provider", attr source "provider");
     ("role_visibility", attr source "role_visibility")].

(** [d.update(other)]: the keys of [other] win. *)
Definition update (d other : gmap string pyval) : gmap string pyval := other ∪ d.

(** [d[k]] for a key that the code has just put there. *)
Definition item (d : gmap string pyval) (k : string) : pyval := default VNone (d !! k).

(** The dict literal that [_clone_node] starts from; [c] counts the
    identifiers drawn so far. *)
Definition clone_defaults (uuid : uuids) (source : node)
    (parent_id source_channel_id can_edit_source_channel pk_ : pyval) (c : nat)
    : gmap string pyval * nat :=
  let '(id_, c) := if truthy pk_ then (pk_, c) else (VStr (uuid c), S c) in
  let '(node_id, c) := (VStr (uuid c), S c) in
  (list_to_map
     [("id", id_);
      ("node_id", node_id);
      ("aggregator", attr source "aggregator");
      ("cloned_source", pk source);
      ("source_channel_id", source_channel_id);
      ("source_node_id", attr source "node_id");
      ("original_channel_id", attr source "original_channel_id");
      ("original_source_node_id", attr source "original_source_node_id");
      ("freeze_authoring_data",
         if negb (truthy can_edit_source_channel) then VBool true
         else attr source "freeze_authoring_data");
      ("changed", VBool true);
      ("published", VBool false);
      ("parent_id", parent_id)],
   c).

(** The legacy back-fill at the end of [_clone_node]. *)
Definition backfill (M : methods) (source : node) (copy : gmap string pyval)
    : gmap string pyval :=
  if bool_decide (item copy "original_channel_id" = VNone)
     || bool_decide (item copy "original_source_node_id" = VNone)
  then
    let original_node := get_original_node M source in
    let copy :=
      if bool_decide (item copy "original_channel_id" = VNone) then
        <["original_channel_id" :=
            match get_channel M original_node with
            | Some channel_id => channel_id
            | None => VNone
            end]> copy
      else copy in
    if bool_decide (item copy "original_source_node_id" = VNone) then
      <["original_source_node_id" := attr original_node "node_id"]> copy
    else copy
  else copy.

(** [mods] is a dict or [None]. *)
Definition _clone_node (M : methods) (uuid : uuids) (source : node)
    (parent_id source_channel_id can_edit_source_channel pk_ : pyval)
    (mods : option (gmap string pyval)) (c : nat)
    : gmap string pyval * nat :=
  let '(copy, c) :=
    clone_defaults uuid source parent_id source_channel_id
                   can_edit_source_channel pk_ c in
  let copy := update copy (get_source_attributes source) in
  let copy := match mods with Some mods => update copy mods | None => copy end in
  (backfill M source copy, c).

End Clone.

(** * Results and exceptions *)

Module Exc.

(** A computation that returns a value or raises. *)
Definition exc (A : Type) : Type := exn + A.

Definition ret {A} (a : A) : exc A := inr a.
Definition raise {A} (e : exn) : exc A := inl e.

Definition bind {A B} (x : exc A) (f : A → exc B) : exc B :=
  match x with
  | inl e => inl e
  | inr a => f a
  end.

(** [for x in l: acc = f acc x], stopping at the first exception. *)
Fixpoint for_each {A S} (f : S → A → exc S) (l : list A) (acc : S) : exc S :=
  match l with
  | [] => ret acc
  | x :: l => bind (f acc x) (for_each f l)
  end.

(** [d[k]] on a dict keyed by values. *)
Definition getitem (d : gmap pyval pyval) (k : pyval) : exc pyval :=
  match d !! k with
  | Some v => ret v
  | None => raise (KeyError k)
  end.

(** [a + b] on strings. *)
Definition str_add (a b : pyval) : exc pyval :=
  match a, b with
  | VStr a, VStr b => ret (VStr (a +:+ b))
  | _, _ => raise TypeError
  end.

End Exc.

(** * The dependent-record copiers: [_copy_files],
      [_copy_assessment_items], [_copy_tags] *)

Module Dependents.
Import Clone Exc.

#[local] Notation "'let*' x := y 'in' z" := (bind y (λ x, z))
  (at level 10, x name, y at level 100, z at level 200, only parsing).

(** The columns of the dependent records that the copiers read or write;
    everything else a record carries is in its [..._data]. *)
Record file := File {
  file_id : pyval;
  file_contentnode_id : pyval;
  file_assessment_item_id : pyval;
  file_data : gmap string pyval
}.

Record assessment_item := AssessmentItem {
  item_id : pyval;
  item_contentnode_id : pyval;
  item_assessment_id : pyval;
  item_data : gmap string pyval
}.

Record content_tag := ContentTag {
  tag_id : pyval;
  tag_name : pyval;
  tag_channel_id : pyval
}.

(** A row of [ContentNode.tags.through]. *)
Record tag_mapping := TagMapping {
  contenttag_id : pyval;
  contentnode_id : pyval
}.

Record tables := Tables {
  files : list file;
  assessment_items : list assessment_item;
  content_tags : list content_tag;
  tag_mappings : list tag_mapping
}.

(** The filter on the node column that [_parse_filter_kwargs] selects:
    one node, or a collection of nodes. *)
Definition _parse_filter_kwargs (contentnode : option node)
    (contentnode__in : option (list node)) : exc (pyval → bool) :=
  match contentnode, contentnode__in with
  | Some n, _ => ret (λ id_, bool_decide (id_ = pk n))
  | None, Some ns => ret (λ id_, bool_decide (id_ ∈ pk <$> ns))
  | None, None => raise (ValueError "Must specify one of contentnode or contentnode__in")
  end.

(** Returns the rows handed to [File.objects.bulk_create]. *)
Definition _copy_files (T : tables) (source_copy_id_map : gmap pyval pyval)
    (contentnode : option node) (contentnode__in : option (list node))
    : exc (list file) :=
  let* sel := _parse_filter_kwargs contentnode contentnode__in in
  let node_files := filter (λ f, sel (file_contentnode_id f) = true) (files T) in
  for_each
    (λ done f,
       let* new_id := getitem source_copy_id_map (file_contentnode_id f) in
       ret (done ++ [File VNone new_id (file_assessment_item_id f) (file_data f)]))
    node_files [].

(** [bulk_create] of assessment items returns them with their new
    primary keys; [new_pk i] is the key the data base gives the i-th. *)
Definition bulk_create_items (new_pk : nat → pyval) (l : list assessment_item)
    : list assessment_item :=
  imap (λ i a, AssessmentItem (new_pk i) (item_contentnode_id a)
                 (item_assessment_id a) (item_data a)) l.

(** Returns the assessment items created and the files handed to
    [File.objects.bulk_create]. *)
Definition _copy_assessment_items (T : tables) (new_pk : nat → pyval)
    (source_copy_id_map : gmap pyval pyval)
    (contentnode : option node) (contentnode__in : option (list node))
    : exc (list assessment_item * list file) :=
  let* sel := _parse_filter_kwargs contentnode contentnode__in in
  let node_assessmentitems :=
    filter (λ a, sel (item_contentnode_id a) = true) (assessment_items T) in
  let node_assessmentitem_files :=
    filter (λ f, file_assessment_item_id f ∈ item_id <$> node_assessmentitems)
           (files T) in
  let* created :=
    for_each
      (λ '(done, lookup) a,
         let old_id := item_id a in
         let* new_node := getitem source_copy_id_map (item_contentnode_id a) in
         let* prefix := str_add new_node (VStr ":") in
         let* key := str_add prefix (item_assessment_id a) in
         ret (done ++ [AssessmentItem VNone new_node (item_assessment_id a) (item_data a)],
              <[key := old_id]> lookup))
      node_assessmentitems (([], ∅) : list assessment_item * gmap pyval pyval) in
  let '(items, assessmentitem_old_id_lookup) := created in
  let node_assessmentitems := bulk_create_items new_pk items in
  let* assessmentitem_new_id_lookup :=
    for_each
      (λ lookup a,
         let* prefix := str_add (item_contentnode_id a) (VStr ":") in
         let* key := str_add prefix (item_assessment_id a) in
         let* old_id := getitem assessmentitem_old_id_lookup key in
         ret (<[old_id := item_id a]> lookup))
      node_assessmentitems (∅ : gmap pyval pyval) in
  let* new_files :=
    for_each
      (λ done f,
         let* new_item := getitem assessmentitem_new_id_lookup (file_assessment_item_id f) in
         ret (done ++ [File VNone (file_contentnode_id f) new_item (file_data f)]))
      node_assessmentitem_files [] in
  ret (node_assessmentitems, new_files).

(** [ContentTag.objects.filter(tagged_content..., channel__isnull=False)]:
    the join of the tags with the selected mappings. *)
Definition tags_to_copy (T : tables) (sel : pyval → bool) : list content_tag :=
  t ← content_tags T;
  m ← tag_mappings T;
  if bool_decide (contenttag_id m = tag_id t) && sel (contentnode_id m)
     && negb (bool_decide (tag_channel_id t = VNone))
  then [t] else [].

(** The lookup of the tags without a channel that already carry one of
    the names to copy. *)
Definition existing_tags (T : tables) (to_copy : list content_tag)
    : gmap pyval pyval :=
  foldl (λ lookup t, <[tag_name t := tag_id t]> lookup) ∅
    (filter (λ t, bool_decide (tag_name t ∈ tag_name <$> to_copy)
                  && bool_decide (tag_channel_id t = VNone) = true)
            (content_tags T)).

(** The [for tag in tags_to_copy] loop: the tags to create, the map from
    old to new tag ids, and the identifiers drawn. *)
Definition plan_tags (uuid : uuids) (existing_tags_lookup : gmap pyval pyval)
    (to_copy : list content_tag) (c : nat)
    : list content_tag * gmap pyval pyval * nat :=
  foldl
    (λ (acc : list content_tag * gmap pyval pyval * nat) tag,
       let '(tags_to_create, tag_id_map, c) := acc in
       match existing_tags_lookup !! tag_name tag with
       | Some existing => (tags_to_create, <[tag_id tag := existing]> tag_id_map, c)
       | None =>
           let new_tag := ContentTag (VStr (uuid c)) (tag_name tag) VNone in
           (tags_to_create ++ [new_tag],
            <[tag_id tag := tag_id new_tag]> tag_id_map, S c)
       end)
    ([], ∅, c) to_copy.

(** Returns the tags and the mappings handed to the two [bulk_create]s,
    and the number of identifiers drawn. *)
Definition _copy_tags (T : tables) (uuid : uuids) (c : nat)
    (source_copy_id_map : gmap pyval pyval)
    (contentnode : option node) (contentnode__in : option (list node))
    : exc (list content_tag * list tag_mapping * nat) :=
  let* sel := _parse_filter_kwargs contentnode contentnode__in in
  let node_tags_mappings :=
    filter (λ m, sel (contentnode_id m) = true) (tag_mappings T) in
  let tags_to_copy := tags_to_copy T sel in
  let existing_tags_lookup := existing_tags T tags_to_copy in
  let '(tags_to_create, tag_id_map, c) :=
    plan_tags uuid existing_tags_lookup tags_to_copy c in
  let mappings_to_create :=
    (λ mapping,
       TagMapping
         (default (contenttag_id mapping) (tag_id_map !! contenttag_id mapping))
         (default VNone (source_copy_id_map !! contentnode_id mapping)))
      <$> node_tags_mappings in
  ret (tags_to_create, mappings_to_create, c).

End Dependents.

(** * Moving a node: [move_node] *)

Module Move.
Import Lock.

(** A call that reaches the data base and may fail there. *)
Definition call (fn : string) : gen :=
  Stmt (ECall fn) (λ r, match r with None => Return | Some e => Raise e end).

(** [target] is a node or [None]; reading [target.tree_id] of [None]
    raises before [lock_mptt] is entered. *)
Definition move_node (m : model) (node : Clone.node) (target : option Clone.node)
    (position : string) : gen :=
  match target with
  | None => Raise (AttributeError "tree_id")
  | Some target =>
      seq (with_ (lock_mptt m [Some (Clone.tree_id node); Some (Clone.tree_id target)])
             (seq (call "_mptt_refresh")
                  (seq (call "_move_node") (call "save"))))
          (Emit (ESignal "node_moved") Return)
  end.

End Move.

(** * The [ContentNode] table and the mptt operations on it *)

Module Store.
Import Clone.

(** What the copy operations do, in order, as an observer of the manager
    sees it. *)
Inductive call :=
| CSetTotal (n : Z)
| CIncrementProgress (n : Z)
| CLockMptt (tree_ids : list (option Z))
| CDeepCopy (source target : pyval) (position : string)
| CShallowCopy (source target : pyval) (position : string)
| CCopyAssociated (source_copy_id_map : gmap pyval pyval)
                  (contentnode : option pyval) (contentnode__in : option (list pyval)).

Record state := State {
  rows : list node;        (* the ContentNode table, all trees *)
  next_tree_id : Z;        (* the sequence behind MPTTTreeIDManager *)
  next_uuid : nat;         (* how many identifiers uuid4 has given out *)
  calls : list call        (* the calls made so far, oldest first *)
}.

(** A computation on the table: a value and a new state, an exception and
    the state it left, or a recursion cut short by the fuel. *)
Inductive res (A : Type) :=
| Ok (a : A) (s : state)
| Err (e : exn) (s : state)
| OutOfFuel.
Arguments Ok {A} a s.
Arguments Err {A} e s.
Arguments OutOfFuel {A}.

Definition M (A : Type) : Type := state → res A.

Definition ret {A} (a : A) : M A := λ s, Ok a s.
Definition raise {A} (e : exn) : M A := λ s, Err e s.
Definition bind {A B} (x : M A) (f : A → M B) : M B :=
  λ s, match x s with
       | Ok a s => f a s
       | Err e s => Err e s
       | OutOfFuel => OutOfFuel
       end.
Definition get : M state := λ s, Ok s s.
Definition modify (f : state → state) : M unit := λ s, Ok () (f s).
Definition record (c : call) : M unit :=
  modify (λ s, State (rows s) (next_tree_id s) (next_uuid s) (calls s ++ [c])).
Definition set_rows (f : list node → list node) : M unit :=
  modify (λ s, State (f (rows s)) (next_tree_id s) (next_uuid s) (calls s)).

(** [for x in l: body x]. *)
Fixpoint for_ {A} (l : list A) (body : A → M unit) : M unit :=
  match l with
  | [] => ret ()
  | x :: l => bind (body x) (λ _, for_ l body)
  end.

(** ** Reading the table *)

Definition with_attr (k : string) (v : pyval) (n : node) : node :=
  Node (<[k := v]> (attrs n)) (tree_id n) (level n) (lft n) (rght n).

Definition parent_id (n : node) : pyval := attr n "parent_id".
Definition node_id (n : node) : pyval := attr n "node_id".
Definition kind_id (n : node) : pyval := attr n "kind_id".

(** mptt's [is_leaf_node()]: [not self.get_descendant_count()], the count
    being [(rght - lft - 1) // 2]. *)
Definition is_leaf_node (n : node) : bool := ((rght n - lft n - 1) `div` 2 =? 0).

Definition lft_le (a b : node) : Prop := lft a ≤ lft b.

#[global] Instance lft_le_dec : RelDecision lft_le.
Proof. intros a b. unfold lft_le. apply _. Defined.

(** [.order_by("lft")], and [sorted(..., key=lambda x: x.lft)]. *)
Definition order_by_lft (l : list node) : list node := merge_sort lft_le l.

(** mptt's [node.get_children()]: the rows whose parent is [n], none at
    all for a leaf; [_copy] orders them by [lft]. *)
Definition get_children (table : list node) (n : node) : list node :=
  if is_leaf_node n then []
  else filter (λ r, parent_id r = pk n) table.

(** The nested-set test behind mptt's [get_descendants(include_self=True)]:
    [r] is in the tree of [n] and starts inside the interval of [n]. *)
Definition under (n r : node) : bool :=
  bool_decide (tree_id r = tree_id n) && (lft n <=? lft r) && (lft r <=? rght n).

(** [node.get_descendants(include_self=True)]; for a leaf mptt filters on
    the primary key instead. *)
Definition get_descendants (table : list node) (n : node) : list node :=
  if is_leaf_node n then filter (λ r, pk r = pk n) table
  else filter (λ r, under n r = true) table.

(** [queryset.get_descendants(include_self=True)] for the rows [roots]. *)
Definition get_queryset_descendants (table roots : list node) : list node :=
  filter (λ r, Exists (λ n, under n r = true) roots) table.

(** [queryset.difference(other)]. *)
Definition difference (l other : list node) : list node :=
  filter (λ r, r ∉ other) l.

(** The keys of [excluded_descendants], a dict or [None]; the dict is
    false when empty. *)
Definition excluded (excluded_descendants : option (list pyval)) : option (list pyval) :=
  match excluded_descendants with
  | Some (k :: keys) => Some (k :: keys)
  | _ => None
  end.

(** ** Writing the table *)

(** [MPTTTreeIDManager.objects.create().id]. *)
Definition _get_next_tree_id : M Z :=
  λ s, Ok (next_tree_id s)
          (State (rows s) (next_tree_id s + 1) (next_uuid s) (calls s)).

(** [uuid.uuid4().hex]. *)
Definition uuid4 (uuid : uuids) : M pyval :=
  λ s, Ok (VStr (uuid (next_uuid s)))
          (State (rows s) (next_tree_id s) (S (next_uuid s)) (calls s)).

Definition shift (size space_target : Z) (x : Z) : Z :=
  if space_target <? x then x + size else x.

(** What [_create_space] does to one row. *)
Definition moved (size space_target tree : Z) (r : node) : node :=
  if bool_decide (tree_id r = tree)
  then Node (attrs r) (tree_id r) (level r)
            (shift size space_target (lft r)) (shift size space_target (rght r))
  else r.

(** mptt's [_create_space(size, space_target, tree_id)]: every [lft] and
    [rght] of the tree beyond [space_target] moves up by [size]. *)
Definition _create_space (size space_target tree : Z) : M unit :=
  set_rows (fmap (moved size space_target tree)).

(** [_create_tree_space(target_tree_id)]: the guard of the manager, then
    mptt's, which moves every tree beyond [target_tree_id] up by one. *)
Definition _create_tree_space (target_tree_id : Z) : M unit :=
  if bool_decide (target_tree_id = -1) then
    raise (PyException "ERROR: Calling _create_tree_space with -1! Something is attempting to sort all MPTT trees root nodes!")
  else
    set_rows (fmap (λ r,
      if target_tree_id <? tree_id r
      then Node (attrs r) (tree_id r + 1) (level r) (lft r) (rght r)
      else r)).

(** The row of the table with primary key [id_], as a dict comprehension
    over the result set finds it: the last one. *)
Definition lookup_pk (table : list node) (id_ : pyval) : option node :=
  last (filter (λ r, pk r = id_) table).

(** [_mptt_refresh(node)] for one node: the mptt columns are read again
    from the table. *)
Definition _mptt_refresh (n : node) : M node :=
  if truthy (pk n) then
    bind get (λ s,
      match lookup_pk (rows s) (pk n) with
      | Some r => ret (Node (attrs n) (tree_id r) (level r) (lft r) (rght r))
      | None => raise (KeyError (pk n))
      end)
  else ret n.

(** mptt's [insert_node(node, target, position, save=False)] followed by
    [node.save(force_insert=True)], for a node built from [data]: the
    node becomes a new tree, a new root tree beside a root, or a leaf at
    the position asked for, for which room is made first. *)
Definition insert_node (data : gmap string pyval) (target : option node)
    (position : string) : M node :=
  bind get (λ s,
  if truthy (item data "id")
     && bool_decide (Exists (λ r, pk r = item data "id") (rows s))
  then raise (ValueError "Cannot insert a node which has already been saved.")
  else
    bind
      match target with
      | None =>
          bind _get_next_tree_id (λ tree,
          ret (Node (<["parent_id" := VNone]> data) tree 0 1 2))
      | Some target =>
          if bool_decide (parent_id target = VNone)
             && bool_decide (position = "left" ∨ position = "right")
          then
            let '(tree, space_target) :=
              if bool_decide (position = "left")
              then (tree_id target, tree_id target - 1)
              else (tree_id target + 1, tree_id target) in
            bind (_create_tree_space space_target) (λ _,
            ret (Node (<["parent_id" := VNone]> data) tree 0 1 2))
          else
            let '(space_target, level_, parent) :=
              if bool_decide (position = "last-child")
              then (rght target - 1, level target + 1, pk target)
              else if bool_decide (position = "first-child")
              then (lft target, level target + 1, pk target)
              else if bool_decide (position = "left")
              then (lft target - 1, level target, parent_id target)
              else (rght target, level target, parent_id target) in
            if bool_decide (position = "last-child" ∨ position = "first-child"
                            ∨ position = "left" ∨ position = "right")
            then
              bind (_create_space 2 space_target (tree_id target)) (λ _,
              ret (Node (<["parent_id" := parent]> data) (tree_id target) level_
                        (space_target + 1) (space_target + 2)))
            else raise (ValueError "An invalid position was given.")
      end
      (λ n, bind (set_rows (λ table, table ++ [n])) (λ _, ret n))).

(** What [update(changed=True)] on the rows with key [id_] does to one
    row. *)
Definition marked (id_ : pyval) (r : node) : node :=
  if bool_decide (pk r = id_) then with_attr "changed" (VBool true) r else r.

(** [self.filter(pk=target.pk).update(changed=True)]. *)
Definition mark_changed (target : node) : M unit :=
  set_rows (fmap (marked (pk target))).

End Store.

(** * The layout pass: [build_tree_nodes] *)

Module Layout.
Import Clone Store.

(** The nested dicts that [_recurse_to_create_tree] builds: the fields of
    a clone and, under the key [children], the clones of its children (no
    key standing for no children). *)
Inductive ctree := CTree (data : gmap string pyval) (children : list ctree).

Definition data_of (t : ctree) : gmap string pyval :=
  match t with CTree data _ => data end.
Definition children_of (t : ctree) : list ctree :=
  match t with CTree _ children => children end.

(** An instance on the stack of [treeify]: [rght] stays unset until the
    children are laid out. *)
Record inst := Inst {
  i_attrs : gmap string pyval;
  i_tree_id : Z;
  i_level : Z;
  i_lft : Z;
  i_rght : option Z
}.

Definition set_rght (cursor : Z) (n : inst) : inst :=
  Inst (i_attrs n) (i_tree_id n) (i_level n) (i_lft n) (Some cursor).

(** The closure [treeify] of [build_tree_nodes].  [stack.append(node)]
    puts the node at index [length stack]; the [setattr] of [rght] after
    the loop reaches it there. *)
Fixpoint treeify (tree : Z) (data : ctree) (cursor level_ : Z) (stack : list inst)
    : Z * list inst :=
  match data with
  | CTree data children =>
      let at_ := length stack in
      let stack := stack ++ [Inst data tree level_ cursor None] in
      let '(cursor, stack) :=
        foldl (λ '(cursor, stack) child,
                 treeify tree child (cursor + 1) (level_ + 1) stack)
              (cursor, stack) children in
      let cursor := cursor + 1 in
      (cursor, alter (set_rght cursor) at_ stack)
  end.

#[local] Notation "'let*' x := y 'in' z" := (bind y (λ x, z))
  (at level 10, x name, y at level 100, z at level 200, only parsing).

Definition build_tree_nodes (data : ctree) (target : option node)
    (position : string) : M (list inst) :=
  let* placed :=
    match target with
    | Some target =>
        let tree := tree_id target in
        if bool_decide (position = "left" ∨ position = "right") then
          let level_ := level target in
          if bool_decide (position = "left")
          then ret (tree, lft target, level_)
          else ret (tree, rght target + 1, level_)
        else
          let level_ := level target + 1 in
          if bool_decide (position = "first-child")
          then ret (tree, lft target + 1, level_)
          else ret (tree, rght target, level_)
    | None =>
        let* tree := _get_next_tree_id in
        ret (tree, 1, 0)
    end in
  let '(tree, cursor, level_) := placed in
  let stack := (treeify tree data cursor level_ []).2 in
  let* _ :=
    match target with
    | Some _ => _create_space (2 * Z.of_nat (length stack)) (cursor - 1) tree
    | None => ret ()
    end in
  ret stack.

(** [self.bulk_create(nodes_to_create)]: the instances become rows; a
    missing [rght] violates the column's NOT NULL. *)
Definition to_row (n : inst) : option node :=
  r ← i_rght n; Some (Node (i_attrs n) (i_tree_id n) (i_level n) (i_lft n) r).

Definition bulk_create (nodes : list inst) : M (list node) :=
  match mapM to_row nodes with
  | Some new => let* _ := set_rows (λ table, table ++ new) in ret new
  | None => raise IntegrityError
  end.

End Layout.

(** * The copy orchestrator: [copy_node], [_copy], [_deep_copy],
      [_shallow_copy] *)

Module Copy.
Import Clone Store Layout.

#[local] Notation "'let*' x := y 'in' z" := (bind y (λ x, z))
  (at level 10, x name, y at level 100, z at level 200, only parsing).

Definition BATCH_SIZE : Z := 100.

(** [le_utils.constants.content_kinds.TOPIC]. *)
Definition TOPIC : pyval := VStr "topic".

Section manager.

Variable methods_ : methods.
Variable uuid : uuids.

(** [_clone_node], drawing its identifiers from the state. *)
Definition clone_node (source : node)
    (parent_id source_channel_id can_edit_source_channel pk_ : pyval)
    (mods : option (gmap string pyval)) : M (gmap string pyval) :=
  λ s,
    let '(copy, c) :=
      _clone_node methods_ uuid source parent_id source_channel_id
                  can_edit_source_channel pk_ mods (next_uuid s) in
    Ok copy (State (rows s) (next_tree_id s) c (calls s)).

(** The loop of [_deep_copy] that groups the nodes to copy by parent. *)
Definition group_by_parent (nodes_to_copy : list node) : gmap pyval (list node) :=
  foldl (λ nodes_by_parent copy_node,
           <[parent_id copy_node :=
               default [] (nodes_by_parent !! parent_id copy_node) ++ [copy_node]]>
             nodes_by_parent)
        ∅ nodes_to_copy.

(** [list(map(f, children))] for an [f] that updates the id map. *)
Fixpoint map_children (f : node → gmap pyval pyval → M (ctree * gmap pyval pyval))
    (children : list node) (source_copy_id_map : gmap pyval pyval)
    : M (list ctree * gmap pyval pyval) :=
  match children with
  | [] => ret ([], source_copy_id_map)
  | x :: children =>
      let* r := f x source_copy_id_map in
      let* rs := map_children f children r.2 in
      ret (r.1 :: rs.1, rs.2)
  end.

(** The clone tree of [source], and the id map with the sources cloned
    added to it. *)
Fixpoint _recurse_to_create_tree (fuel : nat) (source : node)
    (parent_id source_channel_id : pyval)
    (nodes_by_parent : gmap pyval (list node))
    (source_copy_id_map : gmap pyval pyval)
    (can_edit_source_channel pk_ : pyval) (mods : option (gmap string pyval))
    : M (ctree * gmap pyval pyval) :=
  match fuel with
  | O => λ _, OutOfFuel
  | S fuel =>
      let* copy := clone_node source parent_id source_channel_id
                              can_edit_source_channel pk_ mods in
      let* r :=
        match nodes_by_parent !! pk source with
        | Some l =>
            if bool_decide (kind_id source = TOPIC) then
              let children := order_by_lft l in
              map_children
                (λ x source_copy_id_map,
                   _recurse_to_create_tree fuel x (item copy "id")
                     source_channel_id nodes_by_parent source_copy_id_map
                     can_edit_source_channel VNone None)
                children source_copy_id_map
            else ret ([], source_copy_id_map)
        | None => ret ([], source_copy_id_map)
        end in
      ret (CTree copy r.1, <[pk source := item copy "id"]> r.2)
  end.

(** [self.filter(node_id__in=excluded_descendants.keys())]. *)
Definition with_node_id_in (keys : list pyval) (table : list node) : list node :=
  filter (λ r, node_id r ∈ keys) table.

Definition _all_nodes_to_copy (n : node) (excluded_descendants : option (list pyval))
    : M (list node) :=
  let* s := get in
  let nodes_to_copy := get_descendants (rows s) n in
  match excluded excluded_descendants with
  | Some keys =>
      let excluded_descendants :=
        get_queryset_descendants (rows s) (with_node_id_in keys (rows s)) in
      ret (difference nodes_to_copy excluded_descendants)
  | None => ret nodes_to_copy
  end.

(** [target.tree_id if target else None], and the same for [target.id]. *)
Definition tree_id_of (target : option node) : option Z := tree_id <$> target.
Definition id_of (target : option node) : pyval :=
  match target with Some target => pk target | None => VNone end.

(** [if target: self._mptt_refresh(target)]; the target the rest of the
    critical section sees. *)
Definition refresh (target : option node) : M (option node) :=
  match target with
  | Some target => let* target := _mptt_refresh target in ret (Some target)
  | None => ret None
  end.

Definition _shallow_copy (n : node) (target : option node) (position : string)
    (source_channel_id pk_ : pyval) (mods : option (gmap string pyval))
    (can_edit_source_channel : pyval) : M node :=
  let* _ := record (CShallowCopy (pk n) (id_of target) position) in
  let* data := clone_node n VNone source_channel_id can_edit_source_channel pk_ mods in
  let* _ := record (CLockMptt [tree_id_of target]) in
  let* target := refresh target in
  let* node_copy := insert_node data target position in
  let* _ := record (CCopyAssociated {[ pk n := pk node_copy ]} (Some (pk n)) None) in
  let* _ := record (CIncrementProgress 1) in
  ret node_copy.

Definition _deep_copy (fuel : nat) (n : node) (target : option node)
    (position : string) (source_channel_id pk_ : pyval)
    (mods : option (gmap string pyval))
    (excluded_descendants : option (list pyval))
    (can_edit_source_channel : pyval) : M (list node) :=
  let* _ := record (CDeepCopy (pk n) (id_of target) position) in
  let* nodes_to_copy := _all_nodes_to_copy n excluded_descendants in
  let nodes_by_parent := group_by_parent nodes_to_copy in
  let* r := _recurse_to_create_tree fuel n (id_of target) source_channel_id
              nodes_by_parent ∅ can_edit_source_channel pk_ mods in
  let '(data, source_copy_id_map) := r in
  let* _ := record (CLockMptt [tree_id_of target]) in
  let* target' := refresh target in
  let* nodes_to_create := build_tree_nodes data target' position in
  let* new_nodes := bulk_create nodes_to_create in
  let* _ := match target with
            | Some target => mark_changed target
            | None => ret ()
            end in
  let* _ := record (CCopyAssociated source_copy_id_map None
                      (Some (pk <$> nodes_to_copy))) in
  let* _ := record (CIncrementProgress (Z.of_nat (length nodes_to_copy))) in
  ret new_nodes.

(** [node.get_children().order_by("lft")], less the children whose
    [node_id] is a key of [excluded_descendants]. *)
Definition children_to_copy (table : list node) (n : node)
    (excluded_descendants : option (list pyval)) : list node :=
  let children := order_by_lft (get_children table n) in
  match excluded excluded_descendants with
  | Some keys => filter (λ r, node_id r ∉ keys) children
  | None => children
  end.

Fixpoint _copy (fuel : nat) (n : node) (target : option node) (position : string)
    (source_channel_id pk_ : pyval) (mods : option (gmap string pyval))
    (excluded_descendants : option (list pyval))
    (can_edit_source_channel : pyval) (batch_size : Z) : M (list node) :=
  match fuel with
  | O => λ _, OutOfFuel
  | S fuel =>
      if rght n - lft n <? batch_size then
        _deep_copy fuel n target position source_channel_id pk_ mods
                   excluded_descendants can_edit_source_channel
      else
        let* node_copy := _shallow_copy n target position source_channel_id pk_ mods
                                        can_edit_source_channel in
        let* s := get in
        let children := children_to_copy (rows s) n excluded_descendants in
        let* _ :=
          for_ children (λ child,
            let* _ := _copy fuel child (Some node_copy) "last-child"
                        source_channel_id VNone None excluded_descendants
                        can_edit_source_channel batch_size in
            ret ()) in
        ret [node_copy]
  end.

Definition copy_node (fuel : nat) (n : node) (target : option node)
    (position : string) (pk_ : pyval) (mods : option (gmap string pyval))
    (excluded_descendants : option (list pyval))
    (can_edit_source_channel : pyval) (batch_size : option Z) : M (list node) :=
  let batch_size := default BATCH_SIZE batch_size in
  let source_channel_id := get_channel_id methods_ n in
  let* nodes := _all_nodes_to_copy n excluded_descendants in
  let total_nodes := Z.of_nat (length nodes) in
  let* _ := record (CSetTotal total_nodes) in
  _copy fuel n target position source_channel_id pk_ mods excluded_descendants
        can_edit_source_channel batch_size.

End manager.

End Copy.

(** * Refreshing several nodes at once: [_mptt_refresh] *)

Module Refresh.
Import Clone Store.

(** The dict comprehension over
    [self.filter(id__in=ids).values("id", lft, rght, level, tree_id)]:
    the row of each key, the last one if there were several. *)
Definition values_lookup (table : list node) (ids : list pyval) : gmap pyval node :=
  foldl (λ d r, <[pk r := r]> d) ∅ (filter (λ r, pk r ∈ ids) table).

(** The loop that sets the values on each of the nodes; in Python the
    nodes are updated in place, here the updated nodes are returned. *)
Fixpoint set_values (lookup : gmap pyval node) (nodes : list node) : M (list node) :=
  match nodes with
  | [] => ret []
  | n :: nodes =>
      if truthy (pk n) then
        match lookup !! pk n with
        | Some r =>
            bind (set_values lookup nodes) (λ rest,
            ret (Node (attrs n) (tree_id r) (level r) (lft r) (rght r) :: rest))
        | None => raise (KeyError (pk n))
        end
      else bind (set_values lookup nodes) (λ rest, ret (n :: rest))
  end.

(** [_mptt_refresh( *nodes)]. *)
Definition _mptt_refresh (nodes : list node) : M (list node) :=
  let ids := filter (λ id_, truthy id_ = true) (pk <$> nodes) in
  if bool_decide (ids = []) then ret nodes
  else bind get (λ s, set_values (values_lookup (rows s) ids) nodes).

End Refresh.
(** * Properties of the tree lock manager *)

Module LockProps.
Import Lock.

Definition selects (tree_ids : list Z) (values : list string) : list event :=
  (λ t, ESelectForUpdate t values) <$> tree_ids.

Definition before (t : list event) (r : result) : result :=
  Result (t ++ trace r) (ending r) (rest r).

Definition katomic : option exn → gen :=
  λ r, match r with
       | None => Emit EAtomicCommit Return
       | Some e => Emit EAtomicRollback (Raise e)
       end.

Definition tail_ : gen := seq yield_ (Emit ELogLockTime Return).

Lemma before_nil r : before [] r = r.
Proof. by destruct r. Qed.

Lemma before_app t1 t2 r : before (t1 ++ t2) r = before t1 (before t2 r).
Proof. unfold before; simpl. by rewrite app_assoc. Qed.

Lemma before_cons ev t r : before (ev :: t) r = after ev (before t r).
Proof. done. Qed.

Section context.
Variable F : gen → gen.
Hypothesis F_stmt : ∀ ev k, F (Stmt ev k) = Stmt ev (λ r, F (k r)).

Lemma run_locks_ok tids v g s :
  run (F (seq (lock_each tids v) g)) (replicate (length tids) None ++ s)
  = before (selects tids v) (run (F g) s).
Proof.
  induction tids as [|t tids IH].
  - by rewrite before_nil.
  - cbn [lock_each select_for_update seq]. rewrite F_stmt.
    cbn [run length replicate app hd tl seq]. rewrite IH.
    by rewrite <- before_cons.
Qed.

Lemma run_locks_fail tids v g j e s :
  (j < length tids)%nat →
  run (F (seq (lock_each tids v) g)) (replicate j None ++ Some e :: s)
  = before (selects (take (S j) tids) v) (run (F (Raise e)) s).
Proof.
  revert j. induction tids as [|t tids IH]; intros j Hj; simpl in Hj; [lia|].
  cbn [lock_each select_for_update seq]. rewrite F_stmt.
  destruct j as [|j]; cbn [run length replicate app hd tl seq].
  - reflexivity.
  - rewrite IH by lia. by rewrite <- before_cons.
Qed.
End context.

(** What the suspended [lock_mptt] does when the caller's block ends,
    once the locks are held inside a [try] with handler [h]. *)
Definition held (h : exn → gen) : option exn → gen :=
  λ r, match r with
       | None => Emit ELogLockTime (Emit EAtomicCommit Return)
       | Some e => Emit EAtomicRollback (h e)
       end.

(** The three contexts in which [_attempt_lock]'s loop runs. *)
Definition first_try (h : exn → gen) (body g : gen) : gen :=
  with_ (try_except (with_ (run_block katomic g) yield_) h) body.
Definition retry_enter (body g : gen) : gen :=
  with_ (with_ (run_block katomic g) yield_) body.
Definition retry_exit (g : gen) : gen :=
  exit_throw (with_ (run_block katomic g) yield_).

Lemma run_block_ext k1 k2 body s :
  (∀ r, k1 r = k2 r) → run (run_block k1 body) s = run (run_block k2 body) s.
Proof.
  intros Hk. revert s.
  induction body as [| | ev b IH | ev b IH | b IH]; intros s; simpl.
  - by rewrite Hk.
  - by rewrite Hk.
  - by rewrite IH.
  - by rewrite IH.
  - done.
Qed.

Lemma try_except_raise g s : run (try_except g Raise) s = run g s.
Proof.
  revert s. induction g as [| | ev b IH | ev b IH | b IH]; intros s; simpl; try done.
  - by rewrite IH.
  - by rewrite IH.
Qed.

Lemma first_try_tail h body s :
  run (first_try h body tail_) s = run (run_block (held h) body) s.
Proof.
  unfold first_try, tail_. cbn [seq yield_ run_block with_ try_except].
  apply run_block_ext. by intros [e|].
Qed.

Lemma retry_enter_tail body s :
  run (retry_enter body tail_) s = run (run_block (held Raise) body) s.
Proof.
  unfold retry_enter, tail_. cbn [seq yield_ run_block with_].
  apply run_block_ext. by intros [e|].
Qed.

(** How the caller's block, run on its own, decides the run of the block
    under a suspended context manager. *)
Lemma run_run_block k body s :
  run (run_block k body) s =
  before (trace (run body s))
    match ending (run body s) with
    | Done => run (exit_clean (k None)) (rest (run body s))
    | Failed e => run (exit_throw (k (Some e))) (rest (run body s))
    | Suspended => Result [] Suspended (rest (run body s))
    end.
Proof.
  revert s. induction body as [| | ev b IH | ev b IH | b IH]; intros s;
    cbn [run run_block trace ending rest after].
  - by rewrite before_nil.
  - by rewrite before_nil.
  - rewrite IH. by rewrite before_cons.
  - rewrite IH. by rewrite before_cons.
  - done.
Qed.


(** ** Normalisation of the tree ids *)

Lemma NoDup_omap_id {A} (l : list (option A)) : NoDup l → NoDup (omap id l).
Proof.
  induction 1 as [|x l Hx Hl IH]; simpl; [constructor|].
  destruct x as [a|]; simpl; [|done].
  constructor; [|done].
  rewrite list_elem_of_omap. intros ([b|] & Hb & Heq); simplify_eq/=. done.
Qed.

Lemma normalize_elem_of ids t : t ∈ normalize ids ↔ Some t ∈ ids.
Proof.
  unfold normalize. rewrite merge_sort_Permutation, list_elem_of_omap. split.
  - intros ([b|] & Hb & Heq); simplify_eq/=. set_solver.
  - intros Ht. exists (Some t). set_solver.
Qed.

Lemma normalize_NoDup ids : NoDup (normalize ids).
Proof.
  unfold normalize. rewrite merge_sort_Permutation.
  apply NoDup_omap_id, NoDup_elements.
Qed.

Lemma normalize_Sorted ids : Sorted Z.le (normalize ids).
Proof. apply (Sorted_merge_sort Z.le). Qed.

Lemma Sorted_le_NoDup_lt (l : list Z) :
  Sorted Z.le l → NoDup l → StronglySorted Z.lt l.
Proof.
  intros Hs Hn. apply Sorted_StronglySorted in Hs; [|apply _].
  induction Hs as [|x l Hs IH Hx]; [constructor|].
  apply NoDup_cons in Hn as [Hx' Hn]. constructor; [by apply IH|].
  rewrite Forall_forall in Hx |- *. intros y Hy.
  assert (x ≠ y) by (intros ->; done). specialize (Hx y Hy). lia.
Qed.

Lemma normalize_same_set ids1 ids2 :
  (∀ t, Some t ∈ ids1 ↔ Some t ∈ ids2) → normalize ids1 = normalize ids2.
Proof.
  intros Hset. apply (Sorted_unique Z.le); try apply normalize_Sorted.
  apply NoDup_Permutation; try apply normalize_NoDup.
  intros t. by rewrite !normalize_elem_of.
Qed.

(** ** Runs of [lock_mptt] *)

Definition retry (m : model) (ids : list (option Z)) : gen :=
  with_ (_attempt_lock (normalize ids) (lock_values m)) yield_.

Lemma lock_mptt_locking m ids :
  locking m (normalize ids) = true →
  lock_mptt m ids = try_except (retry m ids) (on_error (retry m ids)).
Proof. unfold lock_mptt. by intros ->. Qed.

Lemma run_with_lock_mptt m ids body s :
  locking m (normalize ids) = true →
  run (with_ (lock_mptt m ids) body) s
  = after EAtomicEnter
      (run (first_try (on_error (retry m ids)) body
              (seq (lock_each (normalize ids) (lock_values m)) tail_)) s).
Proof. intros Hl. by rewrite lock_mptt_locking. Qed.

Lemma run_with_retry m ids body s :
  run (with_ (retry m ids) body) s
  = after EAtomicEnter
      (run (retry_enter body (seq (lock_each (normalize ids) (lock_values m)) tail_)) s).
Proof. done. Qed.

(** "Fails with a deadlock condition": an [OperationalError] whose
    message contains [deadlock detected]. *)
Definition is_deadlock (e : exn) : bool :=
  match e with
  | OperationalError (VStr msg :: _) => contains "deadlock detected" msg
  | _ => false
  end.

(** What reaches the caller for a failure that is not a deadlock: the
    exception itself, unless reading [e.args[0]] fails first. *)
Definition reraised (e : exn) : exn :=
  match e with
  | OperationalError [] => IndexError
  | OperationalError (VStr _ :: _) => e
  | OperationalError (_ :: _) => TypeError
  | _ => e
  end.

Lemma on_error_other g e : is_deadlock e = false → on_error g e = Raise (reraised e).
Proof.
  destruct e as [args| | | | | | | |]; try done.
  destruct args as [|[| | |msg] args]; try done. simpl. by intros ->.
Qed.

Lemma on_error_deadlock g e :
  is_deadlock e = true → on_error g e = Emit (ELogError deadlock_msg) g.
Proof.
  destruct e as [args| | | | | | | |]; try done.
  destruct args as [|[| | |msg] args]; try done. simpl. by intros ->.
Qed.

Definition failed_attempt (m : model) (ids : list (option Z)) (j : nat) : list event :=
  EAtomicEnter :: selects (take (S j) (normalize ids)) (lock_values m) ++ [EAtomicRollback].

Lemma run_retry_fail m ids body j e s :
  (j < length (normalize ids))%nat →
  run (with_ (retry m ids) body) (replicate j None ++ Some e :: s)
  = Result (failed_attempt m ids j) (Failed e) s.
Proof.
  intros Hj. rewrite run_with_retry.
  rewrite (run_locks_fail (retry_enter body)) by done.
  unfold failed_attempt, before, after. simpl. done.
Qed.

Lemma run_retry_ok m ids body s :
  run (with_ (retry m ids) body) (replicate (length (normalize ids)) None ++ s)
  = before (EAtomicEnter :: selects (normalize ids) (lock_values m))
      (run (run_block (held Raise) body) s).
Proof.
  rewrite run_with_retry.
  rewrite (run_locks_ok (retry_enter body)) by done.
  by rewrite retry_enter_tail.
Qed.

Lemma run_first_fail m ids body j e s :
  locking m (normalize ids) = true →
  (j < length (normalize ids))%nat →
  run (with_ (lock_mptt m ids) body) (replicate j None ++ Some e :: s)
  = before (failed_attempt m ids j)
      (run (with_ (on_error (retry m ids) e) body) s).
Proof.
  intros Hl Hj. rewrite run_with_lock_mptt by done.
  rewrite (run_locks_fail (first_try _ body)) by done.
  unfold failed_attempt, before, after. simpl.
  rewrite <- app_assoc. done.
Qed.

Lemma run_first_ok m ids body s :
  locking m (normalize ids) = true →
  run (with_ (lock_mptt m ids) body) (replicate (length (normalize ids)) None ++ s)
  = before (EAtomicEnter :: selects (normalize ids) (lock_values m))
      (run (run_block (held (on_error (retry m ids))) body) s).
Proof.
  intros Hl. rewrite run_with_lock_mptt by done.
  rewrite (run_locks_ok (first_try _ body)) by done.
  by rewrite first_try_tail.
Qed.


(** ** How often the caller's block is entered *)

(** The caller's block announces itself with [EBody 0]. *)
Definition entries (t : list event) : nat :=
  length (filter (λ ev, ev = EBody 0%nat) t).

(** Code that never enters the caller's block. *)
Fixpoint quiet (g : gen) : Prop :=
  match g with
  | Return | Raise _ => True
  | Emit ev k => ev ≠ EBody 0%nat ∧ quiet k
  | Stmt ev k => ev ≠ EBody 0%nat ∧ ∀ r, quiet (k r)
  | Yield k => ∀ r, quiet (k r)
  end.

(** Code that enters the caller's block at most once. *)
Fixpoint once (g : gen) : Prop :=
  match g with
  | Return | Raise _ => True
  | Emit ev k => if decide (ev = EBody 0%nat) then quiet k else once k
  | Stmt ev k => ∀ r, if decide (ev = EBody 0%nat) then quiet (k r) else once (k r)
  | Yield k => ∀ r, once (k r)
  end.

Lemma quiet_once g : quiet g → once g.
Proof.
  induction g as [| | ev k IH | ev k IH | k IH]; simpl; try done.
  - intros [? ?]. case_decide; [done|auto].
  - intros [? Hk] r. case_decide; [done|auto].
  - auto.
Qed.

Lemma quiet_seq g1 g2 : quiet g1 → quiet g2 → quiet (seq g1 g2).
Proof.
  induction g1 as [| | ev k IH | ev k IH | k IH]; simpl; try done; naive_solver.
Qed.

Lemma quiet_try_except g h : quiet g → (∀ e, quiet (h e)) → quiet (try_except g h).
Proof.
  induction g as [| | ev k IH | ev k IH | k IH]; simpl; try done; naive_solver.
Qed.

Lemma quiet_exit_clean g : quiet g → quiet (exit_clean g).
Proof.
  induction g as [| | ev k IH | ev k IH | k IH]; simpl; try done; naive_solver.
Qed.

Lemma quiet_exit_throw g : quiet g → quiet (exit_throw g).
Proof.
  induction g as [| | ev k IH | ev k IH | k IH]; simpl; try done; naive_solver.
Qed.

Lemma quiet_run_block k body :
  (∀ r, quiet (k r)) → quiet body → quiet (run_block k body).
Proof.
  intros Hk.
  induction body as [| | ev b IH | ev b IH | b IH]; simpl;
    auto using quiet_exit_clean, quiet_exit_throw; naive_solver.
Qed.

Lemma quiet_with cm body : quiet cm → quiet body → quiet (with_ cm body).
Proof.
  intros Hcm Hb.
  induction cm as [| | ev k IH | ev k IH | k IH]; simpl in *; try done;
    try naive_solver.
  by apply quiet_run_block.
Qed.

Lemma once_run_block k body :
  (∀ r, quiet (k r)) → once body → once (run_block k body).
Proof.
  intros Hk.
  induction body as [| | ev b IH | ev b IH | b IH]; simpl.
  - intros _. apply quiet_once, quiet_exit_clean, Hk.
  - intros _. apply quiet_once, quiet_exit_throw, Hk.
  - case_decide; [by apply quiet_run_block | done].
  - intros Hb r. specialize (Hb r).
    case_decide; [by apply quiet_run_block | auto].
  - auto.
Qed.

Lemma once_with cm body : quiet cm → once body → once (with_ cm body).
Proof.
  intros Hcm Hb.
  induction cm as [| | ev k IH | ev k IH | k IH]; simpl in *; try done.
  - destruct Hcm. by case_decide; auto.
  - destruct Hcm as [? Hk]. intros r. case_decide; [done|auto].
  - by apply once_run_block.
Qed.

Lemma quiet_lock_each tids v : quiet (lock_each tids v).
Proof. induction tids; simpl; [done|]. split; [done|]. by intros [e|]. Qed.

Lemma quiet_attempt_lock tids v : quiet (_attempt_lock tids v).
Proof.
  unfold _attempt_lock. apply quiet_with.
  - split; [done|]. by intros [e|].
  - apply quiet_seq; [apply quiet_lock_each|]. simpl. by intros [e|].
Qed.

Lemma quiet_yield : quiet yield_.
Proof. by intros [e|]. Qed.

Lemma quiet_lock_mptt m ids : quiet (lock_mptt m ids).
Proof.
  unfold lock_mptt. destruct (locking _ _); [|apply quiet_yield].
  assert (quiet (with_ (_attempt_lock (normalize ids) (lock_values m)) yield_)) as Hq
    by auto using quiet_with, quiet_attempt_lock, quiet_yield.
  apply quiet_try_except; [done|].
  intros [args| | | | | | | |]; try done.
  destruct args as [|[| | |msg] args]; try done.
  simpl. by destruct (contains _ _).
Qed.

Lemma entries_quiet g s : quiet g → entries (trace (run g s)) = 0%nat.
Proof.
  revert s. induction g as [| | ev k IH | ev k IH | k IH]; simpl; try done.
  - intros s [Hev Hk]. unfold entries. rewrite filter_cons_False by done. by apply IH.
  - intros s [Hev Hk]. unfold entries. rewrite filter_cons_False by done. by apply IH.
Qed.

Lemma entries_once g s : once g → (entries (trace (run g s)) ≤ 1)%nat.
Proof.
  revert s. induction g as [| | ev k IH | ev k IH | k IH]; simpl;
    try (intros; unfold entries; simpl; lia).
  - intros s Hk. unfold entries. case_decide.
    + rewrite filter_cons_True by done. simpl.
      pose proof (entries_quiet k s Hk) as Hq. unfold entries in Hq. lia.
    + rewrite filter_cons_False by done. by apply IH.
  - intros s Hk. specialize (Hk (hd None s)). unfold entries. case_decide.
    + rewrite filter_cons_True by done. simpl.
      pose proof (entries_quiet _ (tl s) Hk) as Hq. unfold entries in Hq. lia.
    + rewrite filter_cons_False by done. by apply IH.
Qed.


Lemma run_exit_throw_retry m ids s :
  run (exit_throw (retry m ids)) (replicate (length (normalize ids)) None ++ s)
  = Result (EAtomicEnter :: selects (normalize ids) (lock_values m))
      (Failed (RuntimeError "generator didn't stop after throw()")) s.
Proof.
  change (exit_throw (retry m ids))
    with (Emit EAtomicEnter
            (retry_exit (seq (lock_each (normalize ids) (lock_values m)) tail_))).
  cbn [run]. rewrite (run_locks_ok retry_exit) by done.
  unfold before, after. simpl. by rewrite app_nil_r.
Qed.

Lemma run_first_deadlock m ids body j e s :
  locking m (normalize ids) = true →
  (j < length (normalize ids))%nat →
  is_deadlock e = true →
  run (with_ (lock_mptt m ids) body) (replicate j None ++ Some e :: s)
  = before (failed_attempt m ids j ++ [ELogError deadlock_msg])
      (run (with_ (retry m ids) body) s).
Proof.
  intros Hl Hj He. rewrite run_first_fail, on_error_deadlock by done.
  change (with_ (Emit (ELogError deadlock_msg) (retry m ids)) body)
    with (Emit (ELogError deadlock_msg) (with_ (retry m ids) body)).
  cbn [run]. by rewrite before_app.
Qed.

Ltac same_result :=
  unfold before, after, failed_attempt; simpl;
  rewrite <- ?app_assoc; simpl; rewrite ?app_nil_r; done.

(** ** The claims about the lock manager *)

Definition studio_model : model :=
  {| _mptt_is_tracking := false; _mptt_updates_enabled := true;
     tree_id_attr := "tree_id"; left_attr := "lft"; right_attr := "rght";
     level_attr := "level"; parent_attr := "parent" |}.

Definition deadlock : exn :=
  OperationalError [VStr "deadlock detected"].

(** C2: when locking is attempted and a lock statement of the first
    attempt fails, a failure that is not a deadlock reaches the caller at
    once, the transaction rolled back and nothing retried; a deadlock is
    logged and followed by exactly one more attempt in a fresh
    transaction, which has no handler of its own: if one of its lock
    statements fails, whatever the failure, that failure reaches the
    caller, and if they succeed the caller's block runs under it. *)
Theorem lock_mptt_retries_deadlock_once m ids body j e s :
  locking m (normalize ids) = true →
  (j < length (normalize ids))%nat →
  let r := run (with_ (lock_mptt m ids) body) (replicate j None ++ Some e :: s) in
  (is_deadlock e = false →
   r = Result (failed_attempt m ids j) (Failed (reraised e)) s)
  ∧ (is_deadlock e = true →
     r = before (failed_attempt m ids j ++ [ELogError deadlock_msg])
           (run (with_ (with_ (_attempt_lock (normalize ids) (lock_values m)) yield_)
                   body) s)
     ∧ (∀ j2 e2 s2,
          (j2 < length (normalize ids))%nat →
          s = replicate j2 None ++ Some e2 :: s2 →
          r = Result (failed_attempt m ids j ++
                      ELogError deadlock_msg :: failed_attempt m ids j2)
                (Failed e2) s2)
     ∧ (∀ s2,
          s = replicate (length (normalize ids)) None ++ s2 →
          r = before (failed_attempt m ids j ++
                      ELogError deadlock_msg :: EAtomicEnter ::
                      selects (normalize ids) (lock_values m))
                (run (run_block (held Raise) body) s2))).
Proof.
  intros Hl Hj r. subst r. split.
  - intros He. rewrite run_first_fail, on_error_other by done. same_result.
  - intros He. rewrite run_first_deadlock by done. split; [|split].
    + unfold retry. same_result.
    + intros j2 e2 s2 Hj2 ->. rewrite run_retry_fail by done. same_result.
    + intros s2 ->. rewrite run_retry_ok. same_result.
Qed.

Lemma lock_mptt_retries_deadlock_once_witness :
  run (with_ (lock_mptt studio_model [Some 3; None; Some 1]) (Emit (EBody 0) Return))
      [None; Some deadlock; Some deadlock]
  = Result
      (failed_attempt studio_model [Some 3; None; Some 1] 1 ++
       ELogError deadlock_msg :: failed_attempt studio_model [Some 3; None; Some 1] 0)
      (Failed deadlock) [].
Proof.
  destruct (lock_mptt_retries_deadlock_once studio_model [Some 3; None; Some 1]
              (Emit (EBody 0) Return) 1 deadlock [Some deadlock]) as [_ Hd].
  - reflexivity.
  - vm_compute. lia.
  - destruct (Hd eq_refl) as (_ & Hfail & _).
    apply (Hfail 0%nat deadlock []).
    + vm_compute. lia.
    + reflexivity.
Defined.

(** C3: the tree ids are deduplicated, stripped of [None] and sorted
    ascending, the lock statements are sent in exactly that order, and two
    argument lists with the same ids other than [None] give the same
    normalised list, hence the same [lock_mptt] and the same sequence of
    lock statements. *)
Theorem lock_mptt_lock_order m ids1 ids2 :
  (∀ t, Some t ∈ ids1 ↔ Some t ∈ ids2) →
  StronglySorted Z.lt (normalize ids1)
  ∧ (∀ t, t ∈ normalize ids1 ↔ Some t ∈ ids1)
  ∧ normalize ids1 = normalize ids2
  ∧ lock_mptt m ids1 = lock_mptt m ids2
  ∧ (locking m (normalize ids1) = true →
     ∀ body s,
       run (with_ (lock_mptt m ids2) body)
           (replicate (length (normalize ids1)) None ++ s)
       = before (EAtomicEnter :: selects (normalize ids1) (lock_values m))
           (run (run_block (held (on_error (retry m ids1))) body) s)).
Proof.
  intros Hset.
  assert (normalize ids1 = normalize ids2) as Heq by by apply normalize_same_set.
  assert (lock_mptt m ids1 = lock_mptt m ids2) as Hlock.
  { unfold lock_mptt. by rewrite Heq. }
  split; [|split; [|split; [|split]]]; try done.
  - apply Sorted_le_NoDup_lt; [apply normalize_Sorted | apply normalize_NoDup].
  - apply normalize_elem_of.
  - intros Hl body s. rewrite <- Hlock. by apply run_first_ok.
Qed.

Lemma lock_mptt_lock_order_witness :
  normalize [Some 3; None; Some 1; Some 3] = normalize [Some 1; Some 3].
Proof.
  apply (lock_mptt_lock_order studio_model).
  intros t. rewrite !elem_of_cons, !elem_of_nil. naive_solver.
Defined.




End LockProps.

(** * Properties of the node cloner *)

Module CloneProps.
Import Clone.

Lemma backfill_lookup_other M source copy k :
  k ≠ "original_channel_id" → k ≠ "original_source_node_id" →
  backfill M source copy !! k = copy !! k.
Proof.
  intros H1 H2. unfold backfill.
  repeat case_match; by rewrite ?lookup_insert_ne.
Qed.

Lemma backfill_lookup_set M source copy k v :
  copy !! k = Some v → v ≠ VNone → backfill M source copy !! k = Some v.
Proof.
  intros Hk Hv.
  destruct (decide (k = "original_channel_id")) as [->|H1];
    [|destruct (decide (k = "original_source_node_id")) as [->|H2]].
  - unfold backfill, item. rewrite Hk. simpl.
    rewrite (bool_decide_eq_false_2 (v = VNone)) by done. simpl.
    repeat case_match; by rewrite ?lookup_insert_ne.
  - unfold backfill.
    destruct (bool_decide (item copy "original_channel_id" = VNone)) eqn:Hc; simpl.
    + unfold item at 1 2. rewrite !lookup_insert_ne, Hk by done. simpl.
      by rewrite (bool_decide_eq_false_2 (v = VNone)), lookup_insert_ne.
    + unfold item. rewrite Hk. simpl.
      by rewrite (bool_decide_eq_false_2 (v = VNone)).
  - by rewrite backfill_lookup_other.
Qed.

Lemma backfill_channel M source copy :
  copy !! "original_channel_id" = Some VNone →
  backfill M source copy !! "original_channel_id"
  = Some (default VNone (get_channel M (get_original_node M source))).
Proof.
  intros Hk.
  assert (item copy "original_channel_id" = VNone) as Hi
    by (unfold item; by rewrite Hk).
  unfold backfill. rewrite !(bool_decide_eq_true_2 _ Hi). simpl.
  case_match; [rewrite lookup_insert_ne by done|];
    rewrite lookup_insert_eq; by destruct (get_channel _ _).
Qed.

Lemma backfill_source_node M source copy :
  copy !! "original_source_node_id" = Some VNone →
  backfill M source copy !! "original_source_node_id"
  = Some (attr (get_original_node M source) "node_id").
Proof.
  intros Hk.
  assert (∀ x, item (<["original_channel_id" := x]> copy)
                 "original_source_node_id" = VNone) as Hi1
    by (intros x; unfold item; by rewrite lookup_insert_ne, Hk).
  assert (item copy "original_source_node_id" = VNone) as Hi2
    by (unfold item; by rewrite Hk).
  unfold backfill. rewrite !(bool_decide_eq_true_2 _ Hi2).
  rewrite orb_true_r.
  destruct (bool_decide (item copy "original_channel_id" = VNone)).
  - rewrite !(bool_decide_eq_true_2 _ (Hi1 _)). by rewrite lookup_insert_eq.
  - rewrite !(bool_decide_eq_true_2 _ Hi2). by rewrite lookup_insert_eq.
Qed.

Lemma clone_node_mods M uuid source parent_id sc ce pk_ mods c :
  (_clone_node M uuid source parent_id sc ce pk_ (Some mods) c).1
  = backfill M source
      (update (update (clone_defaults uuid source parent_id sc ce pk_ c).1
                      (get_source_attributes source)) mods).
Proof.
  unfold _clone_node. by destruct (clone_defaults _ _ _ _ _ _ _).
Qed.

Lemma update_lookup d other k v : other !! k = Some v → update d other !! k = Some v.
Proof. intros Hk. unfold update. by apply lookup_union_Some_l. Qed.

(** C9, as the code has it: the overrides are applied after every default
    and every copied source attribute, and the clone carries the
    override's value for every key the overrides bind, except that an
    override of [None] for [original_channel_id] or
    [original_source_node_id] is replaced by the legacy back-fill, which
    reads the value from the original node. *)
Theorem clone_node_overrides_win M uuid source parent_id sc ce pk_ mods c k v :
  mods !! k = Some v →
  let copy := (_clone_node M uuid source parent_id sc ce pk_ (Some mods) c).1 in
  (v ≠ VNone ∨ (k ≠ "original_channel_id" ∧ k ≠ "original_source_node_id") →
   copy !! k = Some v)
  ∧ (v = VNone → k = "original_channel_id" →
     copy !! k = Some (default VNone (get_channel M (get_original_node M source))))
  ∧ (v = VNone → k = "original_source_node_id" →
     copy !! k = Some (attr (get_original_node M source) "node_id")).
Proof.
  intros Hk copy. subst copy. rewrite clone_node_mods.
  pose proof (update_lookup
    (update (clone_defaults uuid source parent_id sc ce pk_ c).1
            (get_source_attributes source)) mods k v Hk) as Hu.
  split; [|split].
  - intros [Hv|[H1 H2]].
    + by apply backfill_lookup_set.
    + by rewrite backfill_lookup_other.
  - intros -> ->. by apply backfill_channel.
  - intros -> ->. by apply backfill_source_node.
Qed.

Definition sample_methods : methods :=
  {| get_original_node := λ n, Node {[ "node_id" := VStr "n0" ]} 1 0 1 2;
     get_channel := λ _, Some (VStr "channel-a");
     get_channel_id := λ _, VStr "channel-b" |}.

Definition mods_none : gmap string pyval := {[ "original_channel_id" := VNone ]}.

Definition sample_uuid : uuids := λ n, pretty n.

Definition sample_source : node :=
  Node (list_to_map [("id", VStr "s1"); ("node_id", VStr "n1");
                     ("title", VStr "Fractions"); ("kind_id", VStr "topic");
                     ("original_channel_id", VStr "channel-o");
                     ("original_source_node_id", VStr "n0")])
       7 0 1 2.

Lemma clone_node_overrides_win_witness :
  (_clone_node sample_methods sample_uuid sample_source VNone (VStr "channel-b")
     (VBool true) VNone (Some {[ "title" := VStr "Renamed" ]}) 0).1 !! "title"
  = Some (VStr "Renamed").
Proof.
  apply (clone_node_overrides_win sample_methods sample_uuid sample_source
           VNone (VStr "channel-b") (VBool true) VNone
           {[ "title" := VStr "Renamed" ]} 0 "title" (VStr "Renamed")).
  - reflexivity.
  - left. discriminate.
Defined.

(** C9 as stated fails: an override of [None] for [original_channel_id]
    does not reach the clone. *)
Lemma clone_node_override_none_lost :
  mods_none !! "original_channel_id" = Some VNone
  ∧ (_clone_node sample_methods sample_uuid sample_source VNone (VStr "channel-b")
       (VBool true) VNone (Some mods_none) 0).1 !! "original_channel_id"
    = Some (VStr "channel-a").
Proof. split; vm_compute; reflexivity. Qed.

End CloneProps.

(** * Properties of the dependent-record copiers *)

Module DependentsProps.
Import Clone Exc Dependents.

(** The loop of [_copy_files] raises [KeyError] at the first file whose
    node is not in the map. *)
Lemma copy_files_loop_missing (m : gmap pyval pyval) (l : list file) acc :
  Exists (λ f, m !! file_contentnode_id f = None) l →
  ∃ k, m !! k = None ∧
       for_each
         (λ done f,
            bind (getitem m (file_contentnode_id f))
              (λ new_id, ret (done ++ [File VNone new_id (file_assessment_item_id f)
                                         (file_data f)])))
         l acc = raise (KeyError k).
Proof.
  intros Hex. revert acc. induction l as [|f l IH]; intros acc.
  { by apply Exists_nil in Hex. }
  simpl. unfold getitem at 1.
  destruct (m !! file_contentnode_id f) as [v|] eqn:Hf; simpl.
  - apply Exists_cons in Hex as [Hex|Hex]; [congruence|]. by apply IH.
  - by exists (file_contentnode_id f).
Qed.

Lemma copy_files_missing_raises T m contentnode contentnode__in sel f :
  _parse_filter_kwargs contentnode contentnode__in = ret sel →
  f ∈ files T → sel (file_contentnode_id f) = true →
  m !! file_contentnode_id f = None →
  ∃ k, m !! k = None ∧
       _copy_files T m contentnode contentnode__in = raise (KeyError k).
Proof.
  intros Hsel Hf Hs Hm. unfold _copy_files. rewrite Hsel. simpl.
  apply copy_files_loop_missing, Exists_exists. exists f. split; [|done].
  by apply list_elem_of_filter.
Qed.

(** [_copy_tags] raises only when no node selector is given: a node that
    is missing from the map gives a mapping whose node is [None]. *)
Lemma copy_tags_missing_not_raised T uuid c m contentnode contentnode__in sel tm :
  _parse_filter_kwargs contentnode contentnode__in = ret sel →
  tm ∈ tag_mappings T → sel (contentnode_id tm) = true →
  m !! contentnode_id tm = None →
  ∃ tags mappings c',
    _copy_tags T uuid c m contentnode contentnode__in = ret (tags, mappings, c')
    ∧ ∃ tm', tm' ∈ mappings ∧ contentnode_id tm' = VNone.
Proof.
  intros Hsel Htm Hs Hm. unfold _copy_tags. rewrite Hsel. simpl.
  destruct (plan_tags _ _ _ _) as [[tags tag_id_map] c'].
  eexists _, _, _. split; [done|].
  eexists. split.
  - apply list_elem_of_fmap. exists tm. split; [done|].
    by apply list_elem_of_filter.
  - simpl. by rewrite Hm.
Qed.

Definition lesson : node :=
  Node (list_to_map [("id", VStr "s1"); ("node_id", VStr "n1")]) 7 0 1 2.

Definition lesson_tables : tables :=
  {| files := [File (VStr "f1") (VStr "s1") VNone ∅];
     assessment_items := [AssessmentItem (VInt 4) (VStr "s1") (VStr "a1") ∅];
     content_tags := [ContentTag (VStr "t1") (VStr "algebra") (VStr "channel-a")];
     tag_mappings := [TagMapping (VStr "t1") (VStr "s1")] |}.


End DependentsProps.

(** * Properties of [move_node] *)

Module MoveProps.
Import Lock Move.

(** C8 on the code: with no target, [move_node] raises [AttributeError]
    before any lock is taken and before anything is moved, saved or
    signalled. *)
Theorem move_node_without_target_raises m node position script :
  run (move_node m node None position) script
  = Result [] (Failed (AttributeError "tree_id")) script.
Proof. reflexivity. Qed.

End MoveProps.

(** * Properties of the layout pass *)

Module LayoutProps.
Import Clone Store Layout.

Lemma ctree_ind' (P : ctree → Prop) :
  (∀ data children, Forall P children → P (CTree data children)) →
  ∀ t, P t.
Proof.
  intros H. fix IH 1. intros [data children]. apply H.
  induction children as [|c children IHc]; constructor; [apply IH | apply IHc].
Qed.

(** The number of nodes of a clone tree. *)
Fixpoint size (t : ctree) : Z :=
  match t with
  | CTree _ children => 1 + foldr (λ c acc, size c + acc) 0 children
  end.

Definition sizes (children : list ctree) : Z :=
  foldr (λ c acc, size c + acc) 0 children.

Lemma size_pos t : 1 ≤ size t.
Proof.
  induction t as [data children IH] using ctree_ind'. simpl.
  enough (0 ≤ foldr (λ c acc, size c + acc) 0 children) by lia.
  induction IH; simpl; lia.
Qed.

Lemma sizes_nonneg children : 0 ≤ sizes children.
Proof.
  induction children as [|c children IH]; simpl; [lia|].
  pose proof (size_pos c). unfold sizes in *. lia.
Qed.

(** [n] has both coordinates, an odd positive span, and lies in [a..b]. *)
Definition inside (a b : Z) (n : inst) : Prop :=
  ∃ r, i_rght n = Some r ∧ a ≤ i_lft n ∧ i_lft n < r ∧ r ≤ b.

Definition odd_span (n : inst) : Prop :=
  ∃ r k, i_rght n = Some r ∧ 0 ≤ k ∧ r - i_lft n = 2 * k + 1.

(** Two nodes of the stack, [a] before [b]: [b] lies strictly inside [a]
    or wholly to its right; the intervals never overlap in part. *)
Definition apart (a b : inst) : Prop :=
  ∃ ra rb, i_rght a = Some ra ∧ i_rght b = Some rb
           ∧ i_lft a < ra ∧ i_lft b < rb
           ∧ ((i_lft a < i_lft b ∧ rb < ra) ∨ ra < i_lft b).

(** [c] is the root of the layout [part] of a child of [root]. *)
Definition child_of (root : inst) (part : list inst) : Prop :=
  ∃ c rc r, head part = Some c ∧ i_rght c = Some rc ∧ i_rght root = Some r
            ∧ i_level c = i_level root + 1
            ∧ i_lft root < i_lft c ∧ rc < r.

(** The stack as the nested-set layout of a clone tree: the node of the
    root, then the layouts of its children in order. *)
Inductive laid : ctree → list inst → Prop :=
| laid_node data children root parts :
    i_attrs root = data →
    odd_span root →
    (children = [] → i_rght root = Some (i_lft root + 1)) →
    Forall2 laid children parts →
    Forall (child_of root) parts →
    laid (CTree data children) (root :: concat parts).

Lemma ForallOrdPairs_app {A} (R : A → A → Prop) l1 l2 :
  ForallOrdPairs R l1 → ForallOrdPairs R l2 →
  (∀ a b, a ∈ l1 → b ∈ l2 → R a b) →
  ForallOrdPairs R (l1 ++ l2).
Proof.
  intros H1 H2 Hx. induction H1 as [|a l1 Ha H1 IH]; simpl; [done|].
  constructor.
  - apply Forall_app. split; [done|].
    apply Forall_forall. intros b Hb. apply Hx; [left | done].
  - apply IH. intros a' b Ha' Hb. apply Hx; [by right | done].
Qed.

Lemma inside_weaken a b a' b' n : a' ≤ a → b ≤ b' → inside a b n → inside a' b' n.
Proof. intros ?? (r & ? & ? & ? & ?). exists r. repeat split; [done|lia..]. Qed.

(** What [treeify] adds to the stack for one tree laid out at [c]. *)
Record good (tree : Z) (t : ctree) (c l : Z) (new : list inst) : Prop := {
  good_laid : laid t new;
  good_root : ∃ root rest, new = root :: rest ∧ i_lft root = c ∧ i_level root = l
                           ∧ i_rght root = Some (c + 2 * size t - 1);
  good_inside : Forall (inside c (c + 2 * size t - 1)) new;
  good_odd : Forall odd_span new;
  good_apart : ForallOrdPairs apart new;
  good_tree : Forall (λ n, i_tree_id n = tree) new;
  good_length : Z.of_nat (length new) = size t
}.

Definition step (tree level_ : Z) : Z * list inst → ctree → Z * list inst :=
  λ '(cursor, stack) child, treeify tree child (cursor + 1) (level_ + 1) stack.

Lemma treeify_children tree l children :
  Forall (λ t, ∀ c l st, ∃ new,
            treeify tree t c l st = (c + 2 * size t - 1, st ++ new)
            ∧ good tree t c l new) children →
  ∀ c st, ∃ parts,
    foldl (step tree l) (c, st) children = (c + 2 * sizes children, st ++ concat parts)
    ∧ Forall2 laid children parts
    ∧ Forall (λ part, ∃ ch rc, head part = Some ch ∧ i_rght ch = Some rc
                               ∧ i_level ch = l + 1 ∧ c < i_lft ch
                               ∧ rc ≤ c + 2 * sizes children) parts
    ∧ Forall (inside (c + 1) (c + 2 * sizes children)) (concat parts)
    ∧ Forall odd_span (concat parts)
    ∧ ForallOrdPairs apart (concat parts)
    ∧ Forall (λ n, i_tree_id n = tree) (concat parts)
    ∧ Z.of_nat (length (concat parts)) = sizes children.
Proof.
  induction 1 as [|t children Ht _ IH]; intros c st.
  { exists []. simpl. rewrite Z.add_0_r, app_nil_r.
    repeat split; try constructor. }
  destruct (Ht (c + 1) (l + 1) st) as (new & Hnew & G).
  destruct (IH (c + 2 * size t) (st ++ new)) as (parts & Hf & Hl & Hh & Hi & Ho & Ha & Ht' & Hn).
  pose proof (size_pos t) as Hs. pose proof (sizes_nonneg children) as Hss.
  exists (new :: parts). cbn [foldl step concat sizes foldr]. fold (sizes children).
  rewrite Hnew.
  replace (c + 1 + 2 * size t - 1) with (c + 2 * size t) by lia.
  rewrite Hf. split; [f_equal; [lia | by rewrite app_assoc]|].
  destruct G as [Gl (root & rest & -> & Grl & Grv & Grr) Gi Go Ga Gt Gn].
  split; [by constructor|]. split.
  { constructor.
    - exists root, (c + 1 + 2 * size t - 1). simpl. repeat split; try done; lia.
    - eapply Forall_impl; [exact Hh|]. simpl.
      intros part (ch & rc & ? & ? & ? & ? & ?). exists ch, rc.
      repeat split; try done; lia. }
  split.
  { apply Forall_app. split.
    - eapply Forall_impl; [exact Gi|]. intros n. apply inside_weaken; lia.
    - eapply Forall_impl; [exact Hi|]. intros n. apply inside_weaken; lia. }
  split; [by apply Forall_app|]. split.
  { apply ForallOrdPairs_app; [done..|].
    intros a b Ha' Hb.
    rewrite Forall_forall in Gi, Hi.
    destruct (Gi a Ha') as (ra & ? & ? & ? & ?).
    destruct (Hi b Hb) as (rb & ? & ? & ? & ?).
    exists ra, rb. repeat split; try done. right. lia. }
  split; [by apply Forall_app|].
  rewrite length_app. lia.
Qed.

Lemma treeify_good tree t :
  ∀ c l st, ∃ new,
    treeify tree t c l st = (c + 2 * size t - 1, st ++ new) ∧ good tree t c l new.
Proof.
  induction t as [data children IH] using ctree_ind'. intros c l st.
  destruct (treeify_children tree l children IH c (st ++ [Inst data tree l c None]))
    as (parts & Hf & Hl & Hh & Hi & Ho & Ha & Ht & Hn).
  pose proof (sizes_nonneg children) as Hss.
  assert (size (CTree data children) = 1 + sizes children) as Hsize by done.
  exists (Inst data tree l c (Some (c + 2 * sizes children + 1)) :: concat parts).
  cbn [treeify]. fold (step tree l). rewrite Hf, Hsize. split.
  { f_equal; [lia|]. rewrite <- app_assoc.
    replace (length st) with (length st + 0)%nat by lia.
    by rewrite alter_app_r. }
  split.
  - constructor; try done.
    + exists (c + 2 * sizes children + 1), (sizes children).
      cbn [i_rght i_lft]. repeat split; [done|lia].
    + intros ->. cbn [i_rght i_lft sizes foldr]. f_equal. lia.
    + eapply Forall_impl; [exact Hh|]. cbn beta.
      intros part (ch & rc & ? & ? & ? & ? & ?).
      exists ch, rc, (c + 2 * sizes children + 1).
      cbn [i_rght i_lft i_level]. repeat split; try done; lia.
  - eexists _, _. split; [reflexivity|].
    cbn [i_rght i_lft i_level]. rewrite Hsize.
    repeat split. f_equal. lia.
  - rewrite Hsize. constructor.
    + eexists. cbn [i_rght i_lft]. repeat split; lia.
    + eapply Forall_impl; [exact Hi|]. intros n. apply inside_weaken; lia.
  - constructor; [|done].
    exists (c + 2 * sizes children + 1), (sizes children).
    cbn [i_rght i_lft]. repeat split; [done|lia].
  - constructor; [|done].
    eapply Forall_impl; [exact Hi|]. intros n (rn & ? & ? & ? & ?).
    exists (c + 2 * sizes children + 1), rn.
    cbn [i_rght i_lft]. repeat split; try done; lia.
  - by constructor.
  - rewrite Hsize. cbn [length]. lia.
Qed.

(** *** The layout as rows *)

(** The rows of a clone tree laid out at cursor [c] and level [l]. *)
Fixpoint lay (tree : Z) (t : ctree) (c l : Z) : list node :=
  match t with
  | CTree data children =>
      Node data tree l c (c + 2 * size t - 1)
      :: (fix go (ts : list ctree) (c : Z) : list node :=
            match ts with
            | [] => []
            | t :: ts => lay tree t c (l + 1) ++ go ts (c + 2 * size t)
            end) children (c + 1)
  end.

Fixpoint lay_list (tree : Z) (ts : list ctree) (c l : Z) : list node :=
  match ts with
  | [] => []
  | t :: ts => lay tree t c l ++ lay_list tree ts (c + 2 * size t) l
  end.

Lemma lay_eq tree data children c l :
  lay tree (CTree data children) c l
  = Node data tree l c (c + 2 * size (CTree data children) - 1)
    :: lay_list tree children (c + 1) (l + 1).
Proof.
  cbn [lay]. f_equal. generalize (c + 1).
  induction children as [|t ts IH]; intros c'; [done|].
  cbn [lay_list]. by rewrite IH.
Qed.

Definition inst_of (r : node) : inst :=
  Inst (attrs r) (tree_id r) (level r) (lft r) (Some (rght r)).

Lemma treeify_lay_children tree l children :
  Forall (λ t, ∀ c l st,
            treeify tree t c l st
            = (c + 2 * size t - 1, st ++ (inst_of <$> lay tree t c l))) children →
  ∀ c st,
    foldl (step tree l) (c, st) children
    = (c + 2 * sizes children,
       st ++ (inst_of <$> lay_list tree children (c + 1) (l + 1))).
Proof.
  induction 1 as [|t children Ht _ IH]; intros c st.
  { simpl. by rewrite Z.add_0_r, app_nil_r. }
  cbn [foldl step lay_list sizes foldr]. fold (sizes children).
  rewrite Ht.
  replace (c + 1 + 2 * size t - 1) with (c + 2 * size t) by lia.
  rewrite IH. f_equal; [lia|].
  rewrite fmap_app, app_assoc. do 3 f_equal. lia.
Qed.

Lemma treeify_lay tree t :
  ∀ c l st,
    treeify tree t c l st = (c + 2 * size t - 1, st ++ (inst_of <$> lay tree t c l)).
Proof.
  induction t as [data children IH] using ctree_ind'. intros c l st.
  rewrite lay_eq. cbn [treeify]. fold (step tree l).
  rewrite (treeify_lay_children tree l children IH).
  assert (size (CTree data children) = 1 + sizes children) as Hsize by done.
  rewrite Hsize. f_equal; [lia|].
  rewrite <- app_assoc.
  replace (length st) with (length st + 0)%nat by lia.
  rewrite alter_app_r. cbn. unfold set_rght, inst_of. cbn.
  do 4 f_equal. lia.
Qed.

Lemma to_row_inst_of r : to_row (inst_of r) = Some r.
Proof. by destruct r. Qed.

Lemma mapM_to_row rows_ : mapM to_row (inst_of <$> rows_) = Some rows_.
Proof.
  apply mapM_Some. induction rows_ as [|r rows_ IH]; constructor; [|done].
  apply to_row_inst_of.
Qed.

Lemma lay_length tree t c l : Z.of_nat (length (lay tree t c l)) = size t.
Proof.
  pose proof (treeify_lay tree t c l []) as Hl.
  destruct (treeify_good tree t c l []) as (new & Hnew & G).
  rewrite Hl in Hnew. injection Hnew as Hnew. simpl in Hnew. subst new.
  rewrite <- (good_length _ _ _ _ _ G). by rewrite length_fmap.
Qed.

Lemma lay_bounds tree t c l :
  Forall (λ r, tree_id r = tree ∧ c ≤ lft r ∧ lft r < rght r
               ∧ rght r ≤ c + 2 * size t - 1) (lay tree t c l).
Proof.
  pose proof (treeify_lay tree t c l []) as Hl.
  destruct (treeify_good tree t c l []) as (new & Hnew & G).
  rewrite Hl in Hnew. injection Hnew as Hnew. simpl in Hnew. subst new.
  pose proof (good_inside _ _ _ _ _ G) as Hi.
  pose proof (good_tree _ _ _ _ _ G) as Ht.
  rewrite Forall_fmap in Hi, Ht. rewrite Forall_forall in Hi, Ht.
  apply Forall_forall. intros r Hr.
  destruct (Hi r Hr) as (rr & Hrr & ? & ? & ?). simpl in *. simplify_eq.
  split; [by apply Ht|done].
Qed.

Lemma lay_list_bounds tree ts c l :
  Forall (λ r, tree_id r = tree ∧ c ≤ lft r ∧ lft r < rght r
               ∧ rght r ≤ c + 2 * sizes ts - 1) (lay_list tree ts c l).
Proof.
  revert c. induction ts as [|t ts IH]; intros c; [constructor|].
  cbn [lay_list sizes foldr]. fold (sizes ts).
  pose proof (size_pos t). pose proof (sizes_nonneg ts).
  apply Forall_app. split.
  - eapply Forall_impl; [apply lay_bounds|]. intros r (? & ? & ? & ?).
    repeat split; try done; lia.
  - eapply Forall_impl; [apply IH|]. intros r (? & ? & ? & ?).
    repeat split; try done; lia.
Qed.

(** The fields of the nodes of a clone tree, in pre-order. *)
Fixpoint cdata (t : ctree) : list (gmap string pyval) :=
  match t with
  | CTree data children =>
      data :: (fix go (ts : list ctree) : list (gmap string pyval) :=
                 match ts with
                 | [] => []
                 | t :: ts => cdata t ++ go ts
                 end) children
  end.

Fixpoint cdata_list (ts : list ctree) : list (gmap string pyval) :=
  match ts with
  | [] => []
  | t :: ts => cdata t ++ cdata_list ts
  end.

Lemma cdata_eq data children :
  cdata (CTree data children) = data :: cdata_list children.
Proof.
  reflexivity.
Qed.

Lemma lay_attrs tree t : ∀ c l, attrs <$> lay tree t c l = cdata t.
Proof.
  induction t as [data children IH] using ctree_ind'. intros c l.
  rewrite lay_eq, cdata_eq, fmap_cons. cbn [attrs]. f_equal.
  generalize (c + 1) (l + 1). clear c l.
  induction IH as [|t ts Ht _ IHts]; intros c l; [done|].
  cbn [lay_list cdata_list]. by rewrite fmap_app, Ht, IHts.
Qed.

Lemma lay_list_attrs tree ts c l : attrs <$> lay_list tree ts c l = cdata_list ts.
Proof.
  revert c. induction ts as [|t ts IH]; intros c; [done|].
  cbn [lay_list cdata_list]. by rewrite fmap_app, lay_attrs, IH.
Qed.

Lemma cdata_length t : Z.of_nat (length (cdata t)) = size t.
Proof. by rewrite <- (lay_attrs 0 t 0 0), length_fmap, lay_length. Qed.

(** Where [build_tree_nodes] starts the layout. *)
Definition placement (target : option node) (position : string) (s : state)
    : Z * Z * Z :=
  match target with
  | Some target =>
      if bool_decide (position = "left") then (tree_id target, lft target, level target)
      else if bool_decide (position = "right")
      then (tree_id target, rght target + 1, level target)
      else if bool_decide (position = "first-child")
      then (tree_id target, lft target + 1, level target + 1)
      else (tree_id target, rght target, level target + 1)
  | None => (next_tree_id s, 1, 0)
  end.

Lemma build_tree_nodes_treeify data target position s :
  let '(tree, cursor, level_) := placement target position s in
  ∃ s', build_tree_nodes data target position s
        = Ok (treeify tree data cursor level_ []).2 s'.
Proof.
  unfold build_tree_nodes, placement, bind.
  destruct target as [target|]; [|by eexists].
  destruct (decide (position = "left")) as [->|Hl].
  { simpl. by eexists. }
  destruct (decide (position = "right")) as [->|Hr].
  { simpl. by eexists. }
  rewrite (bool_decide_eq_false_2 (position = "left")) by done.
  rewrite (bool_decide_eq_false_2 (position = "right")) by done.
  rewrite (bool_decide_eq_false_2 (position = "left" ∨ position = "right"))
    by (intros [?|?]; done).
  destruct (bool_decide (position = "first-child")); simpl; by eexists.
Qed.

(** The state after [build_tree_nodes]: room made in the target's tree,
    or a tree id drawn. *)
Definition built (data : ctree) (target : option node) (position : string)
    (s : state) : state :=
  match target with
  | Some _ =>
      State (moved (2 * size data) ((placement target position s).1.2 - 1)
                   (placement target position s).1.1 <$> rows s)
            (next_tree_id s) (next_uuid s) (calls s)
  | None => State (rows s) (next_tree_id s + 1) (next_uuid s) (calls s)
  end.

Lemma build_tree_nodes_run data target position s :
  build_tree_nodes data target position s
  = Ok (inst_of <$> lay (placement target position s).1.1 data
                        (placement target position s).1.2
                        (placement target position s).2)
       (built data target position s).
Proof.
  unfold build_tree_nodes, built, placement, bind.
  destruct target as [target|].
  2:{ cbn. by rewrite treeify_lay. }
  assert (∀ tree cursor level_,
    (let '(tree, cursor, level_) := (tree, cursor, level_) in
     let stack := (treeify tree data cursor level_ []).2 in
     match _create_space (2 * Z.of_nat (length stack)) (cursor - 1) tree s with
     | Ok _ s0 => ret stack s0
     | Err e s0 => Err e s0
     | OutOfFuel => OutOfFuel
     end)
    = Ok (inst_of <$> lay tree data cursor level_)
         (State (moved (2 * size data) (cursor - 1) tree <$> rows s)
                (next_tree_id s) (next_uuid s) (calls s))) as H.
  { intros tree cursor level_. cbv zeta. rewrite treeify_lay. cbn.
    by rewrite length_fmap, lay_length. }
  destruct (decide (position = "left")) as [->|Hl].
  { cbn -[treeify]. apply H. }
  destruct (decide (position = "right")) as [->|Hr].
  { cbn -[treeify]. apply H. }
  rewrite (bool_decide_eq_false_2 (position = "left")) by done.
  rewrite (bool_decide_eq_false_2 (position = "right")) by done.
  rewrite (bool_decide_eq_false_2 (position = "left" ∨ position = "right"))
    by (intros [?|?]; done).
  destruct (bool_decide (position = "first-child")); cbn -[treeify]; apply H.
Qed.

(** C5: the stack that [build_tree_nodes] returns is the nested-set
    layout of the clone tree.  Every node has a right coordinate that
    exceeds its left one by a positive odd number, by exactly one for a
    node without children; the root of every child's layout is one level
    below its parent and its interval lies strictly inside the parent's;
    two nodes of the stack are nested or disjoint, never overlapping in
    part; and without a target the root starts a new tree at left 1,
    level 0. *)
Theorem build_tree_nodes_nested_set data target position s :
  ∃ stack s',
    build_tree_nodes data target position s = Ok stack s'
    ∧ laid data stack
    ∧ Forall odd_span stack
    ∧ ForallOrdPairs apart stack
    ∧ Z.of_nat (length stack) = size data
    ∧ ∃ root rest,
        stack = root :: rest
        ∧ (i_tree_id root, i_lft root, i_level root) = placement target position s
        ∧ (target = None → i_lft root = 1 ∧ i_level root = 0).
Proof.
  pose proof (build_tree_nodes_treeify data target position s) as Hb.
  destruct (placement target position s) as [[tree cursor] level_] eqn:Hp.
  destruct Hb as [s' Hb].
  destruct (treeify_good tree data cursor level_ []) as (new & Hnew & G).
  rewrite Hnew in Hb. simpl in Hb.
  destruct G as [Gl (root & rest & -> & Grl & Grv & Grr) Gi Go Ga Gt Gn].
  exists (root :: rest), s'. repeat split; try done.
  exists root, rest. split; [done|]. split.
  - apply Forall_cons in Gt as [-> _]. by rewrite Grl, Grv.
  - intros ->. simpl in Hp. by simplify_eq.
Qed.

End LayoutProps.

(** * Properties of the copy orchestrator *)

Module CopyProps.
Import Clone Store Layout Copy.

(** ** The order by [lft] *)

#[global] Instance lft_le_total : Total lft_le.
Proof. intros a b. unfold lft_le. lia. Qed.

#[global] Instance lft_le_trans : Transitive lft_le.
Proof. intros a b c. unfold lft_le. lia. Qed.

Lemma order_by_lft_sorted l : StronglySorted lft_le (order_by_lft l).
Proof.
  apply Sorted_StronglySorted; [apply _|]. apply (Sorted_merge_sort lft_le).
Qed.

Lemma order_by_lft_perm l : order_by_lft l ≡ₚ l.
Proof. apply merge_sort_Permutation. Qed.

Lemma StronglySorted_filter {A} (R : relation A) (P : A → Prop)
    `{∀ x, Decision (P x)} l :
  StronglySorted R l → StronglySorted R (filter P l).
Proof.
  induction 1 as [|x l Hl IH Hx]; [constructor|].
  rewrite filter_cons. case_decide; [|done].
  constructor; [done|].
  rewrite Forall_forall in Hx |- *. intros y [_ Hy]%list_elem_of_filter. by apply Hx.
Qed.

Lemma children_to_copy_sorted table n excl :
  StronglySorted lft_le (children_to_copy table n excl).
Proof.
  unfold children_to_copy. destruct (excluded excl).
  - apply StronglySorted_filter, order_by_lft_sorted.
  - apply order_by_lft_sorted.
Qed.

Lemma get_children_elem table n c :
  c ∈ get_children table n → c ∈ table ∧ parent_id c = pk n.
Proof.
  unfold get_children. destruct (is_leaf_node n); [by intros ?%elem_of_nil|].
  intros [? ?]%list_elem_of_filter. done.
Qed.

Lemma children_to_copy_elem table n excl c :
  c ∈ children_to_copy table n excl ↔
  c ∈ get_children table n
  ∧ ∀ keys, excluded excl = Some keys → node_id c ∉ keys.
Proof.
  unfold children_to_copy. destruct (excluded excl) as [keys|].
  - rewrite list_elem_of_filter, order_by_lft_perm. split.
    + intros [? ?]. split; [done|]. by intros ? [= <-].
    + intros [? Hk]. split; [by apply Hk | done].
  - rewrite order_by_lft_perm. naive_solver.
Qed.

Section manager.

Variable methods_ : methods.
Variable uuid : uuids.

Abbreviation _copy := (_copy methods_ uuid).
Abbreviation _deep_copy := (_deep_copy methods_ uuid).
Abbreviation _shallow_copy := (_shallow_copy methods_ uuid).
Abbreviation copy_node := (copy_node methods_ uuid).


End manager.

End CopyProps.

(** * The copy of a well-formed subtree into another tree *)

Module CopyCorrect.
Import Clone Store Layout Copy LayoutProps CopyProps.

(** ** Filters *)

Lemma filter_ext_in {A} (P Q : A → Prop) `{∀ x, Decision (P x)}
    `{∀ x, Decision (Q x)} (l : list A) :
  (∀ x, x ∈ l → P x ↔ Q x) → filter P l = filter Q l.
Proof.
  induction l as [|x l IH]; intros Hl; [done|].
  rewrite !filter_cons.
  rewrite IH by (intros y Hy; apply Hl; by right).
  destruct (decide (P x)) as [HP|HP].
  - by rewrite decide_True by (apply Hl; [left|done]).
  - rewrite decide_False; [done|]. intros HQ. apply HP, Hl; [left|done].
Qed.

Lemma filter_all {A} (P : A → Prop) `{∀ x, Decision (P x)} (l : list A) :
  (∀ x, x ∈ l → P x) → filter P l = l.
Proof.
  induction l as [|x l IH]; intros Hl; [done|].
  rewrite filter_cons, decide_True by (apply Hl; left).
  f_equal. apply IH. intros y Hy. apply Hl. by right.
Qed.

Lemma filter_none {A} (P : A → Prop) `{∀ x, Decision (P x)} (l : list A) :
  (∀ x, x ∈ l → ¬ P x) → filter P l = [].
Proof.
  induction l as [|x l IH]; intros Hl; [done|].
  rewrite filter_cons, decide_False by (apply Hl; left).
  apply IH. intros y Hy. apply Hl. by right.
Qed.

Lemma elem_of_concat {A} (ls : list (list A)) x :
  x ∈ concat ls ↔ ∃ l, x ∈ l ∧ l ∈ ls.
Proof.
  induction ls as [|l ls IH]; simpl.
  - split; [by intros ?%elem_of_nil|]. by intros (l & _ & ?%elem_of_nil).
  - rewrite elem_of_app, IH. split.
    + intros [?|(l' & ? & ?)]; [exists l; split; [done|left] |].
      exists l'. split; [done|by right].
    + intros (l' & Hx & [->|?]%elem_of_cons); [by left|]. right. by exists l'.
Qed.

(** ** The source subtree *)

(** The rows of the source subtree, as the tree they form. *)
Inductive stree := STree (n : node) (kids : list stree).

Definition root (x : stree) : node := match x with STree n _ => n end.
Definition kids_of (x : stree) : list stree := match x with STree _ kids => kids end.

Lemma stree_ind' (P : stree → Prop) :
  (∀ n kids, Forall P kids → P (STree n kids)) → ∀ x, P x.
Proof.
  intros H. fix IH 1. intros [n kids]. apply H.
  induction kids as [|k kids IHk]; constructor; [apply IH | apply IHk].
Qed.

Fixpoint flatten (x : stree) : list node :=
  match x with
  | STree n kids => n :: concat (flatten <$> kids)
  end.

Fixpoint depth (x : stree) : nat :=
  match x with
  | STree _ kids => S (foldr (λ k acc, Nat.max (depth k) acc) 0%nat kids)
  end.

(** The keys of [excluded_descendants] that the code looks at. *)
Definition keys_of (excl : option (list pyval)) : list pyval :=
  default [] (excluded excl).

(** [y] lies under a row of the tree whose [node_id] is excluded. *)
Definition exq (trows : list node) (keys : list pyval) (y : node) : Prop :=
  Exists (λ e, node_id e ∈ keys ∧ under e y = true) trows.

#[global] Instance exq_dec trows keys y : Decision (exq trows keys y).
Proof. unfold exq. apply _. Defined.

(** The subtree without the children that are excluded, at every level. *)
Fixpoint prune (keys : list pyval) (x : stree) : stree :=
  match x with
  | STree n kids =>
      STree n
        ((fix go (l : list stree) : list stree :=
            match l with
            | [] => []
            | k :: l =>
                if decide (node_id (root k) ∈ keys) then go l
                else prune keys k :: go l
            end) kids)
  end.

(** The children that the shallow loop visits. *)
Definition kept (keys : list pyval) (kids : list stree) : list stree :=
  filter (λ k, node_id (root k) ∉ keys) kids.

Lemma prune_eq keys n kids :
  prune keys (STree n kids) = STree n (prune keys <$> kept keys kids).
Proof.
  simpl. f_equal. unfold kept.
  induction kids as [|k kids IH]; [done|].
  rewrite filter_cons. destruct (decide (node_id (root k) ∈ keys)).
  - by rewrite decide_False by auto.
  - rewrite decide_True by done. rewrite fmap_cons. by f_equal.
Qed.

Definition lft_lt (a b : node) : Prop := lft a < lft b.

(** The rows [trows] of one tree hold the subtree [x] in nested-set form:
    the parent links and the coordinates tell the same tree. *)
Inductive wf (trows : list node) : stree → Prop :=
| wf_node n kids :
    n ∈ trows →
    lft n ≤ rght n →
    filter (λ r, parent_id r = pk n) trows ≡ₚ root <$> kids →
    StronglySorted lft_lt (root <$> kids) →
    (kids ≠ [] → is_leaf_node n = false ∧ kind_id n = TOPIC) →
    filter (λ y, under n y = true) trows ≡ₚ flatten (STree n kids) →
    Forall (λ k, ∀ e, e ∈ trows → under e (root k) = true →
                      e = root k ∨ under e n = true) kids →
    Forall (wf trows) kids →
    wf trows (STree n kids).

(** The table of a state holds the tree [T] as [trows], and no row of
    another tree has the key of a row of [T] as key or as parent; the
    identifiers still to be drawn are not keys of the table. *)
Record inv (uuid : uuids) (T : Z) (trows : list node) (s : state) : Prop := {
  inv_rows : filter (λ r, tree_id r = T) (rows s) = trows;
  inv_out : ∀ r, r ∈ rows s → tree_id r ≠ T →
                 (pk r ∉ pk <$> trows) ∧ (parent_id r ∉ pk <$> trows);
  inv_fresh : ∀ k r, (next_uuid s ≤ k)%nat → r ∈ rows s → pk r ≠ VStr (uuid k)
}.

Section source.

Variable uuid : uuids.
Variable T : Z.
Variable trows : list node.

Lemma filter_within (P Q : node → Prop) `{∀ x, Decision (P x)} `{∀ x, Decision (Q x)}
    (l : list node) :
  (∀ r, r ∈ l → P r → Q r) → filter P l = filter P (filter Q l).
Proof.
  induction l as [|x l IH]; intros Hl; [done|].
  rewrite !filter_cons. destruct (decide (P x)) as [HP|HP].
  - rewrite decide_True by (apply Hl; [left|done]).
    rewrite filter_cons, decide_True by done.
    f_equal. apply IH. intros r Hr. apply Hl. by right.
  - destruct (decide (Q x)).
    + rewrite filter_cons, decide_False by done.
      apply IH. intros r Hr. apply Hl. by right.
    + apply IH. intros r Hr. apply Hl. by right.
Qed.

Lemma inv_in_tree s r : inv uuid T trows s → r ∈ trows → r ∈ rows s ∧ tree_id r = T.
Proof. intros [<- _ _]. intros [? ?]%list_elem_of_filter. done. Qed.

Lemma inv_filter s (P : node → Prop) `{∀ x, Decision (P x)} :
  inv uuid T trows s →
  (∀ r, r ∈ rows s → P r → tree_id r = T) →
  filter P (rows s) = filter P trows.
Proof.
  intros Hi HP. rewrite <- (inv_rows _ _ _ _ Hi).
  by apply filter_within.
Qed.

Lemma under_tree n r : under n r = true → tree_id r = tree_id n.
Proof.
  unfold under. intros H. apply andb_true_iff in H as [H _].
  apply andb_true_iff in H as [H _]. by apply bool_decide_eq_true in H.
Qed.

Lemma inv_children s n :
  inv uuid T trows s → n ∈ trows →
  get_children (rows s) n = get_children trows n.
Proof.
  intros Hi Hn. unfold get_children. destruct (is_leaf_node n); [done|].
  apply inv_filter; [done|]. intros r Hr Hp.
  destruct (decide (tree_id r = T)) as [|Hne]; [done|].
  destruct (inv_out _ _ _ _ Hi r Hr Hne) as [_ []].
  rewrite Hp. by apply list_elem_of_fmap_2.
Qed.

Lemma inv_descendants s n :
  inv uuid T trows s → n ∈ trows →
  get_descendants (rows s) n = get_descendants trows n.
Proof.
  intros Hi Hn. destruct (inv_in_tree s n Hi Hn) as [_ HT].
  unfold get_descendants. destruct (is_leaf_node n).
  - apply inv_filter; [done|]. intros r Hr Hp.
    destruct (decide (tree_id r = T)) as [|Hne]; [done|].
    destruct (inv_out _ _ _ _ Hi r Hr Hne) as [[] _].
    rewrite Hp. by apply list_elem_of_fmap_2.
  - apply inv_filter; [done|]. intros r Hr Hu. by rewrite (under_tree n r Hu).
Qed.

(** The rows that [_all_nodes_to_copy] selects in the tree. *)
Definition nodes_to_copy (keys : list pyval) (n : node) : list node :=
  filter (λ r, ¬ exq trows keys r) (get_descendants trows n).

Lemma get_descendants_tree n r :
  n ∈ trows → (∀ r, r ∈ trows → tree_id r = T) →
  r ∈ get_descendants trows n → r ∈ trows ∧ tree_id r = T.
Proof.
  intros Hn HT. unfold get_descendants.
  destruct (is_leaf_node n); intros [? ?]%list_elem_of_filter; auto.
Qed.

Lemma all_nodes_to_copy_inv s n excl :
  inv uuid T trows s → n ∈ trows →
  _all_nodes_to_copy n excl s = Ok (nodes_to_copy (keys_of excl) n) s.
Proof.
  intros Hi Hn. unfold _all_nodes_to_copy, bind, get.
  rewrite (inv_descendants s n Hi Hn). unfold nodes_to_copy, keys_of.
  assert (∀ r, r ∈ trows → tree_id r = T) as HT
    by (intros r Hr; by apply (inv_in_tree s r Hi)).
  destruct (excluded excl) as [keys|]; simpl; unfold ret; f_equal.
  - unfold difference. apply filter_ext_in. intros r Hr.
    destruct (get_descendants_tree n r Hn HT Hr) as [Hr' HrT].
    unfold get_queryset_descendants, with_node_id_in, exq.
    rewrite list_elem_of_filter, !Exists_exists.
    split.
    + intros Hne (e & He & Hk & Hu). apply Hne. split.
      * exists e. split; [|done]. apply list_elem_of_filter. split; [done|].
        by apply (inv_in_tree s e Hi).
      * by apply (inv_in_tree s r Hi).
    + intros Hne [(e & [Hk He]%list_elem_of_filter & Hu) _]. apply Hne.
      exists e. split; [|done].
      rewrite <- (inv_rows _ _ _ _ Hi). apply list_elem_of_filter. split; [|done].
      rewrite <- (under_tree e r Hu). done.
  - symmetry. apply filter_all. intros r _.
    unfold exq. rewrite Exists_exists. intros (e & _ & Hk & _).
    by apply elem_of_nil in Hk.
Qed.

(** *** The queries, read on the tree *)

Variable keys : list pyval.
Hypothesis trows_keys : NoDup (pk <$> trows).

Abbreviation exq := (exq trows keys).

Lemma trows_NoDup : NoDup trows.
Proof. by apply (NoDup_fmap_1 pk). Qed.

Lemma under_self n : lft n ≤ rght n → under n n = true.
Proof.
  intros H. unfold under. rewrite bool_decide_eq_true_2 by done. simpl.
  apply andb_true_iff. split; by apply Z.leb_le.
Qed.

Lemma wf_root x : wf trows x → root x ∈ trows ∧ lft (root x) ≤ rght (root x).
Proof. by destruct 1. Qed.

Lemma wf_flatten x y : wf trows x → y ∈ flatten x → y ∈ trows ∧ under (root x) y = true.
Proof.
  destruct 1 as [n kids _ _ _ _ _ Hd _ _]. intros Hy.
  rewrite <- Hd in Hy. apply list_elem_of_filter in Hy. by destruct Hy.
Qed.

Lemma root_flatten x : root x ∈ flatten x.
Proof. destruct x. simpl. left. Qed.

Lemma kid_flatten n kids k y : k ∈ kids → y ∈ flatten k → y ∈ flatten (STree n kids).
Proof.
  intros Hk Hy. simpl. right. apply elem_of_concat.
  exists (flatten k). split; [done|]. by apply list_elem_of_fmap_2.
Qed.

(** Under a node that is not excluded, a child is excluded exactly when
    its own [node_id] is a key. *)
Lemma kid_exq n kids k :
  wf trows (STree n kids) → ¬ exq n → k ∈ kids →
  exq (root k) ↔ node_id (root k) ∈ keys.
Proof.
  intros Hwf Hn Hk. inversion Hwf as [? ? _ _ _ _ _ _ Hup Hkids]; subst.
  rewrite Forall_forall in Hup, Hkids.
  destruct (wf_root k (Hkids k Hk)) as [Hkt Hkl].
  unfold CopyCorrect.exq. rewrite Exists_exists. split.
  - intros (e & He & Hek & Hu).
    destruct (Hup k Hk e He Hu) as [->|Hun]; [done|].
    destruct Hn. apply Exists_exists. by exists e.
  - intros Hkey. exists (root k). by auto using under_self.
Qed.

Lemma dead_flatten k y :
  wf trows k → node_id (root k) ∈ keys → y ∈ flatten k → exq y.
Proof.
  intros Hwf Hkey Hy. destruct (wf_flatten k y Hwf Hy) as [_ Hu].
  apply Exists_exists. exists (root k).
  by destruct (wf_root k Hwf).
Qed.

Lemma prune_flatten x :
  wf trows x → ¬ exq (root x) →
  filter (λ y, ¬ exq y) (flatten x) = flatten (prune keys x).
Proof.
  induction x as [n kids IH] using stree_ind'. intros Hwf Hn.
  rewrite prune_eq. cbn [flatten]. rewrite filter_cons, decide_True by done.
  f_equal.
  assert (∀ k, k ∈ kids → exq (root k) ↔ node_id (root k) ∈ keys) as Hex
    by (intros k Hk; by apply (kid_exq n kids)).
  inversion Hwf as [? ? _ _ _ _ _ _ _ Hkids]; subst. clear Hwf.
  unfold kept.
  induction kids as [|k kids IHk]; [done|].
  apply Forall_cons in IH as [IHk0 IH]. apply Forall_cons in Hkids as [Hk Hkids].
  rewrite fmap_cons. cbn [concat]. rewrite filter_app, filter_cons.
  rewrite IHk by (try done; intros k' Hk'; apply Hex; by right).
  destruct (decide (node_id (root k) ∈ keys)) as [Hin|Hin].
  - rewrite decide_False by auto.
    rewrite filter_none; [done|].
    intros y Hy Hne. apply Hne. by apply (dead_flatten k).
  - rewrite decide_True by done. rewrite !fmap_cons. cbn [concat]. f_equal.
    apply IHk0; [done|]. rewrite Hex by left. done.
Qed.

Lemma filter_key_unique {A B} `{EqDecision B} (f : A → B) (l : list A) x :
  NoDup (f <$> l) → x ∈ l → filter (λ r, f r = f x) l = [x].
Proof.
  induction l as [|y l IH]; intros Hnd Hx; [by apply elem_of_nil in Hx|].
  rewrite fmap_cons in Hnd. apply NoDup_cons in Hnd as [Hy Hnd].
  rewrite filter_cons. apply elem_of_cons in Hx as [->|Hx].
  - rewrite decide_True by done. f_equal.
    apply filter_none. intros r Hr Heq. apply Hy. rewrite <- Heq.
    by apply list_elem_of_fmap_2.
  - rewrite decide_False; [by apply IH|].
    intros Heq. apply Hy. rewrite Heq. by apply list_elem_of_fmap_2.
Qed.

Lemma get_descendants_flatten x :
  wf trows x → get_descendants trows (root x) ≡ₚ flatten x.
Proof.
  destruct 1 as [n kids Hn _ Hc _ Hl Hd _ _]. cbn [root].
  unfold get_descendants. destruct (is_leaf_node n) eqn:Hleaf; [|done].
  destruct kids as [|k kids]; [|by destruct Hl].
  simpl. by rewrite filter_key_unique.
Qed.

Lemma nodes_to_copy_flatten x :
  wf trows x → ¬ exq (root x) →
  nodes_to_copy keys (root x) ≡ₚ flatten (prune keys x).
Proof.
  intros Hwf Hn. unfold nodes_to_copy.
  rewrite (get_descendants_flatten x Hwf). by rewrite prune_flatten.
Qed.

(** *** The children, in the order of [lft] *)

Lemma lft_lt_inj l x y :
  StronglySorted lft_lt l → x ∈ l → y ∈ l → lft x = lft y → x = y.
Proof.
  induction 1 as [|z l Hl IH Hz]; intros Hx Hy Heq; [by apply elem_of_nil in Hx|].
  rewrite Forall_forall in Hz. unfold lft_lt in Hz.
  apply elem_of_cons in Hx as [->|Hx]; apply elem_of_cons in Hy as [->|Hy]; auto.
  - specialize (Hz y Hy). lia.
  - specialize (Hz x Hx). lia.
Qed.

Lemma order_by_lft_unique l l' :
  l ≡ₚ l' → StronglySorted lft_lt l' → order_by_lft l = l'.
Proof.
  intros Hp Hs. apply (StronglySorted_unique_strong lft_le).
  - intros x y Hx Hy H1 H2. rewrite order_by_lft_perm, Hp in Hx.
    apply (lft_lt_inj l'); [done..|]. unfold lft_le in *. lia.
  - apply order_by_lft_sorted.
  - clear Hp. induction Hs as [|z l0 Hl IH Hz]; constructor; [done|].
    eapply Forall_impl; [exact Hz|]. unfold lft_lt, lft_le. intros; lia.
  - by rewrite order_by_lft_perm.
Qed.

Lemma kept_roots kids :
  filter (λ r, node_id r ∉ keys) (root <$> kids) = root <$> kept keys kids.
Proof.
  unfold kept. induction kids as [|k kids IH]; [done|].
  rewrite fmap_cons, !filter_cons. destruct (decide (node_id (root k) ∉ keys)).
  - rewrite fmap_cons. by f_equal.
  - done.
Qed.

Lemma kept_sorted kids :
  StronglySorted lft_lt (root <$> kids) → StronglySorted lft_lt (root <$> kept keys kids).
Proof. intros H. rewrite <- kept_roots. by apply StronglySorted_filter. Qed.

Lemma get_children_roots n kids :
  wf trows (STree n kids) → order_by_lft (get_children trows n) = root <$> kids.
Proof.
  inversion 1 as [? ? _ _ Hc Hs Hl _ _ _]; subst.
  apply order_by_lft_unique; [|done].
  unfold get_children. destruct (is_leaf_node n) eqn:Hleaf; [|done].
  destruct kids as [|k kids]; [done|by destruct Hl].
Qed.

Lemma lft_lt_NoDup l : StronglySorted lft_lt l → NoDup l.
Proof.
  induction 1 as [|z l Hl IH Hz]; constructor; [|done].
  rewrite Forall_forall in Hz. intros Hin. specialize (Hz z Hin).
  unfold lft_lt in Hz. lia.
Qed.

Lemma children_to_copy_kept s n kids excl :
  keys_of excl = keys →
  inv uuid T trows s → wf trows (STree n kids) →
  children_to_copy (rows s) n excl = root <$> kept keys kids.
Proof.
  intros Hk Hi Hwf. unfold children_to_copy.
  assert (n ∈ trows) as Hn by (by inversion Hwf).
  rewrite (inv_children s n Hi Hn), (get_children_roots n kids Hwf).
  unfold keys_of in Hk. destruct (excluded excl) as [keys'|]; simpl in Hk; subst.
  - apply kept_roots.
  - unfold kept. rewrite filter_all; [done|]. intros k _. apply not_elem_of_nil.
Qed.

Lemma group_by_parent_lookup l p :
  default [] (group_by_parent l !! p) = filter (λ r, parent_id r = p) l.
Proof.
  unfold group_by_parent.
  enough (∀ m : gmap pyval (list node),
            default [] (foldl (λ nodes_by_parent copy_node,
                <[parent_id copy_node :=
                    default [] (nodes_by_parent !! parent_id copy_node) ++ [copy_node]]>
                  nodes_by_parent) m l !! p)
            = default [] (m !! p) ++ filter (λ r, parent_id r = p) l) as H
    by (by rewrite H, lookup_empty).
  induction l as [|x l IH]; intros m; simpl.
  - by rewrite filter_nil, app_nil_r.
  - rewrite IH, filter_cons. destruct (decide (parent_id x = p)) as [<-|Hne].
    + rewrite lookup_insert_eq. simpl. by rewrite <- app_assoc.
    + by rewrite lookup_insert_ne.
Qed.

Lemma nodes_to_copy_elem x y :
  wf trows x → y ∈ nodes_to_copy keys (root x) ↔ y ∈ flatten x ∧ ¬ exq y.
Proof.
  intros Hwf. unfold nodes_to_copy.
  rewrite list_elem_of_filter, (get_descendants_flatten x Hwf). tauto.
Qed.

Lemma nodes_to_copy_NoDup n : NoDup (nodes_to_copy keys n).
Proof.
  unfold nodes_to_copy, get_descendants.
  apply NoDup_filter. destruct (is_leaf_node n); apply NoDup_filter, trows_NoDup.
Qed.

(** The children that [_recurse_to_create_tree] finds for a node of the
    subtree of [x0], in the grouping of the nodes to copy. *)
Lemma grouped_children x0 n kids :
  wf trows x0 → wf trows (STree n kids) → ¬ exq n →
  (∀ y, y ∈ flatten (STree n kids) → y ∈ flatten x0) →
  order_by_lft
    (default [] (group_by_parent (nodes_to_copy keys (root x0)) !! pk n))
  = root <$> kept keys kids.
Proof.
  intros Hwf0 Hwf Hn Hsub. rewrite group_by_parent_lookup.
  inversion Hwf as [? ? Hnt _ Hc Hs _ _ _ Hkids]; subst.
  apply order_by_lft_unique; [|by apply kept_sorted].
  apply NoDup_Permutation.
  - apply NoDup_filter, nodes_to_copy_NoDup.
  - by apply lft_lt_NoDup, kept_sorted.
  - intros y. rewrite list_elem_of_filter, (nodes_to_copy_elem x0 y Hwf0).
    rewrite <- kept_roots, list_elem_of_filter, list_elem_of_fmap.
    rewrite Forall_forall in Hkids. split.
    + intros (Hp & Hy0 & Hex).
      assert (y ∈ root <$> kids) as Hy.
      { rewrite <- Hc. apply list_elem_of_filter. split; [done|].
        by apply (wf_flatten x0). }
      apply list_elem_of_fmap in Hy as (k & -> & Hk). split; [|by exists k].
      intros Hkey. apply Hex. by apply (kid_exq n kids).
    + intros (Hkey & k & -> & Hk).
      assert (root k ∈ root <$> kids) as Hy by (by apply list_elem_of_fmap_2).
      rewrite <- Hc in Hy. apply list_elem_of_filter in Hy as [Hp _].
      split; [done|]. split.
      * apply Hsub. apply (kid_flatten n kids k); [done|apply root_flatten].
      * by rewrite (kid_exq n kids).
Qed.

(** ** The clone tree *)

Variable methods_ : methods.
Variable scid ce : pyval.

Abbreviation _recurse_to_create_tree := (_recurse_to_create_tree methods_ uuid).
Abbreviation clone_node := (clone_node methods_ uuid).

Definition set_uuid (c : nat) (s : state) : state :=
  State (rows s) (next_tree_id s) c (calls s).

Lemma set_uuid_twice c c' s : set_uuid c (set_uuid c' s) = set_uuid c s.
Proof. done. Qed.

(** The clone tree of a subtree, with the identifiers drawn from [c] on,
    node by node in pre-order. *)
Fixpoint clones (c : nat) (parent pk_ : pyval) (mods : option (gmap string pyval))
    (x : stree) : ctree * nat :=
  match x with
  | STree n kids =>
      let copy := _clone_node methods_ uuid n parent scid ce pk_ mods c in
      let r :=
        (fix go (l : list stree) (c : nat) : list ctree * nat :=
           match l with
           | [] => ([], c)
           | k :: l =>
               let t := clones c (item copy.1 "id") VNone None k in
               let ts := go l t.2 in
               (t.1 :: ts.1, ts.2)
           end) kids copy.2 in
      (CTree copy.1 r.1, r.2)
  end.

Fixpoint clones_list (c : nat) (parent : pyval) (l : list stree) : list ctree * nat :=
  match l with
  | [] => ([], c)
  | k :: l =>
      let t := clones c parent VNone None k in
      let ts := clones_list t.2 parent l in
      (t.1 :: ts.1, ts.2)
  end.

Lemma clones_eq c parent pk_ mods n kids :
  clones c parent pk_ mods (STree n kids)
  = let copy := _clone_node methods_ uuid n parent scid ce pk_ mods c in
    let r := clones_list copy.2 (item copy.1 "id") kids in
    (CTree copy.1 r.1, r.2).
Proof.
  cbn [clones]. cbv zeta.
  generalize (_clone_node methods_ uuid n parent scid ce pk_ mods c).2.
  generalize (item (_clone_node methods_ uuid n parent scid ce pk_ mods c).1 "id").
  intros p. induction kids as [|k kids IH]; intros c'; [done|].
  cbn [clones_list]. cbv zeta.
  specialize (IH (clones c' p VNone None k).2).
  injection IH as IH1 IH2. by rewrite IH1, IH2.
Qed.

Lemma clone_node_run source parent pk_ mods s :
  clone_node source parent scid ce pk_ mods s
  = Ok (_clone_node methods_ uuid source parent scid ce pk_ mods (next_uuid s)).1
       (set_uuid (_clone_node methods_ uuid source parent scid ce pk_ mods
                    (next_uuid s)).2 s).
Proof.
  unfold Copy.clone_node, set_uuid. by destruct (_clone_node _ _ _ _ _ _ _ _ _).
Qed.

Lemma depth_kid n kids k : k ∈ kids → (depth k < depth (STree n kids))%nat.
Proof.
  intros Hk. simpl. induction kids as [|k' kids IH]; [by apply elem_of_nil in Hk|].
  simpl. apply elem_of_cons in Hk as [->|Hk]; [lia|]. specialize (IH Hk). lia.
Qed.

Lemma kept_elem k kids : k ∈ kept keys kids → k ∈ kids ∧ node_id (root k) ∉ keys.
Proof. unfold kept. intros [? ?]%list_elem_of_filter. done. Qed.

(** [_recurse_to_create_tree] on a node of the subtree of [x0] builds the
    clone tree of the pruned subtree of that node. *)
Lemma recurse_clones x0 x :
  wf trows x0 → wf trows x → ¬ exq (root x) →
  (∀ y, y ∈ flatten x → y ∈ flatten x0) →
  ∀ fuel parent pk_ mods m s,
    (depth x ≤ fuel)%nat →
    ∃ m',
      _recurse_to_create_tree fuel (root x) parent scid
        (group_by_parent (nodes_to_copy keys (root x0))) m ce pk_ mods s
      = Ok ((clones (next_uuid s) parent pk_ mods (prune keys x)).1, m')
           (set_uuid (clones (next_uuid s) parent pk_ mods (prune keys x)).2 s).
Proof.
  intros Hwf0. induction x as [n kids IH] using stree_ind'.
  intros Hwf Hn Hsub fuel parent pk_ mods m s Hfuel.
  destruct fuel as [|fuel]; [simpl in Hfuel; lia|].
  cbn [Copy._recurse_to_create_tree root]. unfold bind at 1.
  rewrite clone_node_run.
  set (copy := _clone_node methods_ uuid n parent scid ce pk_ mods (next_uuid s)).
  rewrite prune_eq, clones_eq. cbv zeta. fold copy.
  pose proof (grouped_children x0 n kids Hwf0 Hwf Hn Hsub) as Hg.
  (* the children found are those of the pruned tree *)
  assert (∃ m',
    map_children
      (λ x source_copy_id_map,
         _recurse_to_create_tree fuel x (item copy.1 "id") scid
           (group_by_parent (nodes_to_copy keys (root x0))) source_copy_id_map
           ce VNone None)
      (root <$> kept keys kids) m (set_uuid copy.2 s)
    = Ok ((clones_list copy.2 (item copy.1 "id") (prune keys <$> kept keys kids)).1, m')
         (set_uuid (clones_list copy.2 (item copy.1 "id")
                      (prune keys <$> kept keys kids)).2 s)) as [m1 Hmap].
  { assert (Forall (λ k, k ∈ kids ∧ node_id (root k) ∉ keys) (kept keys kids)) as Hkept
      by (apply Forall_forall; intros k; apply kept_elem).
    clear Hg. generalize copy.2 as c. generalize (item copy.1 "id") as p.
    revert m. induction Hkept as [|k ks [Hk Hkey] _ IHks]; intros m p c.
    { exists m. done. }
    rewrite !fmap_cons. cbn [map_children clones_list]. cbv zeta.
    rewrite Forall_forall in IH.
    inversion Hwf as [? ? _ _ _ _ _ _ _ Hkids]; subst.
    rewrite Forall_forall in Hkids.
    destruct (IH k Hk (Hkids k Hk)) with (fuel := fuel) (parent := p)
      (pk_ := VNone) (mods := @None (gmap string pyval)) (m := m)
      (s := set_uuid c s) as [m2 Hk2].
    { by rewrite (kid_exq n kids). }
    { intros y Hy. apply Hsub. by apply (kid_flatten n kids k). }
    { pose proof (depth_kid n kids k Hk). lia. }
    unfold bind at 1. rewrite Hk2.
    change (next_uuid (set_uuid c s)) with c. rewrite set_uuid_twice.
    destruct (IHks m2 p (clones c p VNone None (prune keys k)).2) as [m3 Hk3].
    cbn [fst snd]. unfold bind at 1. rewrite Hk3.
    exists m3. done. }
  destruct (group_by_parent (nodes_to_copy keys (root x0)) !! pk n) as [l|] eqn:Hl.
  - simpl in Hg. destruct (decide (kind_id n = TOPIC)) as [Hkind|Hkind].
    + rewrite bool_decide_eq_true_2 by done. rewrite Hg.
      unfold bind at 1. rewrite Hmap. eexists. reflexivity.
    + rewrite bool_decide_eq_false_2 by done.
      assert (kept keys kids = []) as Hnil.
      { destruct (kept keys kids) as [|k ks] eqn:Hks; [done|].
        assert (k ∈ kids) as Hk by (apply (kept_elem k); rewrite Hks; left).
        inversion Hwf as [? ? _ _ _ _ Hleaf _ _ _]; subst.
        destruct Hleaf as [_ ?]; [|done]. intros ->. by apply elem_of_nil in Hk. }
      rewrite Hnil. eexists. reflexivity.
  - simpl in Hg.
    assert (kept keys kids = []) as Hnil.
    { apply (f_equal length) in Hg. rewrite length_fmap in Hg.
      destruct (kept keys kids); [done|]. done. }
    rewrite Hnil. eexists. reflexivity.
Qed.

(** ** What a clone carries *)

(** Overrides that leave the key, the parent and the changed flag of the
    clone alone. *)
Definition plain (mods : option (gmap string pyval)) : Prop :=
  match mods with
  | Some m => m !! "id" = None ∧ m !! "parent_id" = None ∧ m !! "changed" = None
  | None => True
  end.

Definition before_backfill (n : node) (parent pk_ : pyval)
    (mods : option (gmap string pyval)) (c : nat) : gmap string pyval :=
  let copy := update (clone_defaults uuid n parent scid ce pk_ c).1
                     (get_source_attributes n) in
  match mods with Some mods => update copy mods | None => copy end.

Lemma clone_node_eq n parent pk_ mods c :
  _clone_node methods_ uuid n parent scid ce pk_ mods c
  = (backfill methods_ n (before_backfill n parent pk_ mods c),
     if truthy pk_ then S c else S (S c)).
Proof.
  unfold _clone_node, before_backfill, clone_defaults. by destruct (truthy pk_).
Qed.

Lemma before_backfill_lookup n parent pk_ mods c k :
  plain mods → k ∈ ["id"; "parent_id"; "changed"] →
  before_backfill n parent pk_ mods c !! k
  = (clone_defaults uuid n parent scid ce pk_ c).1 !! k.
Proof.
  intros Hp Hk. unfold before_backfill, update.
  assert (get_source_attributes n !! k = None) as Ha.
  { repeat (apply elem_of_cons in Hk as [->|Hk]; [done|]).
    by apply elem_of_nil in Hk. }
  destruct mods as [m|]; simpl in Hp.
  - assert (m !! k = None) as Hm.
    { destruct Hp as (? & ? & ?).
      repeat (apply elem_of_cons in Hk as [->|Hk]; [done|]).
      by apply elem_of_nil in Hk. }
    rewrite lookup_union_r by done. by rewrite lookup_union_r.
  - by rewrite lookup_union_r.
Qed.

Lemma clone_lookup n parent pk_ mods c k :
  plain mods → k ∈ ["id"; "parent_id"; "changed"] →
  (_clone_node methods_ uuid n parent scid ce pk_ mods c).1 !! k
  = (clone_defaults uuid n parent scid ce pk_ c).1 !! k.
Proof.
  intros Hp Hk. rewrite clone_node_eq. cbn [fst].
  rewrite CloneProps.backfill_lookup_other.
  - by apply before_backfill_lookup.
  - repeat (apply elem_of_cons in Hk as [->|Hk]; [done|]). by apply elem_of_nil in Hk.
  - repeat (apply elem_of_cons in Hk as [->|Hk]; [done|]). by apply elem_of_nil in Hk.
Qed.

Definition new_id (pk_ : pyval) (c : nat) : pyval :=
  if truthy pk_ then pk_ else VStr (uuid c).

Lemma clone_id n parent pk_ mods c :
  plain mods →
  item (_clone_node methods_ uuid n parent scid ce pk_ mods c).1 "id" = new_id pk_ c.
Proof.
  intros Hp. unfold item. rewrite clone_lookup by (done || set_solver).
  unfold clone_defaults, new_id. by destruct (truthy pk_).
Qed.

Lemma clone_changed n parent pk_ mods c :
  plain mods →
  (_clone_node methods_ uuid n parent scid ce pk_ mods c).1 !! "changed"
  = Some (VBool true).
Proof.
  intros Hp. rewrite clone_lookup by (done || set_solver).
  unfold clone_defaults. by destruct (truthy pk_).
Qed.

Lemma clone_parent_id n parent pk_ mods c :
  plain mods →
  (_clone_node methods_ uuid n parent scid ce pk_ mods c).1 !! "parent_id"
  = Some parent.
Proof.
  intros Hp. rewrite clone_lookup by (done || set_solver).
  unfold clone_defaults. by destruct (truthy pk_).
Qed.

Lemma list_to_map_last (l : list (string * pyval)) k p q :
  k ∉ l.*1 →
  <[k := p]> (list_to_map (l ++ [(k, q)]) : gmap string pyval)
  = list_to_map (l ++ [(k, p)]).
Proof.
  induction l as [|[k' v] l IH]; simpl; intros Hk.
  - by rewrite insert_insert_eq.
  - apply not_elem_of_cons in Hk as [Hk Hl].
    rewrite insert_insert_ne by done. by rewrite IH.
Qed.

Lemma clone_defaults_parent n parent pk_ c :
  (clone_defaults uuid n parent scid ce pk_ c).1
  = <["parent_id" := parent]> (clone_defaults uuid n VNone scid ce pk_ c).1.
Proof.
  unfold clone_defaults. destruct (truthy pk_); cbn [fst].
  - symmetry.
    apply (list_to_map_last
      [("id", _); ("node_id", _); ("aggregator", _); ("cloned_source", _);
       ("source_channel_id", _); ("source_node_id", _); ("original_channel_id", _);
       ("original_source_node_id", _); ("freeze_authoring_data", _);
       ("changed", _); ("published", _)] "parent_id" parent VNone).
    cbn. set_solver.
  - symmetry.
    apply (list_to_map_last
      [("id", _); ("node_id", _); ("aggregator", _); ("cloned_source", _);
       ("source_channel_id", _); ("source_node_id", _); ("original_channel_id", _);
       ("original_source_node_id", _); ("freeze_authoring_data", _);
       ("changed", _); ("published", _)] "parent_id" parent VNone).
    cbn. set_solver.
Qed.

Lemma before_backfill_parent n parent pk_ mods c :
  plain mods →
  before_backfill n parent pk_ mods c
  = <["parent_id" := parent]> (before_backfill n VNone pk_ mods c).
Proof.
  intros Hp. unfold before_backfill, update. cbv zeta.
  rewrite (clone_defaults_parent n parent).
  assert (get_source_attributes n !! "parent_id" = None) as Ha by done.
  destruct mods as [m|]; simpl in Hp.
  - destruct Hp as (_ & Hm & _).
    rewrite <- (insert_union_r _ _ "parent_id") by done.
    by rewrite <- (insert_union_r _ _ "parent_id") by done.
  - by rewrite <- (insert_union_r _ _ "parent_id") by done.
Qed.

Lemma backfill_insert_parent n copy p :
  backfill methods_ n (<["parent_id" := p]> copy)
  = <["parent_id" := p]> (backfill methods_ n copy).
Proof.
  unfold backfill.
  assert (∀ (d : gmap string pyval) k, k ≠ "parent_id" →
            item (<["parent_id" := p]> d) k = item d k) as Hitem
    by (intros d k Hk; unfold item; by rewrite lookup_insert_ne).
  rewrite !Hitem by done.
  destruct (bool_decide (item copy "original_channel_id" = VNone)); cbn [orb].
  - rewrite (insert_insert_ne _ "original_channel_id" "parent_id") by done.
    rewrite !Hitem by done.
    destruct (bool_decide (item _ "original_source_node_id" = VNone)); [|done].
    by rewrite (insert_insert_ne _ "original_source_node_id" "parent_id").
  - destruct (bool_decide (item copy "original_source_node_id" = VNone)) eqn:H2;
      [|done].
    rewrite Hitem, H2 by done.
    by rewrite (insert_insert_ne _ "original_source_node_id" "parent_id").
Qed.

(** The clone that [_shallow_copy] makes with no parent, once
    [insert_node] has set its parent, is the clone that
    [_recurse_to_create_tree] makes with that parent. *)
Lemma clone_parent n parent pk_ mods c :
  plain mods →
  <["parent_id" := parent]>
    (_clone_node methods_ uuid n VNone scid ce pk_ mods c).1
  = (_clone_node methods_ uuid n parent scid ce pk_ mods c).1.
Proof.
  intros Hp. rewrite !clone_node_eq. cbn [fst].
  rewrite (before_backfill_parent n parent) by done.
  by rewrite backfill_insert_parent.
Qed.

Lemma clone_counter n parent pk_ mods c :
  (_clone_node methods_ uuid n parent scid ce pk_ mods c).2
  = if truthy pk_ then S c else S (S c).
Proof. by rewrite clone_node_eq. Qed.

(** *** The identifiers of the clones *)

Definition drawn (c0 c' : nat) (v : pyval) : Prop :=
  ∃ j, (c0 ≤ j < c')%nat ∧ v = VStr (uuid j).

Lemma drawn_weaken a b a' b' v :
  (a' ≤ a)%nat → (b ≤ b')%nat → drawn a b v → drawn a' b' v.
Proof. intros ?? (j & ? & ?). exists j. split; [lia|done]. Qed.

(** A clone of the tree under [idr]: its key is drawn from [c0..c'], its
    parent is [idr] or a key drawn from there, and it is marked changed. *)
Record kid_ok (idr : pyval) (c0 c' : nat) (d : gmap string pyval) : Prop := {
  kid_id : drawn c0 c' (item d "id");
  kid_parent : item d "parent_id" = idr ∨ drawn c0 c' (item d "parent_id");
  kid_changed : d !! "changed" = Some (VBool true)
}.

Lemma kid_ok_weaken idr a b a' b' d :
  (a' ≤ a)%nat → (b ≤ b')%nat → kid_ok idr a b d → kid_ok idr a' b' d.
Proof.
  intros ?? [? Hp ?]. split; [by eapply drawn_weaken| |done].
  destruct Hp; [by left|right; by eapply drawn_weaken].
Qed.

Lemma kid_ok_parent idr idr' a b d :
  drawn a b idr → kid_ok idr a b d → kid_ok idr' a b d.
Proof. intros Hd [? Hp ?]. split; [done| |done]. right. by destruct Hp as [->|]. Qed.

Lemma clones_kids_ok x :
  ∀ c p,
    (c < (clones c p VNone None x).2)%nat
    ∧ Forall (kid_ok p c (clones c p VNone None x).2)
             (cdata (clones c p VNone None x).1).
Proof.
  induction x as [n kids IH] using stree_ind'. intros c p.
  rewrite clones_eq. cbv zeta. rewrite clone_counter. cbn [truthy fst snd].
  set (copy := (_clone_node methods_ uuid n p scid ce VNone None c).1).
  assert (item copy "id" = VStr (uuid c)) as Hid by (by apply clone_id).
  rewrite Hid.
  assert (∀ c1,
    (c1 ≤ (clones_list c1 (VStr (uuid c)) kids).2)%nat
    ∧ Forall (kid_ok (VStr (uuid c)) c1 (clones_list c1 (VStr (uuid c)) kids).2)
             (cdata_list (clones_list c1 (VStr (uuid c)) kids).1)) as Hkids.
  { clear Hid. induction IH as [|k ks Hk _ IHks]; intros c1.
    { split; [done|constructor]. }
    cbn [clones_list]. cbv zeta. cbn [fst snd cdata_list].
    destruct (Hk c1 (VStr (uuid c))) as [Hlt Hok].
    destruct (IHks (clones c1 (VStr (uuid c)) VNone None k).2) as [Hle Hoks].
    split; [lia|]. apply Forall_app. split.
    - eapply Forall_impl; [exact Hok|]. intros d. apply kid_ok_weaken; lia.
    - eapply Forall_impl; [exact Hoks|]. intros d. apply kid_ok_weaken; lia. }
  destruct (Hkids (S (S c))) as [Hle Hok]. split; [lia|].
  rewrite cdata_eq. constructor.
  - split.
    + exists c. rewrite Hid. split; [lia|done].
    + left. unfold item. subst copy. by rewrite clone_parent_id.
    + subst copy. by apply clone_changed.
  - eapply Forall_impl; [exact Hok|]. intros d Hd.
    apply (kid_ok_parent (VStr (uuid c))).
    + exists c. split; [lia|done].
    + eapply kid_ok_weaken; [| |exact Hd]; lia.
Qed.

Lemma clones_list_ok kids c p :
  (c ≤ (clones_list c p kids).2)%nat
  ∧ Forall (kid_ok p c (clones_list c p kids).2) (cdata_list (clones_list c p kids).1).
Proof.
  revert c. induction kids as [|k ks IH]; intros c.
  { split; [done|constructor]. }
  cbn [clones_list]. cbv zeta. cbn [fst snd cdata_list].
  destruct (clones_kids_ok k c p) as [Hlt Hok].
  destruct (IH (clones c p VNone None k).2) as [Hle Hoks].
  split; [lia|]. apply Forall_app. split.
  - eapply Forall_impl; [exact Hok|]. intros d. apply kid_ok_weaken; lia.
  - eapply Forall_impl; [exact Hoks|]. intros d. apply kid_ok_weaken; lia.
Qed.

(** *** The size of the clone tree *)

Lemma clones_list_size kids c p :
  Forall (λ k, ∀ c p pk_ mods,
            size (clones c p pk_ mods k).1 = Z.of_nat (length (flatten k))) kids →
  sizes (clones_list c p kids).1 = Z.of_nat (length (concat (flatten <$> kids))).
Proof.
  intros H. revert c. induction H as [|k ks Hk _ IH]; intros c; [done|].
  cbn [clones_list]. cbv zeta. cbn [fst sizes foldr]. fold (sizes (clones_list
    (clones c p VNone None k).2 p ks).1).
  rewrite Hk, IH, fmap_cons. cbn [concat]. rewrite length_app. lia.
Qed.

Lemma clones_size x :
  ∀ c p pk_ mods, size (clones c p pk_ mods x).1 = Z.of_nat (length (flatten x)).
Proof.
  induction x as [n kids IH] using stree_ind'. intros c p pk_ mods.
  rewrite clones_eq. cbv zeta. cbn [fst flatten length].
  change (size (CTree ?d ?l)) with (1 + sizes l).
  rewrite clones_list_size by done. lia.
Qed.

(** ** The destination *)

Definition progress (l : list call) : Z :=
  foldr (λ c acc, match c with CIncrementProgress n => n + acc | _ => acc end) 0 l.

Lemma progress_app l1 l2 : progress (l1 ++ l2) = progress l1 + progress l2.
Proof.
  induction l1 as [|c l1 IH]; simpl; [lia|]. destruct c; simpl; lia.
Qed.

(** The target as [_mptt_refresh] leaves it: its own attributes, the mptt
    columns of its row [trow]. *)
Definition seen (t trow : node) : node :=
  Node (attrs t) (tree_id trow) (level trow) (lft trow) (rght trow).

Lemma pk_seen t trow : pk (seen t trow) = pk t.
Proof. done. Qed.

(** The target [t] has a key, and its row in the table is [trow]. *)
Record target_at (s : state) (t trow : node) : Prop := {
  ta_truthy : truthy (pk t) = true;
  ta_row : lookup_pk (rows s) (pk t) = Some trow
}.

Lemma refresh_run s t trow :
  target_at s t trow → refresh (Some t) s = Ok (Some (seen t trow)) s.
Proof.
  intros [Ht Hr]. unfold refresh, _mptt_refresh, bind, get. rewrite Ht, Hr. done.
Qed.

Lemma refresh_none s : refresh None s = Ok None s.
Proof. done. Qed.

Definition child_position (position : string) : Prop :=
  position = "last-child" ∨ position = "first-child".

(** The rows of the table once room for [n] nodes is made at the
    placement. *)
Definition room (n : Z) (target : option node) (position : string) (s : state)
    : list node :=
  match target with
  | Some _ =>
      moved (2 * n) ((placement target position s).1.2 - 1)
            (placement target position s).1.1 <$> rows s
  | None => rows s
  end.

Definition drawn_tree (target : option node) (s : state) : Z :=
  match target with Some _ => next_tree_id s | None => next_tree_id s + 1 end.

Lemma built_eq data target position s :
  built data target position s
  = State (room (size data) target position s) (drawn_tree target s)
          (next_uuid s) (calls s).
Proof. by destruct target. Qed.

(** The row that [insert_node] and [save] add for a node built from
    [data]. *)
Definition inserted (data : gmap string pyval) (target : option node)
    (position : string) (s : state) : node :=
  Node (<["parent_id" := id_of target]> data)
       (placement target position s).1.1 (placement target position s).2
       (placement target position s).1.2 ((placement target position s).1.2 + 1).

Ltac decide_position :=
  repeat match goal with
  | |- context [bool_decide ?P] =>
      first
        [ rewrite (bool_decide_eq_true_2 P) by (done || (left; done) || (right; left; done))
        | rewrite (bool_decide_eq_false_2 P) by (done || (intros [?|?]; done)) ]
  end.

Lemma insert_node_run data target position s :
  (∀ r, r ∈ rows s → pk r ≠ item data "id") →
  (target = None ∨ child_position position) →
  insert_node data target position s
  = Ok (inserted data target position s)
       (State (room 1 target position s ++ [inserted data target position s])
              (drawn_tree target s) (next_uuid s) (calls s)).
Proof.
  intros Hfresh Hpos. unfold insert_node, bind, get.
  rewrite (bool_decide_eq_false_2 (Exists _ _)).
  2:{ rewrite Exists_exists. intros (r & Hr & Heq). by apply (Hfresh r). }
  rewrite andb_false_r.
  destruct target as [t|]; [|done].
  destruct Hpos as [|[-> | ->]]; [done| |].
  - unfold inserted, room, placement. decide_position.
    rewrite andb_false_r. cbn. unfold set_rows, modify, ret. cbn.
    replace (rght t - 1 + 1) with (rght t) by lia.
    by replace (rght t - 1 + 2) with (rght t + 1) by lia.
  - unfold inserted, room, placement. decide_position.
    rewrite andb_false_r. cbn. unfold set_rows, modify, ret. cbn.
    replace (lft t + 1 - 1) with (lft t) by lia.
    by replace (lft t + 1 + 1) with (lft t + 2) by lia.
Qed.

(** How [refresh] sees the target of a copy. *)
Inductive refreshed (s : state) : option node → option node → Prop :=
| refreshed_none : refreshed s None None
| refreshed_some t trow :
    target_at s t trow → refreshed s (Some t) (Some (seen t trow)).

Lemma refreshed_run s s0 target target' :
  refreshed s target target' → rows s0 = rows s →
  refresh target s0 = Ok target' s0.
Proof.
  intros [|t trow [Ht Hr]] Hrows; [done|].
  apply refresh_run. split; [done|]. by rewrite Hrows.
Qed.

Lemma refreshed_id s target target' :
  refreshed s target target' → id_of target' = id_of target.
Proof. by intros [|t trow _]. Qed.

Abbreviation _shallow_copy := (_shallow_copy methods_ uuid).
Abbreviation _deep_copy := (_deep_copy methods_ uuid).
Abbreviation _copy := (_copy methods_ uuid).

Lemma placement_state target position s s0 :
  next_tree_id s0 = next_tree_id s →
  placement target position s0 = placement target position s.
Proof. intros H. destruct target; [done|]. unfold placement. by rewrite H. Qed.

Lemma inserted_state data target position s s0 :
  next_tree_id s0 = next_tree_id s →
  inserted data target position s0 = inserted data target position s.
Proof. intros H. unfold inserted. by rewrite !(placement_state _ _ s s0 H). Qed.

Lemma room_state n target position s s0 :
  rows s0 = rows s → next_tree_id s0 = next_tree_id s →
  room n target position s0 = room n target position s.
Proof.
  intros Hr H. unfold room. by rewrite !(placement_state _ _ s s0 H), Hr.
Qed.

Lemma drawn_tree_state target s s0 :
  next_tree_id s0 = next_tree_id s → drawn_tree target s0 = drawn_tree target s.
Proof. intros H. unfold drawn_tree. by rewrite H. Qed.

(** The shallow copy of one node. *)
Lemma shallow_copy_run n target target' position pk_ mods s :
  refreshed s target target' → plain mods →
  (∀ r, r ∈ rows s → pk r ≠ new_id pk_ (next_uuid s)) →
  (target' = None ∨ child_position position) →
  let copy := _clone_node methods_ uuid n VNone scid ce pk_ mods (next_uuid s) in
  let node_copy := inserted copy.1 target' position s in
  ∃ cs,
    _shallow_copy n target position scid pk_ mods ce s
    = Ok node_copy
         (State (room 1 target' position s ++ [node_copy])
                (drawn_tree target' s) copy.2 (calls s ++ cs))
    ∧ progress cs = 1.
Proof.
  intros Href Hplain Hfresh Hpos copy node_copy.
  unfold Copy._shallow_copy, bind, record, modify.
  rewrite clone_node_run. cbn [rows next_tree_id next_uuid calls set_uuid].
  fold copy.
  erewrite (refreshed_run s _ target target' Href) by done.
  rewrite insert_node_run; cbn [rows next_tree_id next_uuid calls]; try done.
  2:{ intros r Hr. unfold copy. rewrite clone_id by done. by apply Hfresh. }
  eexists. split.
  - unfold ret.
    rewrite !(inserted_state _ _ _ s (State _ _ _ _)) by done.
    rewrite !(room_state _ _ _ s (State _ _ _ _)) by done.
    rewrite !(drawn_tree_state _ s (State _ _ _ _)) by done.
    fold node_copy. rewrite <- !app_assoc. reflexivity.
  - done.
Qed.

Lemma bulk_create_run l s :
  bulk_create (inst_of <$> l) s
  = Ok l (State (rows s ++ l) (next_tree_id s) (next_uuid s) (calls s)).
Proof. unfold bulk_create. by rewrite mapM_to_row. Qed.

Lemma inv_same s s0 :
  inv uuid T trows s → rows s0 = rows s → next_uuid s0 = next_uuid s →
  inv uuid T trows s0.
Proof. intros [H1 H2 H3] Hr Hu. split; rewrite ?Hr, ?Hu; done. Qed.

(** What [update(changed=True)] on the target leaves of the table. *)
Definition finish (target : option node) (table : list node) : list node :=
  match target with
  | Some t => marked (pk t) <$> table
  | None => table
  end.

(** The deep copy of a subtree. *)
Lemma deep_copy_run x fuel target target' position pk_ mods excl s :
  keys_of excl = keys → inv uuid T trows s → wf trows x → ¬ exq (root x) →
  (depth x ≤ fuel)%nat → refreshed s target target' →
  let cl := clones (next_uuid s) (id_of target) pk_ mods (prune keys x) in
  let new := lay (placement target' position s).1.1 cl.1
                 (placement target' position s).1.2
                 (placement target' position s).2 in
  ∃ cs,
    _deep_copy fuel (root x) target position scid pk_ mods excl ce s
    = Ok new
         (State (finish target (room (size cl.1) target' position s ++ new))
                (drawn_tree target' s) cl.2 (calls s ++ cs))
    ∧ progress cs = Z.of_nat (length (flatten (prune keys x))).
Proof.
  intros Hk Hinv Hwf Hn Hfuel Href cl new.
  unfold Copy._deep_copy. unfold bind at 1. unfold record at 1, modify.
  unfold bind at 1.
  rewrite (all_nodes_to_copy_inv (State _ _ _ _));
    [|by eapply inv_same|by destruct Hwf].
  rewrite Hk.
  destruct (recurse_clones x x Hwf Hwf Hn (λ y Hy, Hy) fuel (id_of target) pk_ mods ∅
              (State (rows s) (next_tree_id s) (next_uuid s)
                     (calls s ++ [CDeepCopy (pk (root x)) (id_of target) position]))
              Hfuel) as [m' Hrec].
  unfold bind at 1. rewrite Hrec. cbn [next_uuid]. fold cl.
  unfold bind at 1. unfold record at 1, modify. unfold set_uuid.
  cbn [rows next_tree_id next_uuid calls].
  unfold bind at 1.
  erewrite (refreshed_run s _ target target' Href) by done.
  unfold bind at 1. rewrite build_tree_nodes_run, built_eq.
  rewrite !(placement_state _ _ s (State _ _ _ _)) by done.
  rewrite !(room_state _ _ _ s (State _ _ _ _)) by done.
  rewrite !(drawn_tree_state _ s (State _ _ _ _)) by done.
  cbn [rows next_tree_id next_uuid calls]. fold new.
  unfold bind at 1. rewrite bulk_create_run.
  cbn [rows next_tree_id next_uuid calls].
  eexists. split.
  - destruct target as [t|]; unfold bind, mark_changed, set_rows, record, modify, ret;
      cbn [rows next_tree_id next_uuid calls finish];
      rewrite <- !app_assoc; reflexivity.
  - cbn. rewrite (nodes_to_copy_flatten x Hwf Hn). lia.
Qed.

(** ** Making room twice *)

Lemma shift_shift a s1 th1 th2 v :
  th1 ≤ th2 → th2 ≤ th1 + s1 →
  shift a th2 (shift s1 th1 v) = shift (a + s1) th1 v.
Proof.
  intros H1 H2. unfold shift.
  destruct (th1 <? v) eqn:E1.
  - apply Z.ltb_lt in E1.
    replace (th2 <? v + s1) with true by (symmetry; apply Z.ltb_lt; lia). lia.
  - apply Z.ltb_ge in E1.
    by replace (th2 <? v) with false by (symmetry; apply Z.ltb_ge; lia).
Qed.

Lemma moved_moved a s1 th1 th2 D r :
  th1 ≤ th2 → th2 ≤ th1 + s1 →
  moved a th2 D (moved s1 th1 D r) = moved (a + s1) th1 D r.
Proof.
  intros H1 H2. unfold moved. destruct (decide (tree_id r = D)) as [HD|HD].
  - rewrite !(bool_decide_eq_true_2 (tree_id r = D)) by done.
    cbn [tree_id attrs level lft rght].
    rewrite ?(bool_decide_eq_true_2 (tree_id r = D)) by done.
    by rewrite !shift_shift.
  - rewrite !(bool_decide_eq_false_2 (tree_id r = D)) by done.
    by rewrite ?(bool_decide_eq_false_2 (tree_id r = D)).
Qed.

Lemma moved_other k th D r : tree_id r ≠ D → moved k th D r = r.
Proof. intros H. unfold moved. by rewrite bool_decide_eq_false_2. Qed.

Lemma moved_below k th D r : lft r ≤ th → rght r ≤ th → moved k th D r = r.
Proof.
  intros H1 H2. unfold moved, shift.
  replace (th <? lft r) with false by (symmetry; apply Z.ltb_ge; lia).
  replace (th <? rght r) with false by (symmetry; apply Z.ltb_ge; lia).
  destruct r. by destruct (bool_decide _).
Qed.

Lemma moved_attrs k th D r : attrs (moved k th D r) = attrs r.
Proof. unfold moved. by destruct (bool_decide _). Qed.

Lemma moved_tree_id k th D r : tree_id (moved k th D r) = tree_id r.
Proof. unfold moved. by destruct (bool_decide _). Qed.

Lemma moved_pk k th D r : pk (moved k th D r) = pk r.
Proof. unfold pk, attr. by rewrite moved_attrs. Qed.

Lemma moved_parent_id k th D r : parent_id (moved k th D r) = parent_id r.
Proof. unfold parent_id, attr. by rewrite moved_attrs. Qed.

Lemma moved_source k th D (l : list node) :
  D ≠ T → filter (λ r, tree_id r = T) (moved k th D <$> l)
          = filter (λ r, tree_id r = T) l.
Proof.
  intros HD. induction l as [|r l IH]; [done|].
  rewrite fmap_cons, !filter_cons, moved_tree_id, IH.
  destruct (decide (tree_id r = T)) as [HT|]; [|done].
  by rewrite moved_other by congruence.
Qed.

Lemma marked_changed id_ r :
  attrs r !! "changed" = Some (VBool true) → marked id_ r = r.
Proof.
  intros H. unfold marked. destruct (bool_decide _); [|done].
  unfold with_attr. rewrite insert_id by done. by destruct r.
Qed.

(** ** The invariant once new rows are placed in another tree *)

(** A row that can join the table beside the source tree: it is in the
    tree [D], neither its key nor its parent is a key of the source, and
    its key is none of the identifiers drawn from [c] on. *)
Definition foreign (D : Z) (c : nat) (r : node) : Prop :=
  tree_id r = D ∧ (pk r ∉ pk <$> trows) ∧ (parent_id r ∉ pk <$> trows)
  ∧ ∀ j, (c ≤ j)%nat → pk r ≠ VStr (uuid j).

Lemma inv_place s D k th new tid c cs :
  inv uuid T trows s → D ≠ T → (next_uuid s ≤ c)%nat →
  Forall (foreign D c) new →
  inv uuid T trows (State ((moved k th D <$> rows s) ++ new) tid c cs).
Proof.
  intros [H1 H2 H3] HD Hc Hnew. rewrite Forall_forall in Hnew.
  split; cbn [rows next_uuid].
  - rewrite filter_app, moved_source, H1 by done.
    rewrite (filter_none _ new); [by rewrite app_nil_r|].
    intros r Hr HT. destruct (Hnew r Hr) as [HrD _]. congruence.
  - intros r [Hr|Hr]%elem_of_app HT.
    + apply list_elem_of_fmap in Hr as (r0 & -> & Hr0).
      rewrite moved_pk, moved_parent_id. rewrite moved_tree_id in HT.
      by apply H2.
    + destruct (Hnew r Hr) as (_ & ? & ? & _). done.
  - intros j r Hj [Hr|Hr]%elem_of_app.
    + apply list_elem_of_fmap in Hr as (r0 & -> & Hr0).
      rewrite moved_pk. apply H3; [lia|done].
    + destruct (Hnew r Hr) as (_ & _ & _ & Hf). apply Hf. lia.
Qed.

(** ** The table while the children of a shallow copy are copied *)

Lemma sizes_app ts1 ts2 : sizes (ts1 ++ ts2) = sizes ts1 + sizes ts2.
Proof.
  unfold sizes. induction ts1 as [|t ts1 IH]; simpl; [done|]. rewrite IH. lia.
Qed.

Lemma lay_list_app tree ts1 ts2 c l :
  lay_list tree (ts1 ++ ts2) c l
  = lay_list tree ts1 c l ++ lay_list tree ts2 (c + 2 * sizes ts1) l.
Proof.
  revert c. induction ts1 as [|t ts1 IH]; intros c.
  - cbn. by replace (c + 2 * 0) with c by lia.
  - cbn [app lay_list]. rewrite IH, <- app_assoc. do 3 f_equal.
    change (sizes (t :: ts1)) with (size t + sizes ts1). lia.
Qed.

(** The rows [R0] moved to make room for the node built from [d] at [c]
    and for the clone trees [pre] under it, then that node and the
    layout of [pre]. *)
Definition mid (R0 : list node) (D c lvl : Z) (d : gmap string pyval)
    (pre : list ctree) : list node :=
  (moved (2 * (1 + sizes pre)) (c - 1) D <$> R0)
  ++ Node d D lvl c (c + 1 + 2 * sizes pre) :: lay_list D pre (c + 1) (lvl + 1).

Lemma mid_step R0 D c lvl d pre ck :
  (moved (2 * size ck) (c + 1 + 2 * sizes pre - 1) D <$> mid R0 D c lvl d pre)
  ++ lay D ck (c + 1 + 2 * sizes pre) (lvl + 1)
  = mid R0 D c lvl d (pre ++ [ck]).
Proof.
  pose proof (sizes_nonneg pre) as Hpre. pose proof (size_pos ck) as Hck.
  unfold mid. rewrite fmap_app, fmap_cons, <- app_assoc. cbn [app].
  rewrite sizes_app. change (sizes [ck]) with (size ck + 0).
  f_equal; [|f_equal].
  - rewrite <- list_fmap_compose. apply list_fmap_ext. intros _ r _. cbn.
    rewrite moved_moved by lia. f_equal. lia.
  - unfold moved, shift. cbn [tree_id attrs level lft rght].
    rewrite bool_decide_eq_true_2 by done.
    replace (c + 1 + 2 * sizes pre - 1 <? c) with false
      by (symmetry; apply Z.ltb_ge; lia).
    replace (c + 1 + 2 * sizes pre - 1 <? c + 1 + 2 * sizes pre) with true
      by (symmetry; apply Z.ltb_lt; lia).
    f_equal. lia.
  - rewrite lay_list_app. cbn [lay_list]. rewrite app_nil_r. f_equal.
    pose proof (lay_list_bounds D pre (c + 1) (lvl + 1)) as Hb.
    induction Hb as [|r l (_ & ? & ? & ?) _ IH]; [done|].
    rewrite fmap_cons, IH. f_equal. apply moved_below; lia.
Qed.

Lemma mid_nil R0 D c lvl d :
  mid R0 D c lvl d [] = (moved 2 (c - 1) D <$> R0) ++ [Node d D lvl c (c + 1)].
Proof.
  unfold mid. change (sizes []) with 0. cbn [lay_list].
  replace (2 * (1 + 0)) with 2 by lia.
  by replace (c + 1 + 2 * 0) with (c + 1) by lia.
Qed.

Lemma mid_lay R0 D c lvl d ts :
  mid R0 D c lvl d ts
  = (moved (2 * size (CTree d ts)) (c - 1) D <$> R0) ++ lay D (CTree d ts) c lvl.
Proof.
  unfold mid. rewrite lay_eq.
  change (size (CTree d ts)) with (1 + sizes ts). do 3 f_equal. lia.
Qed.

(** ** The keys of the clones *)

(** [uuid4] never gives the same identifier twice, and never an empty
    one. *)
Hypothesis uuid_inj : ∀ i j, uuid i = uuid j → i = j.
Hypothesis uuid_nonempty : ∀ i, uuid i ≠ EmptyString.

(** A key asked for by the caller is new: no row has it, and [uuid4]
    does not give it. *)
Definition pk_ok (pk_ : pyval) (s : state) : Prop :=
  truthy pk_ = true → (∀ r, r ∈ rows s → pk r ≠ pk_) ∧ ∀ j, pk_ ≠ VStr (uuid j).

Lemma drawn_foreign s c0 c' v :
  inv uuid T trows s → (next_uuid s ≤ c0)%nat → drawn c0 c' v →
  (∀ r, r ∈ rows s → pk r ≠ v) ∧ ∀ j, (c' ≤ j)%nat → v ≠ VStr (uuid j).
Proof.
  intros Hi Hc (j0 & Hj0 & ->). split.
  - intros r Hr. apply (inv_fresh _ _ _ _ Hi); [lia|done].
  - intros j Hj Heq. injection Heq as Heq. apply uuid_inj in Heq. lia.
Qed.

Lemma new_id_foreign s pk_ c c' :
  inv uuid T trows s → (next_uuid s ≤ c)%nat → (c < c')%nat → pk_ok pk_ s →
  (∀ r, r ∈ rows s → pk r ≠ new_id pk_ c)
  ∧ (∀ j, (c' ≤ j)%nat → new_id pk_ c ≠ VStr (uuid j))
  ∧ truthy (new_id pk_ c) = true.
Proof.
  intros Hi Hc Hlt Hpk. unfold new_id. destruct (truthy pk_) eqn:Ht.
  - destruct (Hpk Ht) as [H1 H2]. auto.
  - destruct (drawn_foreign s c c' (VStr (uuid c)) Hi Hc) as [H1 H2].
    { exists c. split; [lia|done]. }
    repeat split; [done..|]. cbn. rewrite bool_decide_eq_false_2; [done|].
    apply uuid_nonempty.
Qed.

Lemma not_in_source s v :
  inv uuid T trows s → (∀ r, r ∈ rows s → pk r ≠ v) → v ∉ pk <$> trows.
Proof.
  intros Hi Hv (r & -> & Hr)%list_elem_of_fmap.
  destruct (inv_in_tree s r Hi Hr) as [Hr' _]. by apply (Hv r).
Qed.

Lemma foreign_weaken D c c' r : (c ≤ c')%nat → foreign D c r → foreign D c' r.
Proof.
  intros Hc (? & ? & ? & Hf). repeat split; [done..|]. intros j Hj. apply Hf. lia.
Qed.

Lemma foreign_coords D c d lvl a b lvl' a' b' :
  foreign D c (Node d D lvl a b) → foreign D c (Node d D lvl' a' b').
Proof. done. Qed.

Lemma kid_ok_foreign s D idr c0 c' r :
  inv uuid T trows s → (next_uuid s ≤ c0)%nat → idr ∉ pk <$> trows →
  tree_id r = D → kid_ok idr c0 c' (attrs r) → foreign D c' r.
Proof.
  intros Hi Hc Hidr HD [Hid Hp _].
  destruct (drawn_foreign s c0 c' _ Hi Hc Hid) as [H1 H2].
  repeat split; [done| |  |done].
  - by apply (not_in_source s).
  - destruct Hp as [Hp|Hp].
    + unfold parent_id, attr. unfold item in Hp. by rewrite Hp.
    + destruct (drawn_foreign s c0 c' _ Hi Hc Hp) as [H3 _].
      by apply (not_in_source s).
Qed.

Lemma lay_Forall (P : gmap string pyval → Prop) D t c l :
  Forall P (cdata t) → Forall (λ r, P (attrs r) ∧ tree_id r = D) (lay D t c l).
Proof.
  intros H. rewrite <- (lay_attrs D t c l), Forall_fmap in H.
  pose proof (lay_bounds D t c l) as Hb.
  rewrite Forall_forall in H, Hb. apply Forall_forall. intros r Hr.
  split; [by apply H|]. by destruct (Hb r Hr).
Qed.

Lemma lay_list_Forall (P : gmap string pyval → Prop) D ts c l :
  Forall P (cdata_list ts) →
  Forall (λ r, P (attrs r) ∧ tree_id r = D) (lay_list D ts c l).
Proof.
  intros H. rewrite <- (lay_list_attrs D ts c l), Forall_fmap in H.
  pose proof (lay_list_bounds D ts c l) as Hb.
  rewrite Forall_forall in H, Hb. apply Forall_forall. intros r Hr.
  split; [by apply H|]. by destruct (Hb r Hr).
Qed.

Lemma lay_list_foreign s D idr c0 c' ts c l :
  inv uuid T trows s → (next_uuid s ≤ c0)%nat → idr ∉ pk <$> trows →
  Forall (kid_ok idr c0 c') (cdata_list ts) →
  Forall (foreign D c') (lay_list D ts c l).
Proof.
  intros Hi Hc Hidr H. eapply Forall_impl; [by apply lay_list_Forall|].
  intros r [Hr HD]. by apply (kid_ok_foreign s D idr c0).
Qed.

(** What holds of the root of the clone tree. *)
Record root_ok (p pk_ : pyval) (c : nat) (d : gmap string pyval) : Prop := {
  root_id : item d "id" = new_id pk_ c;
  root_parent : item d "parent_id" = p;
  root_changed : d !! "changed" = Some (VBool true)
}.

Lemma clone_root_ok n p pk_ mods c :
  plain mods →
  root_ok p pk_ c (_clone_node methods_ uuid n p scid ce pk_ mods c).1.
Proof.
  intros Hp. split.
  - by apply clone_id.
  - unfold item. by rewrite clone_parent_id.
  - by apply clone_changed.
Qed.

Lemma root_foreign s D p pk_ c c' d lvl a b :
  inv uuid T trows s → (next_uuid s ≤ c)%nat → (c < c')%nat → pk_ok pk_ s →
  p ∉ pk <$> trows → root_ok p pk_ c d → foreign D c' (Node d D lvl a b).
Proof.
  intros Hi Hc Hlt Hpk Hp [Hid Hpar _].
  destruct (new_id_foreign s pk_ c c' Hi Hc Hlt Hpk) as (H1 & H2 & _).
  unfold foreign, pk, parent_id, attr. cbn [attrs tree_id].
  unfold item in Hid, Hpar. rewrite Hid, Hpar.
  repeat split; [|done..]. by apply (not_in_source s).
Qed.

Lemma clones_ok x c p pk_ mods :
  plain mods →
  ∃ d ts c1,
    (clones c p pk_ mods x).1 = CTree d ts ∧ root_ok p pk_ c d
    ∧ (c < c1)%nat ∧ (c1 ≤ (clones c p pk_ mods x).2)%nat
    ∧ Forall (kid_ok (new_id pk_ c) c1 (clones c p pk_ mods x).2) (cdata_list ts).
Proof.
  intros Hp. destruct x as [n kids]. rewrite clones_eq. cbv zeta. cbn [fst snd].
  eexists _, _, _. split; [reflexivity|].
  split; [by apply clone_root_ok|].
  rewrite clone_id by done.
  destruct (clones_list_ok kids
    (_clone_node methods_ uuid n p scid ce pk_ mods c).2 (new_id pk_ c)) as [Hle Hok].
  split; [|done]. rewrite clone_counter. destruct (truthy pk_); lia.
Qed.

Definition changed_row (r : node) : Prop := attrs r !! "changed" = Some (VBool true).

(** The rows of a clone tree can join the table, and are all marked
    changed. *)
Lemma clones_foreign s D x c p pk_ mods lf lvl :
  inv uuid T trows s → (next_uuid s ≤ c)%nat → plain mods → pk_ok pk_ s →
  p ∉ pk <$> trows →
  Forall (λ r, foreign D (clones c p pk_ mods x).2 r ∧ changed_row r)
         (lay D (clones c p pk_ mods x).1 lf lvl).
Proof.
  intros Hi Hc Hp Hpk Hpar.
  destruct (clones_ok x c p pk_ mods Hp) as (d & ts & c1 & -> & Hroot & H1 & H2 & Hkids).
  destruct (new_id_foreign s pk_ c c1 Hi Hc H1 Hpk) as (Hn1 & Hn2 & _).
  rewrite lay_eq. constructor.
  - split; [|by destruct Hroot].
    apply (root_foreign s D p pk_ c); (done || lia).
  - eapply Forall_impl; [by apply lay_list_Forall|].
    intros r [Hr HD]. split; [|by destruct Hr].
    apply (kid_ok_foreign s D (new_id pk_ c) c1); [done|lia| |done..].
    by apply (not_in_source s).
Qed.

(** ** The target of a copy *)

(** Every row with the key of the target is marked changed already. *)
Definition settled (s : state) (target : option node) : Prop :=
  ∀ t r, target = Some t → r ∈ rows s → pk r = pk t → changed_row r.

(** When the copy makes a tree of its own, the tree id it draws is not in
    use. *)
Definition spare (s : state) (target : option node) : Prop :=
  target = None → ∀ r, r ∈ rows s → tree_id r ≠ next_tree_id s.

Lemma room_moved n target position s :
  spare s target →
  room n target position s
  = moved (2 * n) ((placement target position s).1.2 - 1)
          (placement target position s).1.1 <$> rows s.
Proof.
  intros Hsp. destruct target as [t|]; [done|]. cbn [room placement fst snd].
  specialize (Hsp eq_refl).
  induction (rows s) as [|r l IH]; [done|].
  rewrite fmap_cons, <- IH by (intros r' Hr'; apply Hsp; by right).
  f_equal. symmetry. apply moved_other. apply Hsp. left.
Qed.

Lemma finish_app target old new :
  Forall changed_row new → finish target (old ++ new) = finish target old ++ new.
Proof.
  intros Hnew. destruct target as [t|]; [|done]. cbn [finish].
  rewrite fmap_app. f_equal.
  induction Hnew as [|r l Hr _ IH]; [done|].
  rewrite fmap_cons, IH. f_equal. by apply marked_changed.
Qed.

Lemma finish_settled s target k th D :
  settled s target →
  finish target (moved k th D <$> rows s) = moved k th D <$> rows s.
Proof.
  intros Hset. destruct target as [t|]; [|done]. cbn [finish].
  rewrite <- list_fmap_compose. apply list_fmap_ext. intros i r Hr%list_elem_of_lookup_2.
  cbn. unfold marked. rewrite moved_pk.
  destruct (decide (pk r = pk t)) as [Heq|Hne].
  - rewrite bool_decide_eq_true_2 by done.
    unfold with_attr. rewrite insert_id.
    + by destruct (moved k th D r).
    + rewrite moved_attrs. by apply (Hset t r).
  - by rewrite bool_decide_eq_false_2.
Qed.

(** The rows that were there before the copy of the node [n]: the deep
    copy marks the target as changed, the shallow copy leaves that to
    the [save] of the new node. *)
Definition touched (n : node) (b : Z) (target : option node) (table : list node)
    : list node :=
  if rght n - lft n <? b then finish target table else table.

Lemma touched_settled s n b target k th D :
  settled s target →
  touched n b target (moved k th D <$> rows s) = moved k th D <$> rows s.
Proof.
  intros Hset. unfold touched. destruct (_ <? _); [|done]. by apply finish_settled.
Qed.

Lemma placement_last_child t s :
  placement (Some t) "last-child" s = (tree_id t, rght t, level t + 1).
Proof. unfold placement. by decide_position. Qed.

(** ** The loop over the children of a shallow copy *)

Section children.

Variables (s : state) (D c lvl : Z) (d : gmap string pyval) (c1 : nat).
Hypothesis s_inv : inv uuid T trows s.
Hypothesis D_other : D ≠ T.
Hypothesis c1_later : (next_uuid s ≤ c1)%nat.
Hypothesis d_foreign : foreign D c1 (Node d D lvl c (c + 1)).
Hypothesis d_changed : d !! "changed" = Some (VBool true).
Hypothesis d_new : ∀ r, r ∈ rows s → pk r ≠ item d "id".

Lemma mid_foreign pre ci :
  (c1 ≤ ci)%nat → Forall (kid_ok (item d "id") c1 ci) (cdata_list pre) →
  Forall (foreign D ci)
         (Node d D lvl c (c + 1 + 2 * sizes pre) :: lay_list D pre (c + 1) (lvl + 1)).
Proof.
  intros Hci Hpre. constructor.
  - apply (foreign_weaken D c1); [done|].
    by apply (foreign_coords D c1 d lvl c (c + 1)).
  - apply (lay_list_foreign s D (item d "id") c1); [done..| |done].
    by destruct d_foreign as (_ & ? & _).
Qed.

Lemma mid_inv pre ci tid cs :
  (c1 ≤ ci)%nat → Forall (kid_ok (item d "id") c1 ci) (cdata_list pre) →
  inv uuid T trows (State (mid (rows s) D c lvl d pre) tid ci cs).
Proof.
  intros Hci Hpre. unfold mid. apply inv_place; [done|done|lia|].
  by apply mid_foreign.
Qed.

Lemma mid_filter pre ci :
  (c1 ≤ ci)%nat → Forall (kid_ok (item d "id") c1 ci) (cdata_list pre) →
  filter (λ r, pk r = item d "id") (mid (rows s) D c lvl d pre)
  = [Node d D lvl c (c + 1 + 2 * sizes pre)].
Proof.
  intros Hci Hpre. unfold mid. rewrite filter_app, filter_cons.
  rewrite decide_True by done.
  rewrite filter_none.
  2:{ intros r (r0 & -> & Hr0)%list_elem_of_fmap. rewrite moved_pk. by apply d_new. }
  rewrite filter_none; [done|].
  intros r Hr Heq.
  pose proof (lay_list_Forall _ D pre (c + 1) (lvl + 1) Hpre) as Hl.
  rewrite Forall_forall in Hl. destruct (Hl r Hr) as [[(j & Hj & Hid) _ _] _].
  destruct d_foreign as (_ & _ & _ & Hf).
  apply (Hf j); [lia|]. rewrite <- Hid. symmetry. exact Heq.
Qed.

End children.

(** The state that the copy of the subtree [x] leaves: room is made at
    the placement for the clones of the nodes that are not excluded, and
    their layout is added to the table. *)
Definition after_copy (x : stree) (b : Z) (target target' : option node)
    (position : string) (pk_ : pyval) (mods : option (gmap string pyval))
    (s : state) (cs : list call) : state :=
  let cl := clones (next_uuid s) (id_of target) pk_ mods (prune keys x) in
  let pl := placement target' position s in
  State (touched (root x) b target
                 (moved (2 * size cl.1) (pl.1.2 - 1) pl.1.1 <$> rows s)
         ++ lay pl.1.1 cl.1 pl.1.2 pl.2)
        (drawn_tree target' s) cl.2 (calls s ++ cs).

(** [_copy] on the subtree [x] ends in that state, whatever the batch
    size. *)
Definition copies (x : stree) : Prop :=
  ∀ fuel b target target' position pk_ mods excl s,
    keys_of excl = keys → (depth x < fuel)%nat → inv uuid T trows s →
    refreshed s target target' → (target' = None ∨ child_position position) →
    plain mods → pk_ok pk_ s → spare s target' →
    (placement target' position s).1.1 ≠ T → id_of target ∉ pk <$> trows →
    ∃ res cs,
      _copy fuel (root x) target position scid pk_ mods excl ce b s
      = Ok res (after_copy x b target target' position pk_ mods s cs)
      ∧ progress cs = Z.of_nat (length (flatten (prune keys x))).

Lemma cdata_list_app ts1 ts2 :
  cdata_list (ts1 ++ ts2) = cdata_list ts1 ++ cdata_list ts2.
Proof.
  induction ts1 as [|t ts1 IH]; [done|]. cbn [app cdata_list].
  by rewrite IH, app_assoc.
Qed.

Lemma copy_loop s D c lvl d c1 fuel b excl ks :
  inv uuid T trows s → D ≠ T → (next_uuid s ≤ c1)%nat →
  foreign D c1 (Node d D lvl c (c + 1)) →
  d !! "changed" = Some (VBool true) →
  (∀ r, r ∈ rows s → pk r ≠ item d "id") →
  truthy (item d "id") = true →
  keys_of excl = keys →
  Forall (λ k, (depth k < fuel)%nat ∧ copies k) ks →
  ∀ pre ci tid cs0,
    (c1 ≤ ci)%nat → Forall (kid_ok (item d "id") c1 ci) (cdata_list pre) →
    ∃ cs,
      for_ (root <$> ks)
        (λ child,
           bind (_copy fuel child (Some (Node d D lvl c (c + 1))) "last-child"
                       scid VNone None excl ce b)
                (λ _, ret ()))
        (State (mid (rows s) D c lvl d pre) tid ci cs0)
      = Ok ()
           (State
              (mid (rows s) D c lvl d
                   (pre ++ (clones_list ci (item d "id") (prune keys <$> ks)).1))
              tid (clones_list ci (item d "id") (prune keys <$> ks)).2 (cs0 ++ cs))
      ∧ progress cs
        = Z.of_nat (length (concat (flatten <$> (prune keys <$> ks)))).
Proof.
  intros Hinv HD Hc1 Hfor Hch Hnew Htr Hk Hks.
  induction Hks as [|k ks [Hd Hcop] _ IH]; intros pre ci tid cs0 Hci Hpre.
  { exists []. cbn. by rewrite !app_nil_r. }
  rewrite !fmap_cons. cbn [for_ clones_list]. cbv zeta. cbn [fst snd].
  set (nc := Node d D lvl c (c + 1)).
  set (row := Node d D lvl c (c + 1 + 2 * sizes pre)).
  set (si := State (mid (rows s) D c lvl d pre) tid ci cs0).
  assert (settled si (Some nc)) as Hset.
  { intros t r [= <-] Hr Hpk. cbn [rows si] in Hr.
    assert (r ∈ filter (λ r, pk r = item d "id") (mid (rows s) D c lvl d pre)) as Hf
      by (by apply list_elem_of_filter).
    rewrite (mid_filter s D c lvl d c1) with (ci := ci) in Hf by done.
    apply list_elem_of_singleton in Hf as ->. exact Hch. }
  destruct (Hcop fuel b (Some nc) (Some (seen nc row)) "last-child" VNone None excl si)
    as (res & cs & Hrun & Hprog).
  - done.
  - done.
  - by apply (mid_inv s D c lvl d c1).
  - constructor. split; [done|]. unfold lookup_pk. cbn [rows si].
    change (pk nc) with (item d "id").
    by rewrite (mid_filter s D c lvl d c1) with (ci := ci).
  - right. by left.
  - done.
  - intros [=].
  - intros [=].
  - by rewrite placement_last_child.
  - by destruct Hfor as (_ & ? & _).
  - unfold bind at 1. unfold bind at 1. rewrite Hrun. unfold ret at 1.
    unfold after_copy. rewrite (touched_settled si) by done.
    rewrite placement_last_child. subst row.
    cbn [fst snd seen tree_id rght level attrs next_uuid rows calls si drawn_tree
         next_tree_id id_of].
    change (pk nc) with (item d "id").
    set (ck := clones ci (item d "id") VNone None (prune keys k)).
    rewrite mid_step.
    destruct (clones_kids_ok (prune keys k) ci (item d "id")) as [Hlt Hok].
    fold ck in Hlt, Hok.
    destruct (IH (pre ++ [ck.1]) ck.2 tid (cs0 ++ cs)) as (cs' & Hrun' & Hprog').
    + lia.
    + rewrite cdata_list_app. apply Forall_app. split.
      * eapply Forall_impl; [exact Hpre|]. intros ?. apply kid_ok_weaken; lia.
      * cbn [cdata_list]. rewrite app_nil_r.
        eapply Forall_impl; [exact Hok|]. intros ?. apply kid_ok_weaken; lia.
    + exists (cs ++ cs'). subst nc. rewrite Hrun'. split.
      * by rewrite <- !app_assoc.
      * rewrite progress_app, Hprog, Hprog'. cbn [concat]. rewrite length_app. lia.
Qed.

(** [_copy] clones the subtree less the excluded nodes, and lays the
    clones out at the placement, whether it copies deep, shallow, or
    shallow above and deep below. *)
Lemma copy_run x : wf trows x → ¬ exq (root x) → copies x.
Proof.
  induction x as [n kids IH] using stree_ind'. intros Hwf Hn.
  intros fuel b target target' position pk_ mods excl s
         Hk Hfuel Hinv Href Hpos Hplain Hpk Hsp HD Hid.
  destruct fuel as [|fuel]; [lia|]. cbn [Copy._copy root].
  unfold after_copy, touched. cbn [root].
  destruct (rght n - lft n <? b).
  - destruct (deep_copy_run (STree n kids) fuel target target' position pk_ mods
                excl s Hk Hinv Hwf Hn ltac:(lia) Href) as (cs & Hrun & Hprog).
    cbn [root] in Hrun. rewrite Hrun. eexists _, cs. split; [|done].
    rewrite room_moved by done.
    rewrite finish_app; [done|].
    eapply Forall_impl;
      [apply (clones_foreign s _ _ (next_uuid s) (id_of target) pk_ mods);
       (done || lia)|].
    by intros r [_ ?].
  - set (p := id_of target). set (c0 := next_uuid s).
    set (copy0 := _clone_node methods_ uuid n VNone scid ce pk_ mods c0).
    set (copy := _clone_node methods_ uuid n p scid ce pk_ mods c0).
    assert (copy0.2 = copy.2) as Hcnt by (unfold copy0, copy; by rewrite !clone_counter).
    assert (c0 < copy.2)%nat as Hlt
      by (unfold copy; rewrite clone_counter; destruct (truthy pk_); lia).
    destruct (new_id_foreign s pk_ c0 copy.2 Hinv ltac:(done) Hlt Hpk)
      as (Hn1 & Hn2 & Hn3).
    destruct (shallow_copy_run n target target' position pk_ mods s
                Href Hplain Hn1 Hpos) as (cs1 & Hrun & Hprog1).
    fold c0 copy0 in Hrun.
    assert (inserted copy0.1 target' position s
            = Node copy.1 (placement target' position s).1.1
                   (placement target' position s).2
                   (placement target' position s).1.2
                   ((placement target' position s).1.2 + 1)) as Hnc.
    { unfold inserted. rewrite (refreshed_id _ _ _ Href).
      unfold copy0, copy. by rewrite clone_parent. }
    rewrite Hnc, Hcnt in Hrun. clear Hnc.
    rewrite room_moved in Hrun by done. change (2 * 1) with 2 in Hrun.
    rewrite <- mid_nil in Hrun.
    set (D := (placement target' position s).1.1) in *.
    set (c := (placement target' position s).1.2) in *.
    set (lvl := (placement target' position s).2) in *.
    assert (root_ok p pk_ c0 copy.1) as Hroot by (by apply clone_root_ok).
    assert (item copy.1 "id" = new_id pk_ c0) as Hidr by (by destruct Hroot).
    assert (foreign D copy.2 (Node copy.1 D lvl c (c + 1))) as Hfor
      by (by apply (root_foreign s D p pk_ c0)).
    unfold bind at 1. rewrite Hrun. unfold bind at 1, get at 1.
    rewrite (children_to_copy_kept
               (State (mid (rows s) D c lvl copy.1 []) (drawn_tree target' s)
                      copy.2 (calls s ++ cs1)) n kids excl Hk);
      [|by apply (mid_inv s D c lvl copy.1 copy.2); (done || lia || constructor)
       |done].
    assert (Forall (λ k, (depth k < fuel)%nat ∧ copies k) (kept keys kids)) as Hks.
    { apply Forall_forall. intros k [Hkk Hkey]%kept_elem.
      pose proof (depth_kid n kids k Hkk) as Hdk. split; [lia|].
      rewrite Forall_forall in IH. apply IH; [done| |].
      - inversion Hwf as [? ? _ _ _ _ _ _ _ Hkids]; subst.
        rewrite Forall_forall in Hkids. by apply Hkids.
      - by rewrite (kid_exq n kids k Hwf Hn Hkk). }
    destruct (copy_loop s D c lvl copy.1 copy.2 fuel b excl (kept keys kids)
                Hinv HD ltac:(lia) Hfor (root_changed _ _ _ _ Hroot)
                ltac:(by rewrite Hidr) ltac:(by rewrite Hidr) Hk Hks
                [] copy.2 (drawn_tree target' s) (calls s ++ cs1)
                ltac:(lia) ltac:(constructor)) as (cs2 & Hloop & Hprog2).
    unfold bind at 1. rewrite Hloop. unfold ret.
    eexists _, (cs1 ++ cs2). split.
    + f_equal. rewrite prune_eq, clones_eq. cbv zeta.
      cbn [fst snd]. fold p c0 copy D c lvl.
      rewrite app_nil_l, mid_lay, app_assoc. done.
    + rewrite progress_app, Hprog1, Hprog2, prune_eq. cbn [flatten length]. lia.
Qed.

End source.

End CopyCorrect.

(** * Copies with exclusions, and copies above and below the threshold *)

Module CopyClaims.
Import Clone Store Layout Copy LayoutProps CopyProps CopyCorrect.

(** [uuid4] as a supply of identifiers: never the same one twice, never
    an empty one. *)
Record supply (uuid : uuids) : Prop := {
  supply_inj : ∀ i j, uuid i = uuid j → i = j;
  supply_nonempty : ∀ i, uuid i ≠ EmptyString
}.

(** A request to copy the subtree [x] of the tree [T], whose rows are
    [trows], from the state [s]:
    - the keys of the source tree are distinct, and [x] is a subtree of it
      in nested-set form, in which only topics have children;
    - the root of [x] is not under an excluded node;
    - the target, if there is one, is a row of another tree, and the
      copy goes under it as a child; with no target, the tree id that the
      copy will draw is not in use;
    - the overrides leave [id], [parent_id] and [changed] alone, and the
      key asked for, if any, is new. *)
Record copyable (uuid : uuids) (T : Z) (trows : list node) (x : stree)
    (target target' : option node) (position : string) (pk_ : pyval)
    (mods : option (gmap string pyval)) (excl : option (list pyval))
    (s : state) : Prop := {
  cp_keys : NoDup (pk <$> trows);
  cp_wf : wf trows x;
  cp_root : ¬ exq trows (keys_of excl) (root x);
  cp_inv : inv uuid T trows s;
  cp_target : refreshed s target target';
  cp_position : target' = None ∨ child_position position;
  cp_mods : plain mods;
  cp_pk : pk_ok uuid pk_ s;
  cp_spare : spare s target';
  cp_other : (placement target' position s).1.1 ≠ T;
  cp_parent : id_of target ∉ pk <$> trows
}.

(** The nodes of the subtree that lie under no excluded node. *)
Definition kept_nodes (trows : list node) (excl : option (list pyval)) (x : stree)
    : list node :=
  filter (λ y, ¬ exq trows (keys_of excl) y) (flatten x).

(** The clone tree of those nodes, as [_clone_node] builds it node by
    node. *)
Definition clone_tree (methods_ : methods) (uuid : uuids) (x : stree)
    (target : option node) (pk_ : pyval) (mods : option (gmap string pyval))
    (excl : option (list pyval)) (ce : pyval) (s : state) : ctree :=
  (clones uuid methods_ (get_channel_id methods_ (root x)) ce (next_uuid s)
          (id_of target) pk_ mods (prune (keys_of excl) x)).1.

(** The rows of the copy: the layout of the clone tree at the
    placement. *)
Definition copied_rows (methods_ : methods) (uuid : uuids) (x : stree)
    (target target' : option node) (position : string) (pk_ : pyval)
    (mods : option (gmap string pyval)) (excl : option (list pyval))
    (ce : pyval) (s : state) : list node :=
  lay (placement target' position s).1.1
      (clone_tree methods_ uuid x target pk_ mods excl ce s)
      (placement target' position s).1.2 (placement target' position s).2.

Lemma refreshed_state s s0 target target' :
  refreshed s target target' → rows s0 = rows s → refreshed s0 target target'.
Proof.
  intros [|t trow [Ht Hr]] Hrows; constructor. split; [done|]. by rewrite Hrows.
Qed.

Lemma touched_length n b target (table : list node) :
  length (touched n b target table) = length table.
Proof.
  unfold touched, finish. destruct (_ <? _); [|done].
  destruct target; [|done]. by rewrite length_fmap.
Qed.

Lemma marked_twice id_ r : marked id_ (marked id_ r) = marked id_ r.
Proof.
  unfold marked. destruct (bool_decide (pk r = id_)) eqn:E; [|by rewrite E].
  assert (pk (with_attr "changed" (VBool true) r) = pk r) as Hpk
    by (unfold pk, attr, with_attr; cbn [attrs]; by rewrite lookup_insert_ne).
  rewrite Hpk, E. unfold with_attr. cbn [attrs tree_id level lft rght].
  by rewrite insert_insert_eq.
Qed.

Lemma finish_touched n b target table :
  finish target (touched n b target table) = finish target table.
Proof.
  unfold touched. destruct (_ <? _); [|done].
  destruct target as [t|]; [|done]. cbn [finish].
  rewrite <- list_fmap_compose. apply list_fmap_ext. intros _ r _. cbn.
  apply marked_twice.
Qed.

(** What [copy_node] does with a request that is [copyable]: the total
    is set to the number of nodes kept, and [_copy] leaves the table with
    the rows of the copy at its end. *)
Lemma copy_node_run methods_ uuid T trows x fuel target target' position pk_ mods
    excl ce batch s :
  supply uuid →
  copyable uuid T trows x target target' position pk_ mods excl s →
  (depth x < fuel)%nat →
  ∃ res old cs,
    copy_node methods_ uuid fuel (root x) target position pk_ mods excl ce batch s
    = Ok res
         (State (old ++ copied_rows methods_ uuid x target target' position pk_
                                    mods excl ce s)
                (drawn_tree target' s)
                (clones uuid methods_ (get_channel_id methods_ (root x)) ce
                        (next_uuid s) (id_of target) pk_ mods
                        (prune (keys_of excl) x)).2
                (calls s
                 ++ CSetTotal (Z.of_nat (length (kept_nodes trows excl x))) :: cs))
    ∧ length old = length (rows s)
    ∧ finish target old
      = finish target
          (room (size (clone_tree methods_ uuid x target pk_ mods excl ce s))
                target' position s)
    ∧ progress cs = Z.of_nat (length (kept_nodes trows excl x)).
Proof.
  intros [Hinj Hne] [Hkeys Hwf Hroot Hinv Href Hpos Hmods Hpk Hsp HD Hpar] Hfuel.
  unfold copy_node. unfold bind at 1.
  rewrite (all_nodes_to_copy_inv uuid T trows s) by (done || by destruct Hwf).
  unfold bind at 1, record at 1, modify.
  set (s0 := State (rows s) (next_tree_id s) (next_uuid s) _).
  destruct (copy_run uuid T trows (keys_of excl) Hkeys methods_
              (get_channel_id methods_ (root x)) ce Hinj Hne x Hwf Hroot
              fuel (default BATCH_SIZE batch) target target' position pk_ mods
              excl s0) as (res & cs & Hrun & Hprog); try done.
  - by apply (inv_same uuid T trows s).
  - by apply (refreshed_state s).
  - rewrite Hrun. unfold after_copy. cbn [rows next_uuid calls s0].
    rewrite (placement_state _ _ s s0), (drawn_tree_state _ s s0) by done.
    assert (length (nodes_to_copy trows (keys_of excl) (root x))
            = length (kept_nodes trows excl x)) as ->.
    { unfold kept_nodes. rewrite prune_flatten by done.
      by rewrite (nodes_to_copy_flatten trows (keys_of excl) Hkeys x Hwf Hroot). }
    eexists res, _, cs. split; [|split; [|split]].
    + rewrite <- app_assoc. reflexivity.
    + by rewrite touched_length, length_fmap.
    + rewrite finish_touched, room_moved by done. reflexivity.
    + rewrite Hprog. unfold kept_nodes. by rewrite prune_flatten.
Qed.

Lemma kept_nodes_count trows excl x :
  Z.of_nat (length (kept_nodes trows excl x))
  = Z.of_nat (length (flatten x))
    - Z.of_nat (length (filter (λ y, exq trows (keys_of excl) y) (flatten x))).
Proof.
  unfold kept_nodes. induction (flatten x) as [|y l IH]; [done|].
  rewrite !filter_cons. destruct (decide (exq trows (keys_of excl) y)).
  - rewrite decide_False by tauto. cbn [length]. lia.
  - rewrite decide_True by done. cbn [length]. lia.
Qed.

(** ** A channel to copy, and a channel to copy it into *)

Definition row (tree : Z) (id_ kind : string) (parent : pyval) (l r lv : Z) : node :=
  Node (list_to_map [("id", VStr id_); ("node_id", VStr ("n-" +:+ id_));
                     ("parent_id", parent); ("kind_id", VStr kind);
                     ("title", VStr id_)])
       tree lv l r.

Definition science : node := row 1 "R" "topic" VNone 1 12 0.
Definition physics : node := row 1 "A" "topic" (VStr "R") 2 9 1.
Definition optics : node := row 1 "a1" "video" (VStr "A") 3 4 2.
Definition waves : node := row 1 "a2" "video" (VStr "A") 5 6 2.
Definition heat : node := row 1 "a3" "video" (VStr "A") 7 8 2.
Definition biology : node := row 1 "B" "video" (VStr "R") 10 11 1.

Definition source_rows : list node :=
  [science; physics; optics; waves; heat; biology].

Definition source_tree : stree :=
  STree science
    [STree physics [STree optics []; STree waves []; STree heat []];
     STree biology []].

Definition shelf : node := row 2 "D" "topic" VNone 1 4 0.
Definition shelved : node := row 2 "d1" "video" (VStr "D") 2 3 1.

Definition start : state := State (source_rows ++ [shelf; shelved]) 3 0 [].

Definition studio : methods :=
  {| get_original_node := λ n, n;
     get_channel := λ _, Some (VStr "channel");
     get_channel_id := λ _, VStr "channel" |}.

Definition ids : uuids := λ n, "u" +:+ pretty n.

(** The rows that a run of [copy_node] from [start] added, none if it
    failed. *)
Definition new_rows (r : res (list node)) : list node :=
  match r with
  | Ok _ s => drop (length (rows start)) (rows s)
  | _ => []
  end.

(** The totals that the run set. *)
Definition totals (r : res (list node)) : list Z :=
  match r with
  | Ok _ s => omap (λ c, match c with CSetTotal n => Some n | _ => None end) (calls s)
  | _ => []
  end.

Lemma ids_supply : supply ids.
Proof.
  split.
  - intros i j H. unfold ids in H. cbn in H. injection H as H.
    by apply (inj pretty).
  - intros i. unfold ids. cbn. discriminate.
Qed.

Lemma wf_intro trows n kids :
  n ∈ trows → lft n ≤ rght n →
  filter (λ r, parent_id r = pk n) trows = root <$> kids →
  StronglySorted lft_lt (root <$> kids) →
  (kids ≠ [] → is_leaf_node n = false ∧ kind_id n = TOPIC) →
  filter (λ y, under n y = true) trows = flatten (STree n kids) →
  Forall (λ k, Forall (λ e, under e (root k) = true →
                            e = root k ∨ under e n = true) trows) kids →
  Forall (wf trows) kids →
  wf trows (STree n kids).
Proof.
  intros H1 H2 H3 H4 H5 H6 H7 H8. constructor; try done.
  - by rewrite H3.
  - by rewrite H6.
  - eapply Forall_impl; [exact H7|]. intros k Hk e He.
    rewrite Forall_forall in Hk. by apply Hk.
Qed.

Ltac each t :=
  lazymatch goal with
  | |- Forall _ [] => once constructor
  | |- Forall _ (_ :: _) => once constructor; [t | each t]
  | |- Forall ?P ?l => let l' := eval hnf in l in change (Forall P l'); each t
  end.

Ltac wf_leaf :=
  apply wf_intro;
  [ repeat constructor | cbn; lia | vm_compute; reflexivity | constructor
  | intros H; by destruct H | vm_compute; reflexivity | constructor | constructor ].

Ltac wf_above :=
  intros H; vm_compute in H;
  first [ discriminate H | left; reflexivity | right; vm_compute; reflexivity ].

Lemma source_tree_wf : wf source_rows source_tree.
Proof.
  apply wf_intro.
  - repeat constructor.
  - cbn; lia.
  - vm_compute; reflexivity.
  - repeat constructor; unfold lft_lt; cbn; lia.
  - intros _. split; vm_compute; reflexivity.
  - vm_compute; reflexivity.
  - each ltac:(idtac; each wf_above).
  - constructor; [|constructor; [|constructor]].
    + apply wf_intro.
      * repeat constructor.
      * cbn; lia.
      * vm_compute; reflexivity.
      * repeat constructor; unfold lft_lt; cbn; lia.
      * intros _. split; vm_compute; reflexivity.
      * vm_compute; reflexivity.
      * each ltac:(idtac; each wf_above).
      * each wf_leaf.
    + wf_leaf.
Qed.

Ltac by_computation := apply (bool_decide_unpack _); vm_compute; exact I.

Lemma start_inv : inv ids 1 source_rows start.
Proof.
  split.
  - vm_compute; reflexivity.
  - assert (Forall (λ r, tree_id r ≠ 1 →
                         (pk r ∉ pk <$> source_rows) ∧ (parent_id r ∉ pk <$> source_rows))
                   (rows start)) as H.
    { each ltac:(idtac; intros H; first [by destruct H | split; by_computation]). }
    rewrite Forall_forall in H. exact H.
  - assert (Forall (λ r, ∀ k, pk r ≠ VStr (ids k)) (rows start)) as H.
    { each ltac:(idtac; intros k H;
        apply (f_equal (λ v, match v with
                             | VStr (String a _) => Some a
                             | _ => None
                             end)) in H;
        vm_compute in H; discriminate H). }
    rewrite Forall_forall in H. intros k r _ Hr. by apply H.
Qed.

Lemma start_copyable mods excl :
  plain mods → ¬ exq source_rows (keys_of excl) science →
  copyable ids 1 source_rows source_tree (Some shelf) (Some shelf) "last-child"
           VNone mods excl start.
Proof.
  intros Hmods Hroot. split.
  - by_computation.
  - apply source_tree_wf.
  - exact Hroot.
  - apply start_inv.
  - change (Some shelf) with (Some (seen shelf shelf)) at 2.
    constructor. split; vm_compute; reflexivity.
  - right. by left.
  - exact Hmods.
  - intros [=].
  - intros [=].
  - vm_compute. discriminate.
  - by_computation.
Qed.

(** The total as the sum of the sizes of the excluded subtrees gives it:
    the size of the subtree of [n], less the size of the subtree of each
    descendant whose [node_id] is excluded. *)
Definition subtree_size (table : list node) (n : node) : Z :=
  Z.of_nat (length (get_descendants table n)).

Definition total_by_sum (table : list node) (n : node) (keys : list pyval) : Z :=
  subtree_size table n
  - foldr Z.add 0
      (subtree_size table
         <$> filter (λ e, node_id e ∈ keys) (get_descendants table n)).

(** Overrides that ask for a copy that is not marked as changed. *)
Definition quiet : gmap string pyval := {[ "changed" := VBool false ]}.

(** An exercise that has a child, against the rule that only topics
    do. *)
Definition quiz : node := row 1 "Q" "exercise" VNone 1 4 0.
Definition question : node := row 1 "q1" "video" (VStr "Q") 2 3 1.
Definition quiz_start : state := State [quiz; question] 2 0 [].

(** A channel in which the topic [chapter] of six nodes is copied under the
    topic [inbox], which lies before it in the same tree. *)
Definition crowded : state :=
  State [row 1 "R" "topic" VNone 1 16 0;
         row 1 "T" "topic" (VStr "R") 2 3 1;
         row 1 "A" "topic" (VStr "R") 4 15 1;
         row 1 "P" "topic" (VStr "A") 5 8 2;
         row 1 "p1" "video" (VStr "P") 6 7 3;
         row 1 "Q" "topic" (VStr "A") 9 12 2;
         row 1 "q1" "video" (VStr "Q") 10 11 3;
         row 1 "z" "video" (VStr "A") 13 14 2]
        2 0 [].
Definition inbox : node := row 1 "T" "topic" (VStr "R") 2 3 1.
Definition chapter : node := row 1 "A" "topic" (VStr "R") 4 15 1.

(** ** The claims *)







(** Nor does it hold when a node that is not a topic has children: the
    deep copy leaves them out, the shallow copies take them along. *)
Lemma copy_node_threshold_children :
  (∃ res s', copy_node studio ids 10 quiz None "last-child" VNone None None
               (VBool false) None quiz_start = Ok res s'
             ∧ length (rows s') = 3%nat)
  ∧ (∃ res s', copy_node studio ids 10 quiz None "last-child" VNone None None
                 (VBool false) (Some 1) quiz_start = Ok res s'
               ∧ length (rows s') = 4%nat).
Proof. split; eexists _, _; split; vm_compute; reflexivity. Qed.

(** Nor for a copy to the left or to the right of the target: the deep
    copy stores the key of the target as the parent, [insert_node] the
    parent of the target. *)
Lemma copy_node_threshold_sibling :
  parent_id <$> new_rows (copy_node studio ids 10 biology (Some shelved) "right"
                            VNone None None (VBool false) None start)
  = [VStr "d1"]
  ∧ parent_id <$> new_rows (copy_node studio ids 10 biology (Some shelved) "right"
                              VNone None None (VBool false) (Some 1) start)
    = [VStr "D"].
Proof. split; vm_compute; reflexivity. Qed.

(** Nor for a copy within one tree to a place before the source: once
    the first child is copied, the rows of the source have moved, and the
    deep copy of the next child reads its descendants at the coordinates
    the child had when the loop started. Here the deep copy adds six rows,
    the copy with batch size 4 only five. *)
Lemma copy_node_threshold_same_tree :
  (∃ res s', copy_node studio ids 10 chapter (Some inbox) "last-child" VNone None
               None (VBool false) None crowded = Ok res s'
             ∧ length (rows s') = (length (rows crowded) + 6)%nat)
  ∧ (∃ res s', copy_node studio ids 10 chapter (Some inbox) "last-child" VNone None
                 None (VBool false) (Some 4) crowded = Ok res s'
               ∧ length (rows s') = (length (rows crowded) + 5)%nat).
Proof. split; eexists _, _; split; vm_compute; reflexivity. Qed.

End CopyClaims.

(** * Runs of the lock manager and of the operations under it *)

Module LockRuns.
Import Lock LockProps Move.

(** [partial_rebuild(tree_id)]: mptt's rebuild of one tree, under the
    lock of that tree. *)
Definition partial_rebuild (m : model) (tree_id : Z) : gen :=
  with_ (lock_mptt m [Some tree_id]) (call "partial_rebuild").

Lemma normalize_empty ids : (∀ t, Some t ∉ ids) → normalize ids = [].
Proof.
  intros H. destruct (normalize ids) as [|t l] eqn:E; [done|].
  destruct (H t). apply normalize_elem_of. rewrite E. left.
Qed.

Lemma with_yield body s : run (with_ yield_ body) s = run body s.
Proof.
  cbn [with_ yield_]. rewrite run_run_block.
  destruct (run body s) as [t [|e|] r]; cbn [trace ending rest exit_clean exit_throw run];
    unfold before; cbn [trace ending rest]; by rewrite app_nil_r.
Qed.

(** When mptt is tracking delayed updates, when mptt updates are
    disabled, or when no tree id is given ([None] apart), [lock_mptt]
    opens no transaction, takes no lock and logs nothing: the block runs
    as it would on its own. *)
Theorem lock_mptt_without_locking m ids body s :
  _mptt_is_tracking m = true ∨ _mptt_updates_enabled m = false
  ∨ (∀ t, Some t ∉ ids) →
  run (with_ (lock_mptt m ids) body) s = run body s.
Proof.
  intros H. unfold lock_mptt.
  assert (locking m (normalize ids) = false) as ->.
  { unfold locking. destruct H as [->|[->|H]]; [done|by rewrite andb_false_r|].
    rewrite (normalize_empty ids H). by rewrite andb_false_r. }
  apply with_yield.
Qed.

Lemma lock_mptt_without_locking_witness :
  run (with_ (lock_mptt studio_model [None; None]) (Emit (EBody 0) (Raise deadlock)))
      [Some deadlock]
  = run (Emit (EBody 0) (Raise deadlock)) [Some deadlock].
Proof.
  apply (lock_mptt_without_locking studio_model [None; None]).
  right. right. intros t Ht.
  rewrite !elem_of_cons, elem_of_nil in Ht. by destruct Ht as [|[|]].
Defined.

Lemma run_locked_done m ids body s t s' :
  locking m (normalize ids) = true →
  run body s = Result t Done s' →
  run (with_ (lock_mptt m ids) body) (replicate (length (normalize ids)) None ++ s)
  = Result (EAtomicEnter :: selects (normalize ids) (lock_values m)
            ++ t ++ [ELogLockTime; EAtomicCommit])
           Done s'.
Proof.
  intros Hl Hrun. rewrite run_first_ok by done.
  rewrite run_run_block, Hrun. cbn [trace ending rest held exit_clean run after].
  unfold before, after. cbn [trace ending rest]. done.
Qed.

Lemma run_locked_failed m ids body s t e s' :
  locking m (normalize ids) = true →
  run body s = Result t (Failed e) s' →
  is_deadlock e = false →
  run (with_ (lock_mptt m ids) body) (replicate (length (normalize ids)) None ++ s)
  = Result (EAtomicEnter :: selects (normalize ids) (lock_values m)
            ++ t ++ [EAtomicRollback])
           (Failed (reraised e)) s'.
Proof.
  intros Hl Hrun He. rewrite run_first_ok by done.
  rewrite run_run_block, Hrun. cbn [trace ending rest held exit_throw].
  rewrite on_error_other by done. cbn [exit_throw run after].
  unfold before, after. cbn [trace ending rest]. done.
Qed.

(** When the locks are taken and the block completes, the run is one
    transaction: the lock statements in ascending order, the block, the
    log of the time spent, the commit. *)
Theorem lock_mptt_commits m ids body s t s' :
  locking m (normalize ids) = true →
  run body s = Result t Done s' →
  run (with_ (lock_mptt m ids) body) (replicate (length (normalize ids)) None ++ s)
  = Result (EAtomicEnter :: selects (normalize ids) (lock_values m)
            ++ t ++ [ELogLockTime; EAtomicCommit])
           Done s'.
Proof. apply run_locked_done. Qed.

Lemma lock_mptt_commits_witness :
  run (with_ (lock_mptt studio_model [Some 3; None; Some 1]) (Emit (EBody 0) Return))
      [None; None]
  = Result [EAtomicEnter;
            ESelectForUpdate 1 (lock_values studio_model);
            ESelectForUpdate 3 (lock_values studio_model);
            EBody 0; ELogLockTime; EAtomicCommit]
           Done [].
Proof.
  apply (lock_mptt_commits studio_model [Some 3; None; Some 1]
           (Emit (EBody 0) Return) [] [EBody 0%nat] []); reflexivity.
Defined.

(** When the block fails with anything but a deadlock, the transaction
    is rolled back and the failure reaches the caller: nothing is
    retried, and the time spent under the lock is not logged.  An
    [OperationalError] without arguments, or whose first argument is not
    a string, is replaced by the error of the handler that inspects
    it. *)
Theorem lock_mptt_rolls_back m ids body s t e s' :
  locking m (normalize ids) = true →
  run body s = Result t (Failed e) s' →
  is_deadlock e = false →
  run (with_ (lock_mptt m ids) body) (replicate (length (normalize ids)) None ++ s)
  = Result (EAtomicEnter :: selects (normalize ids) (lock_values m)
            ++ t ++ [EAtomicRollback])
           (Failed (reraised e)) s'.
Proof. apply run_locked_failed. Qed.

Lemma lock_mptt_rolls_back_witness :
  run (with_ (lock_mptt studio_model [Some 1]) (Emit (EBody 0) (Raise (OperationalError []))))
      [None]
  = Result [EAtomicEnter; ESelectForUpdate 1 (lock_values studio_model);
            EBody 0; EAtomicRollback]
           (Failed IndexError) [].
Proof.
  apply (lock_mptt_rolls_back studio_model [Some 1]
           (Emit (EBody 0) (Raise (OperationalError []))) []
           [EBody 0%nat] (OperationalError []) []); reflexivity.
Defined.

(** ** [move_node] and [partial_rebuild] under the lock *)

Definition move_calls : list event :=
  [ECall "_mptt_refresh"; ECall "_move_node"; ECall "save"].

(** The calls that [move_node] makes inside the lock, on their own. *)
Definition move_body : gen :=
  seq (call "_mptt_refresh") (seq (call "_move_node") (call "save")).

Lemma run_move_body_ok s :
  run move_body (None :: None :: None :: s) = Result move_calls Done s.
Proof. reflexivity. Qed.

Lemma run_move_body_fail j e s :
  (j < 3)%nat →
  run move_body (replicate j None ++ Some e :: s)
  = Result (take (S j) move_calls) (Failed e) s.
Proof.
  intros Hj. destruct j as [|[|[|j]]]; [reflexivity..|lia].
Qed.

Lemma run_seq_done g1 g2 s t s' :
  run g1 s = Result t Done s' → run (seq g1 g2) s = before t (run g2 s').
Proof.
  revert s t. induction g1 as [| | ev k IH | ev k IH | k IH]; intros s t;
    cbn [run seq]; unfold after.
  - intros [= <- <-]. by rewrite before_nil.
  - done.
  - destruct (run k s) as [t0 o r] eqn:E. cbn [trace ending rest].
    intros [= <- -> ->]. by rewrite (IH s t0 E).
  - destruct (run (k (hd None s)) (tl s)) as [t0 o r] eqn:E. cbn [trace ending rest].
    intros [= <- -> ->]. by rewrite (IH _ _ t0 E).
  - done.
Qed.

Lemma run_seq_failed g1 g2 s t e s' :
  run g1 s = Result t (Failed e) s' → run (seq g1 g2) s = Result t (Failed e) s'.
Proof.
  revert s t. induction g1 as [| | ev k IH | ev k IH | k IH]; intros s t;
    cbn [run seq]; unfold after.
  - done.
  - done.
  - destruct (run k s) as [t0 o r] eqn:E. cbn [trace ending rest].
    intros [= <- -> ->]. by rewrite (IH s t0 E).
  - destruct (run (k (hd None s)) (tl s)) as [t0 o r] eqn:E. cbn [trace ending rest].
    intros [= <- -> ->]. by rewrite (IH _ _ t0 E).
  - done.
Qed.

(** A move that meets no failure: the trees of the node and of the
    target are locked, each once and in ascending order, the node is
    refreshed, moved and saved inside the transaction, and the
    [node_moved] signal is sent once the transaction has committed. *)
Theorem move_node_signals_after_commit m node target position s :
  locking m (normalize [Some (Clone.tree_id node); Some (Clone.tree_id target)]) = true →
  run (move_node m node (Some target) position)
      (replicate (length (normalize [Some (Clone.tree_id node);
                                     Some (Clone.tree_id target)])) None
       ++ None :: None :: None :: s)
  = Result (EAtomicEnter
            :: selects (normalize [Some (Clone.tree_id node);
                                   Some (Clone.tree_id target)]) (lock_values m)
            ++ move_calls
            ++ [ELogLockTime; EAtomicCommit; ESignal "node_moved"])
           Done s.
Proof.
  intros Hl. cbn [move_node]. fold move_body.
  rewrite (run_seq_done _ _ _ _ s
             (run_locked_done m _ move_body _ move_calls s Hl (run_move_body_ok s))).
  unfold before. cbn [run after trace ending rest].
  rewrite app_comm_cons, <- !app_assoc. done.
Qed.

Lemma move_node_signals_after_commit_witness :
  run (move_node studio_model (Clone.Node ∅ 4 0 1 2) (Some (Clone.Node ∅ 2 0 1 2))
                 "last-child")
      [None; None; None; None; None]
  = Result [EAtomicEnter;
            ESelectForUpdate 2 (lock_values studio_model);
            ESelectForUpdate 4 (lock_values studio_model);
            ECall "_mptt_refresh"; ECall "_move_node"; ECall "save";
            ELogLockTime; EAtomicCommit; ESignal "node_moved"]
           Done [].
Proof.
  apply (move_node_signals_after_commit studio_model (Clone.Node ∅ 4 0 1 2)
           (Clone.Node ∅ 2 0 1 2) "last-child" []).
  reflexivity.
Defined.

(** A move in which the refresh, the move or the save fails with
    anything but a deadlock: the calls after the failing one are not
    made, the transaction is rolled back, the failure reaches the caller,
    and no [node_moved] signal is sent. *)
Theorem move_node_failure_sends_no_signal m node target position j e s :
  locking m (normalize [Some (Clone.tree_id node); Some (Clone.tree_id target)]) = true →
  (j < 3)%nat → is_deadlock e = false →
  run (move_node m node (Some target) position)
      (replicate (length (normalize [Some (Clone.tree_id node);
                                     Some (Clone.tree_id target)])) None
       ++ replicate j None ++ Some e :: s)
  = Result (EAtomicEnter
            :: selects (normalize [Some (Clone.tree_id node);
                                   Some (Clone.tree_id target)]) (lock_values m)
            ++ take (S j) move_calls ++ [EAtomicRollback])
           (Failed (reraised e)) s.
Proof.
  intros Hl Hj He. cbn [move_node]. fold move_body.
  apply run_seq_failed.
  by apply (run_locked_failed m _ move_body _ _ e s Hl (run_move_body_fail j e s Hj)).
Qed.

Lemma move_node_failure_sends_no_signal_witness :
  run (move_node studio_model (Clone.Node ∅ 4 0 1 2) (Some (Clone.Node ∅ 4 1 2 3))
                 "first-child")
      [None; None; Some IntegrityError]
  = Result [EAtomicEnter; ESelectForUpdate 4 (lock_values studio_model);
            ECall "_mptt_refresh"; ECall "_move_node"; EAtomicRollback]
           (Failed IntegrityError) [].
Proof.
  apply (move_node_failure_sends_no_signal studio_model (Clone.Node ∅ 4 0 1 2)
           (Clone.Node ∅ 4 1 2 3) "first-child" 1 IntegrityError []).
  - reflexivity.
  - lia.
  - reflexivity.
Defined.

Lemma normalize_singleton t : normalize [Some t] = [t].
Proof.
  pose proof (normalize_NoDup [Some t]) as Hn.
  pose proof (normalize_elem_of [Some t]) as He.
  destruct (normalize [Some t]) as [|a [|b l]].
  - assert (t ∈ @nil Z) as H by (apply He; left). by apply elem_of_nil in H.
  - f_equal. assert (Some a ∈ [Some t]) as Ha by (apply He; left).
    apply list_elem_of_singleton in Ha. by injection Ha.
  - assert (Some a ∈ [Some t]) as Ha by (apply He; left).
    assert (Some b ∈ [Some t]) as Hb by (apply He; right; left).
    apply list_elem_of_singleton in Ha, Hb. simplify_eq.
    apply NoDup_cons in Hn as [Hn _]. destruct Hn. left.
Qed.

(** [partial_rebuild] locks the tree it rebuilds, and no other: the
    rebuild runs inside one transaction that holds that lock, and is
    committed when it succeeds; when it fails with anything but a
    deadlock the transaction is rolled back and the failure reaches the
    caller. *)
Theorem partial_rebuild_locks_its_tree m tree_id s :
  _mptt_is_tracking m = false → _mptt_updates_enabled m = true →
  run (partial_rebuild m tree_id) (None :: None :: s)
  = Result [EAtomicEnter; ESelectForUpdate tree_id (lock_values m);
            ECall "partial_rebuild"; ELogLockTime; EAtomicCommit]
           Done s
  ∧ ∀ e, is_deadlock e = false →
         run (partial_rebuild m tree_id) (None :: Some e :: s)
         = Result [EAtomicEnter; ESelectForUpdate tree_id (lock_values m);
                   ECall "partial_rebuild"; EAtomicRollback]
                  (Failed (reraised e)) s.
Proof.
  intros Ht Hu.
  assert (locking m (normalize [Some tree_id]) = true) as Hl
    by (unfold locking; by rewrite Ht, Hu, normalize_singleton).
  unfold partial_rebuild. split.
  - pose proof (run_locked_done m [Some tree_id] (call "partial_rebuild")
                  (None :: s) [ECall "partial_rebuild"] s Hl eq_refl) as H.
    by rewrite normalize_singleton in H.
  - intros e He.
    pose proof (run_locked_failed m [Some tree_id] (call "partial_rebuild")
                  (Some e :: s) [ECall "partial_rebuild"] e s Hl eq_refl He) as H.
    by rewrite normalize_singleton in H.
Qed.

Lemma partial_rebuild_locks_its_tree_witness :
  run (partial_rebuild studio_model 7) [None; None]
  = Result [EAtomicEnter; ESelectForUpdate 7 (lock_values studio_model);
            ECall "partial_rebuild"; ELogLockTime; EAtomicCommit]
           Done [].
Proof.
  apply (partial_rebuild_locks_its_tree studio_model 7 []); reflexivity.
Defined.

End LockRuns.

(** * What a clone carries *)

Module CloneFacts.
Import Clone CloneProps CopyCorrect.

(** The attributes that [get_source_attributes] reads off the source. *)
Definition source_keys : list string :=
  ["content_id"; "kind_id"; "title"; "description"; "language_id"; "license_id";
   "license_description"; "thumbnail_encoding"; "extra_fields"; "copyright_holder";
   "author"; "provider"; "role_visibility"].

(** The overrides, if any, do not bind [k]. *)
Definition unbound (mods : option (gmap string pyval)) (k : string) : Prop :=
  match mods with Some m => m !! k = None | None => True end.

Lemma each_key (P : string → Prop) (l : list string) k :
  Forall P l → k ∈ l → P k.
Proof. rewrite Forall_forall. auto. Qed.

Lemma before_backfill_unbound uuid scid ce n parent pk_ mods c k :
  unbound mods k →
  before_backfill uuid scid ce n parent pk_ mods c !! k
  = (update (clone_defaults uuid n parent scid ce pk_ c).1
            (get_source_attributes n)) !! k.
Proof.
  intros Hm. unfold before_backfill. cbv zeta.
  destruct mods as [m|]; [|done]. unfold update at 1. by rewrite lookup_union_r.
Qed.

Lemma source_attribute_lookup n k :
  k ∈ source_keys → get_source_attributes n !! k = Some (attr n k).
Proof.
  intros Hk.
  apply (each_key (λ k, get_source_attributes n !! k = Some (attr n k)) source_keys);
    [|done].
  unfold source_keys. repeat constructor.
Qed.

Lemma source_attribute_none n k :
  k ∉ source_keys → get_source_attributes n !! k = None.
Proof.
  intros Hk. unfold source_keys in Hk. unfold get_source_attributes.
  apply not_elem_of_list_to_map_1. cbn. exact Hk.
Qed.

(** The clone carries the thirteen content attributes of its source as
    the source has them, each one unless the overrides bind it. *)
Theorem clone_node_copies_source_attributes M uuid source parent_id sc ce pk_ mods c k :
  k ∈ source_keys → unbound mods k →
  (_clone_node M uuid source parent_id sc ce pk_ mods c).1 !! k
  = Some (attr source k).
Proof.
  intros Hk Hm. rewrite clone_node_eq. cbn [fst].
  rewrite backfill_lookup_other.
  - rewrite before_backfill_unbound by done.
    apply update_lookup. by apply source_attribute_lookup.
  - intros ->. revert Hk. unfold source_keys. set_solver.
  - intros ->. revert Hk. unfold source_keys. set_solver.
Qed.

Lemma clone_node_copies_source_attributes_witness :
  (_clone_node sample_methods sample_uuid sample_source VNone (VStr "channel-b")
     (VBool true) VNone (Some {[ "title" := VStr "Renamed" ]}) 0).1 !! "kind_id"
  = Some (attr sample_source "kind_id").
Proof.
  apply (clone_node_copies_source_attributes sample_methods sample_uuid
           sample_source VNone (VStr "channel-b") (VBool true) VNone
           (Some {[ "title" := VStr "Renamed" ]}) 0 "kind_id").
  - unfold source_keys. set_solver.
  - reflexivity.
Defined.

Lemma clone_default_lookup M uuid source parent_id sc ce pk_ mods c k :
  k ∉ source_keys → unbound mods k →
  k ≠ "original_channel_id" → k ≠ "original_source_node_id" →
  (_clone_node M uuid source parent_id sc ce pk_ mods c).1 !! k
  = (clone_defaults uuid source parent_id sc ce pk_ c).1 !! k.
Proof.
  intros Hk Hm H1 H2. rewrite clone_node_eq. cbn [fst].
  rewrite backfill_lookup_other, before_backfill_unbound by done.
  unfold update. rewrite lookup_union_r; [done|]. by apply source_attribute_none.
Qed.

Ltac not_a_source_key := unfold source_keys; set_solver.

(** The clone is a new node linked to its source: its key is the key
    asked for, or a new identifier when none is asked for; its [node_id]
    is always a new identifier, drawn after the key; [cloned_source] is
    the source, [source_node_id] the [node_id] of the source and
    [source_channel_id] the channel given; and one identifier is drawn
    when a key is given, two otherwise. *)
Theorem clone_node_links_to_source M uuid source parent_id sc ce pk_ mods c :
  Forall (unbound mods)
         ["id"; "node_id"; "cloned_source"; "source_node_id"; "source_channel_id"] →
  let copy := _clone_node M uuid source parent_id sc ce pk_ mods c in
  copy.1 !! "id" = Some (if truthy pk_ then pk_ else VStr (uuid c))
  ∧ copy.1 !! "node_id" = Some (VStr (uuid (if truthy pk_ then c else S c)))
  ∧ copy.1 !! "cloned_source" = Some (pk source)
  ∧ copy.1 !! "source_node_id" = Some (attr source "node_id")
  ∧ copy.1 !! "source_channel_id" = Some sc
  ∧ copy.2 = (if truthy pk_ then S c else S (S c)).
Proof.
  intros Hm copy. subst copy.
  apply Forall_cons_1 in Hm as [H1 Hm]. apply Forall_cons_1 in Hm as [H2 Hm].
  apply Forall_cons_1 in Hm as [H3 Hm]. apply Forall_cons_1 in Hm as [H4 Hm].
  apply Forall_cons_1 in Hm as [H5 _].
  rewrite !clone_default_lookup by (done || not_a_source_key).
  rewrite clone_counter. unfold clone_defaults.
  by destruct (truthy pk_).
Qed.

Lemma clone_node_links_to_source_witness :
  (_clone_node sample_methods sample_uuid sample_source VNone (VStr "channel-b")
     (VBool true) VNone (Some {[ "title" := VStr "Renamed" ]}) 0).1 !! "node_id"
  = Some (VStr (sample_uuid 1%nat)).
Proof.
  apply (clone_node_links_to_source sample_methods sample_uuid sample_source VNone
           (VStr "channel-b") (VBool true) VNone
           (Some {[ "title" := VStr "Renamed" ]}) 0).
  repeat constructor.
Defined.

(** The provenance of a clone: [original_channel_id] and
    [original_source_node_id] are those of the source when the source
    has them, so that a copy of a copy still names the first original;
    where the source has [None], the clone gets the channel of the
    original node of the source, respectively its [node_id]. *)
Theorem clone_node_provenance M uuid source parent_id sc ce pk_ mods c :
  unbound mods "original_channel_id" → unbound mods "original_source_node_id" →
  let copy := (_clone_node M uuid source parent_id sc ce pk_ mods c).1 in
  copy !! "original_channel_id"
  = Some (if bool_decide (attr source "original_channel_id" = VNone)
          then default VNone (get_channel M (get_original_node M source))
          else attr source "original_channel_id")
  ∧ copy !! "original_source_node_id"
    = Some (if bool_decide (attr source "original_source_node_id" = VNone)
            then attr (get_original_node M source) "node_id"
            else attr source "original_source_node_id").
Proof.
  intros H1 H2 copy. subst copy. rewrite clone_node_eq. cbn [fst].
  set (d := before_backfill uuid sc ce source parent_id pk_ mods c).
  assert (d !! "original_channel_id" = Some (attr source "original_channel_id")) as Hc.
  { unfold d. rewrite before_backfill_unbound by done. unfold update.
    rewrite lookup_union_r by done. unfold clone_defaults. by destruct (truthy pk_). }
  assert (d !! "original_source_node_id"
          = Some (attr source "original_source_node_id")) as Hs.
  { unfold d. rewrite before_backfill_unbound by done. unfold update.
    rewrite lookup_union_r by done. unfold clone_defaults. by destruct (truthy pk_). }
  split.
  - case_bool_decide as E.
    + rewrite E in Hc. by apply backfill_channel.
    + by apply backfill_lookup_set.
  - case_bool_decide as E.
    + rewrite E in Hs. by apply backfill_source_node.
    + by apply backfill_lookup_set.
Qed.

Lemma clone_node_provenance_witness :
  (_clone_node sample_methods sample_uuid sample_source VNone (VStr "channel-b")
     (VBool true) VNone None 0).1 !! "original_channel_id"
  = Some (VStr "channel-o").
Proof.
  apply (clone_node_provenance sample_methods sample_uuid sample_source VNone
           (VStr "channel-b") (VBool true) VNone None 0); exact I.
Defined.

End CloneFacts.

(** * What the dependent-record copiers create *)

Module Copiers.
Import Clone Exc Dependents.

(** The rows that [contentnode] or [contentnode__in] select, by the node
    they belong to. *)
Definition selected (contentnode : option node) (contentnode__in : option (list node))
    (id_ : pyval) : Prop :=
  match contentnode, contentnode__in with
  | Some n, _ => id_ = pk n
  | None, Some ns => id_ ∈ pk <$> ns
  | None, None => False
  end.

#[global] Instance selected_dec cn cnin id_ : Decision (selected cn cnin id_).
Proof. unfold selected. destruct cn, cnin; apply _. Defined.

Lemma parse_filter_kwargs_selected cn cnin :
  cn ≠ None ∨ cnin ≠ None →
  ∃ sel, _parse_filter_kwargs cn cnin = ret sel
         ∧ ∀ id_, sel id_ = true ↔ selected cn cnin id_.
Proof.
  intros H. destruct cn as [n|]; [|destruct cnin as [ns|]].
  - eexists. split; [done|]. intros id_. apply bool_decide_eq_true.
  - eexists. split; [done|]. intros id_. apply bool_decide_eq_true.
  - by destruct H.
Qed.

Lemma filter_selected {A} (f : A → pyval) (sel : pyval → bool) cn cnin (l : list A) :
  (∀ id_, sel id_ = true ↔ selected cn cnin id_) →
  filter (λ x, sel (f x) = true) l = filter (λ x, selected cn cnin (f x)) l.
Proof.
  intros H. induction l as [|x l IH]; [done|].
  rewrite !filter_cons, IH.
  destruct (decide (sel (f x) = true)) as [Hs|Hs].
  - by rewrite decide_True by by apply H.
  - rewrite decide_False; [done|]. by rewrite <- H.
Qed.

(** A loop whose steps all succeed is a fold. *)
Lemma for_each_total {A S} (f : S → A → exc S) (g : S → A → S) (l : list A) :
  ∀ acc, (∀ acc x, x ∈ l → f acc x = ret (g acc x)) →
         for_each f l acc = ret (foldl g acc l).
Proof.
  induction l as [|x l IH]; intros acc H; [done|].
  cbn [for_each foldl]. rewrite H by left. cbn [bind ret].
  apply IH. intros acc' y Hy. apply H. by right.
Qed.

Lemma foldl_snoc {A B} (h : A → B) (l : list A) (acc : list B) :
  foldl (λ done x, done ++ [h x]) acc l = acc ++ (h <$> l).
Proof.
  revert acc. induction l as [|x l IH]; intros acc; cbn [foldl fmap list_fmap].
  - by rewrite app_nil_r.
  - by rewrite IH, <- app_assoc.
Qed.

(** The copy of a file of a copied node. *)
Definition file_copy (m : gmap pyval pyval) (f : file) : file :=
  File VNone (default VNone (m !! file_contentnode_id f))
       (file_assessment_item_id f) (file_data f).

(** When the map has an entry for the node of every file selected,
    [_copy_files] hands [bulk_create] one new file for each of them, in
    their order: without a key of its own, on the copy of the node, and
    otherwise as the original. *)
Theorem copy_files_follow_nodes T m contentnode contentnode__in :
  contentnode ≠ None ∨ contentnode__in ≠ None →
  (∀ f, f ∈ files T → selected contentnode contentnode__in (file_contentnode_id f) →
        is_Some (m !! file_contentnode_id f)) →
  _copy_files T m contentnode contentnode__in
  = ret (file_copy m
           <$> filter (λ f, selected contentnode contentnode__in (file_contentnode_id f))
                      (files T)).
Proof.
  intros Hsel Hm.
  destruct (parse_filter_kwargs_selected _ _ Hsel) as (sel & Hp & Hs).
  unfold _copy_files. rewrite Hp. cbn [bind ret].
  rewrite (filter_selected file_contentnode_id sel contentnode contentnode__in) by done.
  rewrite (for_each_total _ (λ done f, done ++ [file_copy m f])).
  - by rewrite foldl_snoc.
  - intros acc f [Hf Hin]%list_elem_of_filter.
    destruct (Hm f Hin Hf) as [v Hv]. unfold getitem, file_copy. by rewrite Hv.
Qed.

Lemma copy_files_follow_nodes_witness :
  _copy_files DependentsProps.lesson_tables {[ VStr "s1" := VStr "c1" ]}
              (Some DependentsProps.lesson) None
  = ret (file_copy {[ VStr "s1" := VStr "c1" ]}
           <$> filter (λ f, selected (Some DependentsProps.lesson) None
                                     (file_contentnode_id f))
                      (files DependentsProps.lesson_tables)).
Proof.
  apply (copy_files_follow_nodes DependentsProps.lesson_tables
           {[ VStr "s1" := VStr "c1" ]} (Some DependentsProps.lesson) None).
  - by left.
  - intros f Hf Hs. cbn in Hs. rewrite Hs. by eexists.
Defined.

(** The three copiers need a selection: with neither [contentnode] nor
    [contentnode__in] each raises [ValueError] before it reads a table or
    the map; and with both given, [contentnode] decides and
    [contentnode__in] is not looked at. *)
Theorem copiers_selection T new_pk uuid c m n ns :
  (_copy_files T m None None
   = raise (ValueError "Must specify one of contentnode or contentnode__in")
   ∧ _copy_assessment_items T new_pk m None None
     = raise (ValueError "Must specify one of contentnode or contentnode__in")
   ∧ _copy_tags T uuid c m None None
     = raise (ValueError "Must specify one of contentnode or contentnode__in"))
  ∧ (_copy_files T m (Some n) (Some ns) = _copy_files T m (Some n) None
     ∧ _copy_assessment_items T new_pk m (Some n) (Some ns)
       = _copy_assessment_items T new_pk m (Some n) None
     ∧ _copy_tags T uuid c m (Some n) (Some ns) = _copy_tags T uuid c m (Some n) None).
Proof. done. Qed.

(** ** Tags *)

Lemma tags_to_copy_elem T sel t :
  t ∈ tags_to_copy T sel
  ↔ t ∈ content_tags T ∧ tag_channel_id t ≠ VNone
    ∧ ∃ mp, mp ∈ tag_mappings T ∧ contenttag_id mp = tag_id t
            ∧ sel (contentnode_id mp) = true.
Proof.
  unfold tags_to_copy. rewrite list_elem_of_bind. split.
  - intros (t0 & Ht & Ht0). apply list_elem_of_bind in Ht as (mp & Ht & Hmp).
    destruct (bool_decide (contenttag_id mp = tag_id t0)) eqn:E1;
      [|by apply elem_of_nil in Ht].
    destruct (sel (contentnode_id mp)) eqn:E2; [|by apply elem_of_nil in Ht].
    destruct (bool_decide (tag_channel_id t0 = VNone)) eqn:E3;
      [by apply elem_of_nil in Ht|].
    cbn in Ht. apply list_elem_of_singleton in Ht as ->.
    apply bool_decide_eq_true in E1. apply bool_decide_eq_false in E3.
    split; [done|]. split; [done|]. by exists mp.
  - intros (Ht & Hc & mp & Hmp & Hid & Hs). exists t. split; [|done].
    apply list_elem_of_bind. exists mp. split; [|done].
    rewrite bool_decide_eq_true_2, Hs, bool_decide_eq_false_2 by done. cbn. left.
Qed.

Lemma foldl_insert_lookup {A} (k v : A → pyval) (l : list A) :
  ∀ (d : gmap pyval pyval) key,
    match foldl (λ d t, <[k t := v t]> d) d l !! key with
    | Some val => (d !! key = Some val ∧ ∀ t, t ∈ l → k t ≠ key)
                  ∨ ∃ t, t ∈ l ∧ k t = key ∧ v t = val
    | None => d !! key = None ∧ ∀ t, t ∈ l → k t ≠ key
    end.
Proof.
  induction l as [|x l IH]; intros d key; cbn [foldl].
  - destruct (d !! key) eqn:E.
    + left. split; [done|]. intros t Ht. by apply elem_of_nil in Ht.
    + split; [done|]. intros t Ht. by apply elem_of_nil in Ht.
  - specialize (IH (<[k x := v x]> d) key).
    destruct (foldl _ _ l !! key) as [val|].
    + destruct IH as [[Hd Hl]|(t & Ht & Hk & Hv)].
      * destruct (decide (k x = key)) as [<-|Hne].
        -- rewrite lookup_insert_eq in Hd. injection Hd as <-.
           right. exists x. split; [left|done].
        -- rewrite lookup_insert_ne in Hd by done. left. split; [done|].
           intros t [->|Ht]%elem_of_cons; auto.
      * right. exists t. split; [by right|done].
    + destruct IH as [Hd Hl].
      destruct (decide (k x = key)) as [<-|Hne].
      * by rewrite lookup_insert_eq in Hd.
      * rewrite lookup_insert_ne in Hd by done. split; [done|].
        intros t [->|Ht]%elem_of_cons; auto.
Qed.

Lemma existing_tags_lookup T to_copy name :
  match existing_tags T to_copy !! name with
  | Some id_ => ∃ e, e ∈ content_tags T ∧ tag_channel_id e = VNone
                     ∧ tag_name e = name ∧ tag_id e = id_
  | None => name ∈ tag_name <$> to_copy →
            ∀ e, e ∈ content_tags T → tag_channel_id e = VNone → tag_name e ≠ name
  end.
Proof.
  unfold existing_tags.
  pose proof (foldl_insert_lookup tag_name tag_id
    (filter (λ t, bool_decide (tag_name t ∈ tag_name <$> to_copy)
                  && bool_decide (tag_channel_id t = VNone) = true)
            (content_tags T)) ∅ name) as H.
  destruct (foldl _ _ _ !! name) as [id_|].
  - destruct H as [[H _]|(e & He & Hn & Hi)]; [by rewrite lookup_empty in H|].
    apply list_elem_of_filter in He as [Hp He].
    apply andb_true_iff in Hp as [_ Hc%bool_decide_eq_true]. by exists e.
  - destruct H as [_ H]. intros Hname e He Hc Hn. apply (H e); [|done].
    apply list_elem_of_filter. split; [|done].
    rewrite (bool_decide_eq_true_2 _ Hc), andb_true_r.
    apply bool_decide_eq_true. by rewrite Hn.
Qed.

(** What the loop over the tags to copy has built once it has seen
    [done]. *)
Record planned (uuid : uuids) (existing : gmap pyval pyval) (c : nat)
    (done : list content_tag)
    (acc : list content_tag * gmap pyval pyval * nat) : Prop := {
  planned_count : acc.2 = (c + length acc.1.1)%nat;
  planned_new :
    Forall (λ new, tag_channel_id new = VNone
                   ∧ ∃ t, t ∈ done ∧ tag_name t = tag_name new
                          ∧ existing !! tag_name t = None) acc.1.1;
  planned_some :
    ∀ k v, acc.1.2 !! k = Some v →
           ∃ t, t ∈ done ∧ tag_id t = k
                ∧ (existing !! tag_name t = Some v
                   ∨ ∃ new, new ∈ acc.1.1 ∧ tag_id new = v
                            ∧ tag_name new = tag_name t);
  planned_none : ∀ k, acc.1.2 !! k = None → ∀ t, t ∈ done → tag_id t ≠ k
}.

Lemma plan_tags_planned uuid existing to_copy c :
  planned uuid existing c to_copy (plan_tags uuid existing to_copy c).
Proof.
  unfold plan_tags. induction to_copy as [|tag l IH] using rev_ind.
  { split; cbn.
    - lia.
    - constructor.
    - intros k v H. by rewrite lookup_empty in H.
    - intros k _ t Ht. by apply elem_of_nil in Ht. }
  rewrite foldl_app. cbn [foldl].
  destruct (foldl _ _ l) as [[created map_] c'].
  destruct IH as [H1 H2 H3 H4]. cbn [fst snd] in *.
  destruct (existing !! tag_name tag) as [ex|] eqn:E.
  - split; cbn [fst snd].
    + done.
    + eapply Forall_impl; [exact H2|]. intros new (Hc & t & Ht & Hn).
      split; [done|]. exists t. split; [|done]. apply elem_of_app. by left.
    + intros k v Hk. destruct (decide (tag_id tag = k)) as [<-|Hne].
      * rewrite lookup_insert_eq in Hk. injection Hk as <-.
        exists tag. split; [apply elem_of_app; right; left|]. split; [done|by left].
      * rewrite lookup_insert_ne in Hk by done.
        destruct (H3 k v Hk) as (t & Ht & Hid & Hv).
        exists t. split; [apply elem_of_app; by left|done].
    + intros k Hk t [Ht|Ht]%elem_of_app.
      * apply H4; [|done]. destruct (decide (tag_id tag = k)) as [<-|Hne];
          [by rewrite lookup_insert_eq in Hk|by rewrite lookup_insert_ne in Hk].
      * apply list_elem_of_singleton in Ht as ->. intros <-.
        by rewrite lookup_insert_eq in Hk.
  - split; cbn [fst snd tag_id].
    + rewrite length_app. cbn. lia.
    + apply Forall_app. split.
      * eapply Forall_impl; [exact H2|]. intros new (Hc & t & Ht & Hn).
        split; [done|]. exists t. split; [|done]. apply elem_of_app. by left.
      * constructor; [|constructor]. split; [done|].
        exists tag. split; [apply elem_of_app; right; left|done].
    + intros k v Hk. destruct (decide (tag_id tag = k)) as [<-|Hne].
      * rewrite lookup_insert_eq in Hk. injection Hk as <-.
        exists tag. split; [apply elem_of_app; right; left|]. split; [done|].
        right. eexists. split; [apply elem_of_app; right; left|done].
      * rewrite lookup_insert_ne in Hk by done.
        destruct (H3 k v Hk) as (t & Ht & Hid & Hv).
        exists t. split; [apply elem_of_app; by left|]. split; [done|].
        destruct Hv as [Hv|(new & Hnew & Hv)]; [by left|].
        right. exists new. split; [apply elem_of_app; by left|done].
    + intros k Hk t [Ht|Ht]%elem_of_app.
      * apply H4; [|done]. destruct (decide (tag_id tag = k)) as [<-|Hne];
          [by rewrite lookup_insert_eq in Hk|by rewrite lookup_insert_ne in Hk].
      * apply list_elem_of_singleton in Ht as ->. intros <-.
        by rewrite lookup_insert_eq in Hk.
Qed.

Lemma NoDup_fmap_inj {A B} (f : A → B) (l : list A) x y :
  NoDup (f <$> l) → x ∈ l → y ∈ l → f x = f y → x = y.
Proof.
  induction l as [|z l IH]; intros Hn Hx Hy Heq; [by apply elem_of_nil in Hx|].
  rewrite fmap_cons in Hn. apply NoDup_cons in Hn as [Hz Hn].
  apply elem_of_cons in Hx as [->|Hx]; apply elem_of_cons in Hy as [->|Hy]; auto.
  - destruct Hz. rewrite Heq. by apply list_elem_of_fmap_2.
  - destruct Hz. rewrite <- Heq. by apply list_elem_of_fmap_2.
Qed.

(** How a tag association is carried over: onto the copy of its node
    ([None] when the map has none), and onto a tag without a channel.  An
    association with a tag that has no channel keeps its tag; one with a
    tag of a channel goes to a tag without a channel that has the same
    name, an existing one or one of those created. *)
Definition carried (T : tables) (m : gmap pyval pyval) (created : list content_tag)
    (old new : tag_mapping) : Prop :=
  contentnode_id new = default VNone (m !! contentnode_id old)
  ∧ ∀ t, t ∈ content_tags T → tag_id t = contenttag_id old →
         if bool_decide (tag_channel_id t = VNone)
         then contenttag_id new = contenttag_id old
         else ∃ t', (t' ∈ content_tags T ∨ t' ∈ created)
                    ∧ tag_channel_id t' = VNone ∧ tag_name t' = tag_name t
                    ∧ tag_id t' = contenttag_id new.


(** A table in which the tag [algebra] of a channel is on the lesson,
    and a tag of that name without a channel exists already. *)
Definition tagged_tables : tables :=
  {| files := [];
     assessment_items := [];
     content_tags := [ContentTag (VStr "t1") (VStr "algebra") (VStr "channel-a");
                      ContentTag (VStr "t2") (VStr "algebra") VNone];
     tag_mappings := [TagMapping (VStr "t1") (VStr "s1")] |}.


(** ** Assessment items and their files *)

(** The key under which [_copy_assessment_items] remembers the old id
    of an item: the id of the copy of its node, a colon, and its
    [assessment_id]; there is one when both are strings. *)
Definition item_key (m : gmap pyval pyval) (a : assessment_item) : option string :=
  match m !! item_contentnode_id a, item_assessment_id a with
  | Some (VStr n), VStr s => Some ((n +:+ ":") +:+ s)
  | _, _ => None
  end.

Definition item_copy (m : gmap pyval pyval) (a : assessment_item) : assessment_item :=
  AssessmentItem VNone (default VNone (m !! item_contentnode_id a))
                 (item_assessment_id a) (item_data a).

Definition key_value (m : gmap pyval pyval) (a : assessment_item) : pyval :=
  match item_key m a with Some k => VStr k | None => VNone end.

(** The lookup that the first loop builds. *)
Definition old_ids (m : gmap pyval pyval) (l : list assessment_item)
    : gmap pyval pyval :=
  foldl (λ d a, <[key_value m a := item_id a]> d) ∅ l.

Lemma foldl_pair {A B C} (h : A → B) (k : A → C → C) (l : list A) :
  ∀ (done : list B) (d : C),
    foldl (λ (acc : list B * C) x, (acc.1 ++ [h x], k x acc.2)) (done, d) l
    = (done ++ (h <$> l), foldl (λ d x, k x d) d l).
Proof.
  induction l as [|x l IH]; intros done d; cbn [foldl fmap list_fmap fst snd].
  - by rewrite app_nil_r.
  - by rewrite IH, <- app_assoc.
Qed.

Lemma item_key_strings m a k :
  item_key m a = Some k →
  ∃ n s, m !! item_contentnode_id a = Some (VStr n) ∧ item_assessment_id a = VStr s
         ∧ k = (n +:+ ":") +:+ s.
Proof.
  unfold item_key. destruct (m !! item_contentnode_id a) as [[| | |n]|]; try done.
  destruct (item_assessment_id a) as [| | |s]; try done.
  intros [= <-]. by exists n, s.
Qed.

(** The first loop: the items re-pointed, and the lookup of the old
    ids. *)
Lemma items_loop m (l : list assessment_item) :
  (∀ a, a ∈ l → is_Some (item_key m a)) →
  for_each
    (λ '(done, lookup) a,
       bind (getitem m (item_contentnode_id a)) (λ new_node,
       bind (str_add new_node (VStr ":")) (λ prefix,
       bind (str_add prefix (item_assessment_id a)) (λ key,
       ret (done ++ [AssessmentItem VNone new_node (item_assessment_id a) (item_data a)],
            <[key := item_id a]> lookup)))))
    l (([], ∅) : list assessment_item * gmap pyval pyval)
  = ret (item_copy m <$> l, old_ids m l).
Proof.
  intros Hk.
  rewrite (for_each_total _
    (λ (acc : list assessment_item * gmap pyval pyval) a,
       (acc.1 ++ [item_copy m a], <[key_value m a := item_id a]> acc.2))).
  - by rewrite (foldl_pair (item_copy m) (λ a d, <[key_value m a := item_id a]> d)).
  - intros [done lookup] a Ha. destruct (Hk a Ha) as [k Hkey].
    destruct (item_key_strings m a k Hkey) as (n & s & Hn & Hs & ->).
    unfold getitem, item_copy, key_value. rewrite Hkey, Hn, Hs. reflexivity.
Qed.

Lemma old_id_lookup m (l : list assessment_item) a :
  NoDup (item_key m <$> l) → a ∈ l →
  old_ids m l !! key_value m a = Some (item_id a) ∨ item_key m a = None.
Proof.
  intros Hnd Ha. destruct (item_key m a) as [k|] eqn:Hk; [left|by right].
  pose proof (foldl_insert_lookup (key_value m) item_id l ∅ (key_value m a)) as H.
  fold (old_ids m l) in H.
  destruct (old_ids m l !! key_value m a) as [val|].
  - destruct H as [[H _]|(t & Ht & Hkt & Hv)]; [by rewrite lookup_empty in H|].
    assert (t = a) as ->; [|by rewrite Hv].
    apply (NoDup_fmap_inj (item_key m) l); [done..|].
    unfold key_value in Hkt. rewrite Hk in Hkt.
    destruct (item_key m t); by simplify_eq.
  - destruct H as [_ H]. by destruct (H a Ha).
Qed.

(** The item that [bulk_create] returns for the [i]-th item selected. *)
Definition item_created (m : gmap pyval pyval) (new_pk : nat → pyval) (i : nat)
    (a : assessment_item) : assessment_item :=
  AssessmentItem (new_pk i) (default VNone (m !! item_contentnode_id a))
                 (item_assessment_id a) (item_data a).

Lemma bulk_create_items_created m new_pk l :
  bulk_create_items new_pk (item_copy m <$> l) = imap (item_created m new_pk) l.
Proof. unfold bulk_create_items. by rewrite imap_fmap. Qed.

(** The key that the second loop computes for a created item. *)
Definition created_key (b : assessment_item) : pyval :=
  match item_contentnode_id b, item_assessment_id b with
  | VStr n, VStr s => VStr ((n +:+ ":") +:+ s)
  | _, _ => VNone
  end.

(** The lookup that the second loop builds. *)
Definition new_ids (old : gmap pyval pyval) (created : list assessment_item)
    : gmap pyval pyval :=
  foldl (λ d b, <[default VNone (old !! created_key b) := item_id b]> d) ∅ created.

Lemma created_old_id m new_pk l i a :
  (∀ a, a ∈ l → is_Some (item_key m a)) → NoDup (item_key m <$> l) →
  l !! i = Some a →
  created_key (item_created m new_pk i a) = key_value m a
  ∧ old_ids m l !! key_value m a = Some (item_id a).
Proof.
  intros Hk Hnd Hi. assert (a ∈ l) as Ha by (by eapply list_elem_of_lookup_2).
  destruct (Hk a Ha) as [k Hkey].
  destruct (item_key_strings m a k Hkey) as (n & s & Hn & Hs & ->).
  split.
  - unfold created_key, item_created, key_value.
    cbn [item_contentnode_id item_assessment_id]. by rewrite Hkey, Hn, Hs.
  - destruct (old_id_lookup m l a Hnd Ha) as [H|H]; [done|congruence].
Qed.

Lemma new_ids_loop m new_pk l :
  (∀ a, a ∈ l → is_Some (item_key m a)) → NoDup (item_key m <$> l) →
  for_each
    (λ lookup a,
       bind (str_add (item_contentnode_id a) (VStr ":")) (λ prefix,
       bind (str_add prefix (item_assessment_id a)) (λ key,
       bind (getitem (old_ids m l) key) (λ old_id,
       ret (<[old_id := item_id a]> lookup)))))
    (imap (item_created m new_pk) l) (∅ : gmap pyval pyval)
  = ret (new_ids (old_ids m l) (imap (item_created m new_pk) l)).
Proof.
  intros Hk Hnd. unfold new_ids. apply for_each_total.
  intros acc b (i & a & -> & Hi)%elem_of_lookup_imap.
  destruct (created_old_id m new_pk l i a Hk Hnd Hi) as [Hck Hold].
  rewrite Hck, Hold. cbn [default].
  assert (a ∈ l) as Ha by (by eapply list_elem_of_lookup_2).
  destruct (Hk a Ha) as [k Hkey].
  destruct (item_key_strings m a k Hkey) as (n & s & Hn & Hs & ->).
  unfold item_created. cbn [item_contentnode_id item_assessment_id item_id].
  rewrite Hn, Hs. unfold key_value in Hold. rewrite Hkey in Hold.
  unfold getitem. cbn [default from_option id str_add bind ret].
  rewrite Hold. reflexivity.
Qed.

Lemma new_ids_lookup m new_pk l id_ :
  (∀ a, a ∈ l → is_Some (item_key m a)) → NoDup (item_key m <$> l) →
  id_ ∈ item_id <$> l →
  ∃ i a, l !! i = Some a ∧ item_id a = id_
         ∧ new_ids (old_ids m l) (imap (item_created m new_pk) l) !! id_
           = Some (new_pk i).
Proof.
  intros Hk Hnd (a0 & -> & Ha0)%list_elem_of_fmap.
  apply list_elem_of_lookup_1 in Ha0 as [i0 Hi0].
  pose proof (foldl_insert_lookup
    (λ b, default VNone (old_ids m l !! created_key b)) item_id
    (imap (item_created m new_pk) l) ∅ (item_id a0)) as H.
  revert H. unfold new_ids.
  destruct (foldl _ _ _ !! item_id a0) as [val|]; intros H.
  - destruct H as [[H _]|(b & Hb & Hkb & Hv)]; [by rewrite lookup_empty in H|].
    apply elem_of_lookup_imap in Hb as (i & a & -> & Hi).
    destruct (created_old_id m new_pk l i a Hk Hnd Hi) as [Hck Hold].
    rewrite Hck, Hold in Hkb. cbn in Hkb, Hv. exists i, a. by rewrite <- Hv.
  - destruct H as [_ H].
    destruct (H (item_created m new_pk i0 a0)).
    + by apply elem_of_lookup_imap_2.
    + destruct (created_old_id m new_pk l i0 a0 Hk Hnd Hi0) as [Hck Hold].
      by rewrite Hck, Hold.
Qed.

(** When every item selected has a key (the map gives the copy of its
    node as a string, and its [assessment_id] is a string) and no two of
    them have the same key, [_copy_assessment_items] creates one item
    for each, in their order, on the copy of its node and otherwise as
    the original; and for every file of a selected item it hands
    [bulk_create] a new file, in the order of the files, that belongs to
    the copy of that item and is otherwise as the original. *)
Theorem copy_assessment_items_files_follow T new_pk m contentnode contentnode__in :
  contentnode ≠ None ∨ contentnode__in ≠ None →
  let items := filter (λ a, selected contentnode contentnode__in (item_contentnode_id a))
                      (assessment_items T) in
  (∀ a, a ∈ items → is_Some (item_key m a)) →
  NoDup (item_key m <$> items) →
  ∃ new_files,
    _copy_assessment_items T new_pk m contentnode contentnode__in
    = ret (imap (item_created m new_pk) items, new_files)
    ∧ Forall2
        (λ f f', ∃ i a, items !! i = Some a ∧ item_id a = file_assessment_item_id f
                        ∧ f' = File VNone (file_contentnode_id f) (new_pk i)
                                    (file_data f))
        (filter (λ f, file_assessment_item_id f ∈ item_id <$> items) (files T))
        new_files.
Proof.
  intros Hsel items Hk Hnd.
  destruct (parse_filter_kwargs_selected _ _ Hsel) as (sel & Hp & Hs).
  unfold _copy_assessment_items. rewrite Hp. cbn [bind ret].
  rewrite (filter_selected item_contentnode_id sel contentnode contentnode__in) by done.
  fold items. rewrite (items_loop m items Hk). cbn [bind ret].
  rewrite bulk_create_items_created.
  rewrite (new_ids_loop m new_pk items Hk Hnd). cbn [bind ret].
  set (L2 := new_ids (old_ids m items) (imap (item_created m new_pk) items)).
  rewrite (for_each_total _
    (λ done f, done ++ [File VNone (file_contentnode_id f)
                          (default VNone (L2 !! file_assessment_item_id f))
                          (file_data f)])).
  - cbn [bind ret]. eexists. split; [reflexivity|].
    rewrite foldl_snoc. cbn [app].
    apply Forall2_fmap_r, Forall_Forall2_diag, Forall_forall.
    intros f [Hf _]%list_elem_of_filter.
    destruct (new_ids_lookup m new_pk items _ Hk Hnd Hf) as (i & a & Hi & Hid & HL).
    exists i, a. fold L2 in HL. by rewrite HL.
  - intros acc f [Hf _]%list_elem_of_filter.
    destruct (new_ids_lookup m new_pk items _ Hk Hnd Hf) as (i & a & Hi & Hid & HL).
    fold L2 in HL. unfold getitem. by rewrite HL.
Qed.

(** Two questions of the lesson, the first with a picture. *)
Definition quiz_tables : tables :=
  {| files := [File (VStr "f1") VNone (VInt 4) ∅; File (VStr "f2") (VStr "s1") VNone ∅];
     assessment_items := [AssessmentItem (VInt 4) (VStr "s1") (VStr "a1") ∅;
                          AssessmentItem (VInt 5) (VStr "s1") (VStr "a2") ∅];
     content_tags := [];
     tag_mappings := [] |}.

Lemma copy_assessment_items_files_follow_witness :
  ∃ new_files,
    _copy_assessment_items quiz_tables (λ i, VInt (10 + Z.of_nat i))
      {[ VStr "s1" := VStr "c1" ]} (Some DependentsProps.lesson) None
    = ret (imap (item_created {[ VStr "s1" := VStr "c1" ]} (λ i, VInt (10 + Z.of_nat i)))
                (filter (λ a, selected (Some DependentsProps.lesson) None
                                       (item_contentnode_id a))
                        (assessment_items quiz_tables)),
           new_files)
    ∧ Forall2
        (λ f f', ∃ i a,
           filter (λ a, selected (Some DependentsProps.lesson) None
                                 (item_contentnode_id a))
                  (assessment_items quiz_tables) !! i = Some a
           ∧ item_id a = file_assessment_item_id f
           ∧ f' = File VNone (file_contentnode_id f) (VInt (10 + Z.of_nat i))
                       (file_data f))
        (filter (λ f, file_assessment_item_id f
                      ∈ item_id <$> filter (λ a, selected (Some DependentsProps.lesson)
                                                          None (item_contentnode_id a))
                                           (assessment_items quiz_tables))
                (files quiz_tables))
        new_files.
Proof.
  apply (copy_assessment_items_files_follow quiz_tables (λ i, VInt (10 + Z.of_nat i))
           {[ VStr "s1" := VStr "c1" ]} (Some DependentsProps.lesson) None).
  - by left.
  - intros a Ha. vm_compute in Ha.
    apply elem_of_cons in Ha as [->|Ha]; [by eexists|].
    apply elem_of_cons in Ha as [->|Ha]; [by eexists|].
    by apply elem_of_nil in Ha.
  - apply (bool_decide_unpack _). vm_compute. exact I.
Defined.

End Copiers.

(** * Properties of [_mptt_refresh] *)

Module RefreshProps.
Import Clone Store.

(** A node with the mptt fields of its row in the table; a node without
    a key, or without a row, as it is. *)
Definition fresh (table : list node) (n : node) : node :=
  if truthy (pk n) then
    match lookup_pk table (pk n) with
    | Some r => Node (attrs n) (tree_id r) (level r) (lft r) (rght r)
    | None => n
    end
  else n.

Lemma foldl_rows_lookup (l : list node) :
  ∀ (d : gmap pyval node) k,
    foldl (λ d r, <[pk r := r]> d) d l !! k
    = match last (filter (λ r, pk r = k) l) with
      | Some r => Some r
      | None => d !! k
      end.
Proof.
  induction l as [|x l IH]; intros d k; [done|].
  cbn [foldl]. rewrite IH, filter_cons.
  destruct (decide (pk x = k)) as [<-|Hne].
  - rewrite last_cons, lookup_insert_eq.
    by destruct (last (filter _ l)).
  - rewrite lookup_insert_ne by done. done.
Qed.

Lemma filter_filter_key (table : list node) (ids : list pyval) k :
  k ∈ ids →
  filter (λ r, pk r = k) (filter (λ r, pk r ∈ ids) table)
  = filter (λ r, pk r = k) table.
Proof.
  intros Hk. induction table as [|x l IH]; [done|].
  rewrite !filter_cons. destruct (decide (pk x ∈ ids)) as [Hx|Hx].
  - rewrite filter_cons, IH. done.
  - rewrite IH. rewrite decide_False; [done|]. by intros <-.
Qed.

Lemma values_lookup_pk table (ids : list pyval) k :
  k ∈ ids → Refresh.values_lookup table ids !! k = lookup_pk table k.
Proof.
  intros Hk. unfold Refresh.values_lookup, lookup_pk.
  rewrite foldl_rows_lookup, filter_filter_key by done.
  rewrite lookup_empty. by destruct (last _).
Qed.

Lemma truthy_ids (nodes : list node) n :
  n ∈ nodes → truthy (pk n) = true →
  pk n ∈ filter (λ id_, truthy id_ = true) (pk <$> nodes).
Proof.
  intros Hn Ht. apply list_elem_of_filter. split; [done|].
  by apply list_elem_of_fmap_2.
Qed.

Lemma set_values_fresh table (ids : list pyval) (nodes : list node) s :
  (∀ n, n ∈ nodes → truthy (pk n) = true →
        pk n ∈ ids ∧ is_Some (lookup_pk table (pk n))) →
  Refresh.set_values (Refresh.values_lookup table ids) nodes s
  = Ok (fresh table <$> nodes) s.
Proof.
  induction nodes as [|n nodes IH]; intros H; [done|].
  cbn [Refresh.set_values fmap list_fmap]. unfold fresh at 1.
  destruct (truthy (pk n)) eqn:Ht.
  - destruct (H n) as [Hid [r Hr]]; [left|done|].
    rewrite values_lookup_pk, Hr by done. unfold bind.
    rewrite IH by (intros n' Hn'; apply H; by right). done.
  - unfold bind. rewrite IH by (intros n' Hn'; apply H; by right). done.
Qed.

Lemma set_values_missing table (ids : list pyval) (nodes1 nodes2 : list node) n s :
  (∀ n', n' ∈ nodes1 → truthy (pk n') = true →
         pk n' ∈ ids ∧ is_Some (lookup_pk table (pk n'))) →
  truthy (pk n) = true → pk n ∈ ids → lookup_pk table (pk n) = None →
  Refresh.set_values (Refresh.values_lookup table ids) (nodes1 ++ n :: nodes2) s
  = Err (KeyError (pk n)) s.
Proof.
  intros H Ht Hid Hn. induction nodes1 as [|n1 nodes1 IH].
  - cbn [app Refresh.set_values]. by rewrite Ht, values_lookup_pk, Hn.
  - cbn [app Refresh.set_values].
    assert (∀ n', n' ∈ nodes1 → truthy (pk n') = true →
              pk n' ∈ ids ∧ is_Some (lookup_pk table (pk n'))) as H'
      by (intros n' Hn'; apply H; by right).
    specialize (IH H').
    destruct (truthy (pk n1)) eqn:Ht1.
    + destruct (H n1) as [Hid1 [r Hr]]; [left|done|].
      rewrite values_lookup_pk, Hr by done. unfold bind. by rewrite IH.
    + unfold bind. by rewrite IH.
Qed.

Lemma fresh_fresh table n : fresh table (fresh table n) = fresh table n.
Proof.
  unfold fresh. destruct (truthy (pk n)) eqn:Ht; [|by rewrite Ht].
  destruct (lookup_pk table (pk n)) as [r|] eqn:Hr; [|by rewrite Ht, Hr].
  change (pk (Node (attrs n) _ _ _ _)) with (pk n). by rewrite Ht, Hr.
Qed.

Lemma pk_fresh table n : pk (fresh table n) = pk n.
Proof.
  unfold fresh. destruct (truthy (pk n)); [|done].
  by destruct (lookup_pk table (pk n)).
Qed.

Lemma refresh_nodes_run (nodes : list node) s :
  (∀ n, n ∈ nodes → truthy (pk n) = true → is_Some (lookup_pk (rows s) (pk n))) →
  Refresh._mptt_refresh nodes s = Ok (fresh (rows s) <$> nodes) s.
Proof.
  intros H. unfold Refresh._mptt_refresh. case_bool_decide as He.
  - unfold ret. f_equal. symmetry.
    rewrite <- (list_fmap_id nodes) at 2. apply list_fmap_ext.
    intros i n Hn%list_elem_of_lookup_2. unfold fresh.
    destruct (truthy (pk n)) eqn:Ht; [|done].
    pose proof (truthy_ids nodes n Hn Ht) as Hin. rewrite He in Hin.
    by apply elem_of_nil in Hin.
  - unfold bind, get. apply set_values_fresh.
    intros n Hn Ht. split; [by apply truthy_ids|by apply H].
Qed.

(** When every node that has a key has a row in the table,
    [_mptt_refresh] gives each of them the tree id, level, [lft] and
    [rght] of its row and keeps its attributes; a node without a key is
    left as it is; the table is not changed; and refreshing the nodes
    again changes nothing more. *)
Theorem mptt_refresh_takes_rows (nodes : list node) s :
  (∀ n, n ∈ nodes → truthy (pk n) = true → is_Some (lookup_pk (rows s) (pk n))) →
  Refresh._mptt_refresh nodes s = Ok (fresh (rows s) <$> nodes) s
  ∧ Refresh._mptt_refresh (fresh (rows s) <$> nodes) s
    = Ok (fresh (rows s) <$> nodes) s.
Proof.
  intros H. split; [by apply refresh_nodes_run|].
  rewrite refresh_nodes_run.
  - rewrite <- list_fmap_compose. f_equal. apply list_fmap_ext.
    intros i n _. apply fresh_fresh.
  - intros n' (n & -> & Hn)%list_elem_of_fmap. rewrite pk_fresh. by apply H.
Qed.

Definition stale : node := Node {[ "id" := VStr "a" ]} 1 0 1 2.
Definition unsaved : node := Node ∅ 0 0 0 0.
Definition shifted : state :=
  State [Node {[ "id" := VStr "a" ]} 1 0 1 6; Node {[ "id" := VStr "b" ]} 1 1 2 3]
        2 0 [].

Lemma mptt_refresh_takes_rows_witness :
  Refresh._mptt_refresh [stale; unsaved] shifted
  = Ok (fresh (rows shifted) <$> [stale; unsaved]) shifted.
Proof.
  apply (mptt_refresh_takes_rows [stale; unsaved] shifted).
  intros n Hn Ht.
  apply elem_of_cons in Hn as [->|Hn]; [by eexists|].
  apply elem_of_cons in Hn as [->|Hn]; [done|].
  by apply elem_of_nil in Hn.
Defined.

Lemma refresh_missing (nodes1 nodes2 : list node) n s :
  (∀ n', n' ∈ nodes1 → truthy (pk n') = true →
         is_Some (lookup_pk (rows s) (pk n'))) →
  truthy (pk n) = true → lookup_pk (rows s) (pk n) = None →
  Refresh._mptt_refresh (nodes1 ++ n :: nodes2) s = Err (KeyError (pk n)) s.
Proof.
  intros H Ht Hn. unfold Refresh._mptt_refresh.
  assert (n ∈ nodes1 ++ n :: nodes2) as Hin by (apply elem_of_app; right; left).
  pose proof (truthy_ids _ n Hin Ht) as Hid.
  case_bool_decide as He; [rewrite He in Hid; by apply elem_of_nil in Hid|].
  unfold bind, get. apply set_values_missing; try done.
  intros n' Hn' Ht'. split; [|by apply H].
  apply truthy_ids; [|done]. apply elem_of_app. by left.
Qed.

(** A node that has a key but no row in the table makes [_mptt_refresh]
    raise [KeyError] with that key, at the first such node. *)
Theorem mptt_refresh_without_row (nodes1 nodes2 : list node) n s :
  (∀ n', n' ∈ nodes1 → truthy (pk n') = true →
         is_Some (lookup_pk (rows s) (pk n'))) →
  truthy (pk n) = true → lookup_pk (rows s) (pk n) = None →
  Refresh._mptt_refresh (nodes1 ++ n :: nodes2) s = Err (KeyError (pk n)) s.
Proof. apply refresh_missing. Qed.

Definition lost : node := Node {[ "id" := VStr "z" ]} 1 0 1 2.

Lemma mptt_refresh_without_row_witness :
  Refresh._mptt_refresh [stale; lost] shifted = Err (KeyError (pk lost)) shifted.
Proof.
  apply (mptt_refresh_without_row [stale] [] lost shifted).
  - intros n' Hn' _. apply list_elem_of_singleton in Hn' as ->. by eexists.
  - reflexivity.
  - reflexivity.
Defined.

(** On one node, [_mptt_refresh] is the refresh that the copy operations
    use for their target. *)
Lemma mptt_refresh_single n s :
  Refresh._mptt_refresh [n] s
  = match Store._mptt_refresh n s with
    | Ok n' s' => Ok [n'] s'
    | Err e s' => Err e s'
    | OutOfFuel => OutOfFuel
    end.
Proof.
  unfold Store._mptt_refresh. destruct (truthy (pk n)) eqn:Ht.
  - unfold bind, get. destruct (lookup_pk (rows s) (pk n)) as [r|] eqn:Hr.
    + rewrite refresh_nodes_run.
      * cbn. unfold fresh. by rewrite Ht, Hr.
      * intros n' ->%list_elem_of_singleton _. by eexists.
    + apply (refresh_missing [] [] n s); [|done..].
      intros n' Hn'. by apply elem_of_nil in Hn'.
  - rewrite refresh_nodes_run.
    + cbn. unfold fresh. by rewrite Ht.
    + intros n' ->%list_elem_of_singleton Ht'. congruence.
Qed.

End RefreshProps.

(** * What a copy leaves in the table *)

Module CopyFacts.
Import Clone Store Layout Copy LayoutProps CopyProps CopyCorrect CopyClaims.

(** The rows that were in the table, after the copy: room is made at the
    placement in the tree of the target, and, in a deep copy, the target
    is marked as changed. *)
Definition old_rows (methods_ : methods) (uuid : uuids) (x : stree)
    (target target' : option node) (position : string) (pk_ : pyval)
    (mods : option (gmap string pyval)) (excl : option (list pyval))
    (ce : pyval) (batch : option Z) (s : state) : list node :=
  touched (root x) (default BATCH_SIZE batch) target
    (moved (2 * size (clone_tree methods_ uuid x target pk_ mods excl ce s))
           ((placement target' position s).1.2 - 1)
           (placement target' position s).1.1
     <$> rows s).

(** The table after [copy_node]. *)
Lemma copy_node_state methods_ uuid T trows x fuel target target' position pk_ mods
    excl ce batch s :
  supply uuid →
  copyable uuid T trows x target target' position pk_ mods excl s →
  (depth x < fuel)%nat →
  ∃ res s',
    copy_node methods_ uuid fuel (root x) target position pk_ mods excl ce batch s
    = Ok res s'
    ∧ rows s'
      = old_rows methods_ uuid x target target' position pk_ mods excl ce batch s
        ++ copied_rows methods_ uuid x target target' position pk_ mods excl ce s.
Proof.
  intros [Hinj Hne] [Hkeys Hwf Hroot Hinv Href Hpos Hmods Hpk Hsp HD Hpar] Hfuel.
  unfold copy_node. unfold bind at 1.
  rewrite (all_nodes_to_copy_inv uuid T trows s) by (done || by destruct Hwf).
  unfold bind at 1, record at 1, modify.
  set (s0 := State (rows s) (next_tree_id s) (next_uuid s) _).
  destruct (copy_run uuid T trows (keys_of excl) Hkeys methods_
              (get_channel_id methods_ (root x)) ce Hinj Hne x Hwf Hroot
              fuel (default BATCH_SIZE batch) target target' position pk_ mods
              excl s0) as (res & cs & Hrun & Hprog); try done.
  - by apply (inv_same uuid T trows s).
  - by apply (refreshed_state s).
  - rewrite Hrun. eexists _, _. split; [reflexivity|].
    unfold after_copy. cbn [rows next_uuid s0].
    by rewrite (placement_state _ _ s s0).
Qed.

(** ** The nested-set order *)

(** [b] lies strictly inside [a]; [a] lies wholly before [b]. *)
Definition within (a b : node) : Prop := lft a < lft b ∧ rght b < rght a.
Definition beside (a b : node) : Prop := rght a < lft b.

(** Two rows of one tree are nested or disjoint. *)
Definition ordered (a b : node) : Prop :=
  tree_id a ≠ tree_id b ∨ within a b ∨ within b a ∨ beside a b ∨ beside b a.

(** A table whose trees are in nested-set form: every row spans an
    interval, and any two rows of one tree are nested or disjoint. *)
Definition nested_set (table : list node) : Prop :=
  Forall (λ r, lft r < rght r) table ∧ ForallOrdPairs ordered table.

Lemma shift_mono k th a b : 0 ≤ k → a < b → shift k th a < shift k th b.
Proof.
  intros Hk Hab. unfold shift.
  destruct (th <? a) eqn:Ea; destruct (th <? b) eqn:Eb; lia.
Qed.

Lemma moved_lft k th D r :
  lft (moved k th D r) = if bool_decide (tree_id r = D) then shift k th (lft r) else lft r.
Proof. unfold moved. by destruct (bool_decide _). Qed.

Lemma moved_rght k th D r :
  rght (moved k th D r)
  = if bool_decide (tree_id r = D) then shift k th (rght r) else rght r.
Proof. unfold moved. by destruct (bool_decide _). Qed.

Lemma moved_ordered k th D a b :
  0 ≤ k → ordered a b → ordered (moved k th D a) (moved k th D b).
Proof.
  intros Hk. unfold ordered, within, beside.
  rewrite !moved_tree_id, !moved_lft, !moved_rght.
  intros [Hne|H]; [by left|].
  destruct (decide (tree_id a = tree_id b)) as [Heq|Hne]; [|by left].
  right. rewrite Heq. destruct (bool_decide (tree_id b = D)); [|done].
  destruct H as [[? ?]|[[? ?]|[?|?]]].
  - left. split; by apply shift_mono.
  - right. left. split; by apply shift_mono.
  - right. right. left. by apply shift_mono.
  - right. right. right. by apply shift_mono.
Qed.

Lemma moved_nested k th D table :
  0 ≤ k → nested_set table → nested_set (moved k th D <$> table).
Proof.
  intros Hk [H1 H2]. split.
  - apply Forall_fmap. eapply Forall_impl; [exact H1|]. intros r Hr. cbn.
    rewrite moved_lft, moved_rght. destruct (bool_decide _); [|done].
    by apply shift_mono.
  - clear H1. induction H2 as [|a l Ha _ IH]; [constructor|].
    rewrite fmap_cons. constructor; [|done].
    apply Forall_fmap. eapply Forall_impl; [exact Ha|]. intros b Hb. cbn.
    by apply moved_ordered.
Qed.

Lemma ForallOrdPairs_fmap {A B} (R : B → B → Prop) (f : A → B) (l : list A) :
  ForallOrdPairs R (f <$> l) → ForallOrdPairs (λ a b, R (f a) (f b)) l.
Proof.
  induction l as [|x l IH]; [constructor|].
  rewrite fmap_cons. inversion 1 as [|? ? Hx Hl]; subst.
  constructor; [|by apply IH]. by rewrite Forall_fmap in Hx.
Qed.

Lemma apart_ordered (rows_ : list node) :
  ForallOrdPairs (λ a b, apart (inst_of a) (inst_of b)) rows_ →
  ForallOrdPairs ordered rows_.
Proof.
  induction 1 as [|a rest Ha _ IH]; constructor; [|done].
  eapply Forall_impl; [exact Ha|]. intros b (ra & rb & Hra & Hrb & _ & _ & Hab).
  cbn in Hra, Hrb, Hab. simplify_eq. right.
  destruct Hab as [[? ?]|?]; [by left|right; right; by left].
Qed.

Lemma lay_ordered tree t c l : ForallOrdPairs ordered (lay tree t c l).
Proof.
  pose proof (treeify_lay tree t c l []) as Hl.
  destruct (treeify_good tree t c l []) as (new & Hnew & G).
  rewrite Hl in Hnew. injection Hnew as Hnew. simpl in Hnew. subst new.
  apply apart_ordered, ForallOrdPairs_fmap, (good_apart _ _ _ _ _ G).
Qed.

Lemma marked_coords id_ r :
  tree_id (marked id_ r) = tree_id r ∧ lft (marked id_ r) = lft r
  ∧ rght (marked id_ r) = rght r ∧ level (marked id_ r) = level r.
Proof. unfold marked. by destruct (bool_decide _). Qed.

Lemma same_coords_nested (f : node → node) table :
  (∀ r, tree_id (f r) = tree_id r ∧ lft (f r) = lft r ∧ rght (f r) = rght r) →
  nested_set table → nested_set (f <$> table).
Proof.
  intros Hf [H1 H2]. split.
  - apply Forall_fmap. eapply Forall_impl; [exact H1|]. intros r Hr. cbn.
    destruct (Hf r) as (_ & -> & ->). done.
  - clear H1. induction H2 as [|a l Ha _ IH]; [constructor|].
    rewrite fmap_cons. constructor; [|done].
    apply Forall_fmap. eapply Forall_impl; [exact Ha|]. intros b Hb. cbn.
    unfold ordered, within, beside in *.
    destruct (Hf a) as (-> & -> & ->). destruct (Hf b) as (-> & -> & ->). done.
Qed.

Lemma touched_nested n b target table :
  nested_set table → nested_set (touched n b target table).
Proof.
  intros H. unfold touched, finish. destruct (_ <? _); [|done].
  destruct target as [t|]; [|done]. apply same_coords_nested; [|done].
  intros r. by destruct (marked_coords (pk t) r) as (? & ? & ? & _).
Qed.

(** A row moved to make room for [k] nodes at [c], and a row laid out in
    that room. *)
Lemma moved_beside_room k c D r n :
  1 ≤ k → lft r < rght r → tree_id n = D →
  c ≤ lft n → lft n < rght n → rght n ≤ c + 2 * k - 1 →
  ordered (moved (2 * k) (c - 1) D r) n.
Proof.
  intros Hk Hr HD H1 H2 H3. unfold ordered, within, beside.
  rewrite moved_tree_id, moved_lft, moved_rght.
  destruct (bool_decide (tree_id r = D)) eqn:E.
  - right. unfold shift.
    destruct (c - 1 <? lft r) eqn:El; destruct (c - 1 <? rght r) eqn:Er; lia.
  - apply bool_decide_eq_false in E. left. congruence.
Qed.

Lemma touched_elem n b target (table : list node) a :
  a ∈ touched n b target table →
  ∃ r, r ∈ table ∧ tree_id a = tree_id r ∧ lft a = lft r ∧ rght a = rght r.
Proof.
  unfold touched, finish. destruct (_ <? _); [|intros H; by exists a].
  destruct target as [t|]; [|intros H; by exists a].
  intros (r & -> & Hr)%list_elem_of_fmap. exists r. split; [done|].
  by destruct (marked_coords (pk t) r) as (? & ? & ? & _).
Qed.

(** The table with room made for the layout of a clone tree, and the
    layout in it, is in nested-set form when the table was. *)
Lemma placed_nested n b target table D ct c lvl :
  nested_set table →
  nested_set (touched n b target (moved (2 * size ct) (c - 1) D <$> table)
              ++ lay D ct c lvl).
Proof.
  intros Hn. pose proof (size_pos ct) as Hsz.
  pose proof (touched_nested n b target _
                (moved_nested (2 * size ct) (c - 1) D table ltac:(lia) Hn)) as [H1 H2].
  pose proof (lay_bounds D ct c lvl) as Hb. rewrite Forall_forall in Hb.
  split.
  - apply Forall_app. split; [done|]. apply Forall_forall. intros r Hr.
    by destruct (Hb r Hr) as (_ & _ & ? & _).
  - apply ForallOrdPairs_app; [done|apply lay_ordered|].
    intros a new Ha Hnew.
    destruct (touched_elem _ _ _ _ _ Ha) as (r' & Hr' & Ht & Hl & Hr).
    apply list_elem_of_fmap in Hr' as (r & -> & Hrin).
    destruct (Hb new Hnew) as (HD & ? & ? & ?).
    destruct Hn as [Hspan _]. rewrite Forall_forall in Hspan.
    pose proof (moved_beside_room (size ct) c D r new Hsz (Hspan r Hrin) HD
                  ltac:(done) ltac:(done) ltac:(done)) as Ho.
    unfold ordered, within, beside in *. rewrite Ht, Hl, Hr. exact Ho.
Qed.


Lemma start_nested : nested_set (rows start).
Proof.
  split.
  - repeat constructor.
  - repeat (constructor; [repeat (constructor; [vm_compute; intuition congruence|])|]);
      constructor.
Qed.


(** ** The rows that were there *)

(** What the copy may do to a row that was in the table: its key, tree
    and level stay; its coordinates stay unless it is in the tree [D] of
    the copy; and its attributes stay, unless it has the key of the
    target, which may be marked as changed. *)
Definition kept_row (target : option node) (D : Z) (r r' : node) : Prop :=
  pk r' = pk r ∧ tree_id r' = tree_id r ∧ level r' = level r
  ∧ (tree_id r ≠ D → lft r' = lft r ∧ rght r' = rght r)
  ∧ (attrs r' = attrs r
     ∨ ∃ t, target = Some t ∧ pk r = pk t
            ∧ attrs r' = <["changed" := VBool true]> (attrs r)).

Lemma moved_kept target k th D r : kept_row target D r (moved k th D r).
Proof.
  unfold kept_row. rewrite moved_pk, moved_tree_id, moved_attrs.
  repeat split; try (by left).
  - unfold moved. by destruct (bool_decide _).
  - by rewrite moved_other.
  - by rewrite moved_other.
Qed.

Lemma marked_kept t k th D r :
  kept_row (Some t) D r (marked (pk t) (moved k th D r)).
Proof.
  destruct (moved_kept (Some t) k th D r) as (H1 & H2 & H3 & H4 & _).
  unfold marked. rewrite moved_pk. case_bool_decide as E.
  - unfold kept_row, with_attr. cbn [tree_id level lft rght attrs].
    rewrite moved_attrs. repeat split; try done.
    + unfold pk, attr. cbn [attrs]. by rewrite lookup_insert_ne.
    + by destruct (H4 H).
    + by destruct (H4 H).
    + right. by exists t.
  - apply moved_kept.
Qed.

Lemma touched_kept n b target k th D (table : list node) :
  Forall2 (kept_row target D) table (touched n b target (moved k th D <$> table)).
Proof.
  unfold touched, finish. destruct (_ <? _); [destruct target as [t|]|].
  - rewrite <- list_fmap_compose. apply Forall2_fmap_r, Forall_Forall2_diag, Forall_forall.
    intros r _. apply marked_kept.
  - apply Forall2_fmap_r, Forall_Forall2_diag, Forall_forall.
    intros r _. apply moved_kept.
  - apply Forall2_fmap_r, Forall_Forall2_diag, Forall_forall.
    intros r _. apply moved_kept.
Qed.

Lemma kept_source uuid T trows s target D (old : list node) :
  inv uuid T trows s → D ≠ T → id_of target ∉ pk <$> trows →
  Forall2 (kept_row target D) (rows s) old →
  filter (λ r, tree_id r = T) old = trows.
Proof.
  intros Hinv HD Hpar H. rewrite <- (inv_rows _ _ _ _ Hinv).
  assert (∀ r, r ∈ rows s → tree_id r = T → pk r ∈ pk <$> trows) as Hin.
  { intros r Hr HT. apply list_elem_of_fmap_2.
    rewrite <- (inv_rows _ _ _ _ Hinv). by apply list_elem_of_filter. }
  induction H as [|r r' l l' Hr _ IH]; [done|].
  rewrite !filter_cons.
  destruct Hr as (Hpk & Htree & Hlvl & Hco & Hat). rewrite Htree.
  rewrite IH by (intros r0 Hr0; apply Hin; by right).
  destruct (decide (tree_id r = T)) as [HT|]; [|done]. f_equal.
  destruct (Hco ltac:(congruence)) as [Hl Hg].
  assert (attrs r' = attrs r) as Ha.
  { destruct Hat as [|(t & -> & Hrt & _)]; [done|].
    destruct Hpar. cbn [id_of]. rewrite <- Hrt. apply Hin; [left|done]. }
  destruct r, r'. cbn in *. by subst.
Qed.



End CopyFacts.
